(** * s3-spa-upload: a shallow embedding of the upload/sync core

    The development follows the current revision of the core
    ([index.ts], the revision with the bounded work queue and the
    region-redirect recovery) and of the command line wrapper ([cli.ts]).

    JavaScript strings are modelled as [string], arrays as [list],
    [undefined] as [None], the [number] given as concurrency as [Z] in the
    core, where it is an integer, and as [Number] on the command line.
    Asynchronous code is modelled as a step function on an explicit state:
    one step is one turn of the event loop (the arrival of a response), and
    the synchronous code that runs in that turn is an ordinary function. *)

From Stdlib Require Import String Ascii List ZArith Bool Arith Lia.
From Stdlib Require Import Permutation.
Import ListNotations.
Open Scope string_scope.
#[local] Set Warnings "-register-all".

(** ** JavaScript strings and values *)

Module JS.

(** [s.startsWith(p)] *)
Definition startsWith (s p : string) : bool := String.prefix p s.

(** [s.endsWith(suffix)] *)
Fixpoint endsWith (s suffix : string) : bool :=
  String.eqb s suffix ||
  match s with
  | EmptyString => false
  | String _ t => endsWith t suffix
  end.

(** [arr.includes(x)] on an array of strings *)
Fixpoint includes (arr : list string) (x : string) : bool :=
  match arr with
  | [] => false
  | y :: rest => String.eqb y x || includes rest x
  end.

(** Truthiness of a possibly undefined string: [undefined] and the empty
    string are falsy. *)
Definition truthy (v : option string) : bool :=
  match v with
  | None => false
  | Some s => negb (String.eqb s "")
  end.

(** [a ?? b] *)
Definition nullish {A} (a : option A) (b : A) : A :=
  match a with Some x => x | None => b end.

(** *** Objects used as maps, and [Object.entries]

    An object with string values is the list of its own properties in the
    order they were created.  [Object.entries] does not return that order
    as it is: property names that are canonical array indices come first,
    in ascending numeric order, and the other names follow in creation
    order. *)
Definition object := list (string * string).

Definition is_digit (c : ascii) : bool :=
  let n := nat_of_ascii c in ((48 <=? n) && (n <=? 57))%nat.

Fixpoint all_digits (s : string) : bool :=
  match s with
  | EmptyString => true
  | String c t => is_digit c && all_digits t
  end.

Fixpoint decimal_value (acc : N) (s : string) : N :=
  match s with
  | EmptyString => acc
  | String c t =>
      decimal_value (acc * 10 + N.of_nat (nat_of_ascii c - 48))%N t
  end.

(** A canonical array index: decimal digits without a leading zero (the
    single digit 0 apart), below 2^32 - 1. *)
Definition array_index (name : string) : option N :=
  match name with
  | EmptyString => None
  | String c t =>
      if all_digits name
         && (negb (Ascii.eqb c "0") || String.eqb t "")
         && (String.length name <=? 10)%nat
      then
        let v := decimal_value 0 name in
        if (v <? 4294967295)%N then Some v else None
      else None
  end.

Fixpoint insert_by_index (e : N * (string * string))
                         (l : list (N * (string * string)))
  : list (N * (string * string)) :=
  match l with
  | [] => [e]
  | x :: rest =>
      if (fst e <=? fst x)%N then e :: l else x :: insert_by_index e rest
  end.

Fixpoint index_entries (o : object) : list (N * (string * string)) :=
  match o with
  | [] => []
  | (k, v) :: rest =>
      match array_index k with
      | Some i => insert_by_index (i, (k, v)) (index_entries rest)
      | None => index_entries rest
      end
  end.

Fixpoint named_entries (o : object) : list (string * string) :=
  match o with
  | [] => []
  | (k, v) :: rest =>
      match array_index k with
      | Some _ => named_entries rest
      | None => (k, v) :: named_entries rest
      end
  end.

Definition Object_entries (o : object) : list (string * string) :=
  map snd (index_entries o) ++ named_entries o.

End JS.

(** ** Regular expressions

    The two patterns of the core are matched by a backtracking matcher
    written in continuation style, the way ECMAScript defines pattern
    matching: a matcher takes the state reached so far and a continuation
    for the rest of the pattern, and the first alternative whose
    continuation succeeds wins. *)

Module RegExp.

Inductive regex : Type :=
| Empty
| Char (c : ascii)
| Dot
| Class (cs : list ascii)
| Seq (r1 r2 : regex)
| Star (r : regex)
| Opt (r : regex)
| Group (i : nat) (r : regex)
| Bol
| Eol.

(** [r+] *)
Definition Plus (r : regex) : regex := Seq r (Star r).

Fixpoint Lit (cs : list ascii) : regex :=
  match cs with
  | [] => Empty
  | c :: rest => Seq (Char c) (Lit rest)
  end.

(** The state of a match: the characters before the current position (the
    nearest first), the characters from the current position on, and the
    captures made so far. *)
Record MatchState : Type := mkMatchState {
  before : list ascii;
  rest : list ascii;
  captures : list (nat * list ascii)
}.

Definition Continuation := MatchState -> option MatchState.

(** The line terminators, which [.] does not match. *)
Definition line_terminator (c : ascii) : bool :=
  Ascii.eqb c "010" || Ascii.eqb c "013".

Definition advance (x : MatchState) (c : ascii) (t : list ascii) : MatchState :=
  mkMatchState (c :: before x) t (captures x).

Definition char_matcher (p : ascii -> bool) (k : Continuation) : Continuation :=
  fun x =>
    match rest x with
    | c :: t => if p c then k (advance x c t) else None
    | [] => None
    end.

Definition set_capture (i : nat) (v : list ascii)
                       (caps : list (nat * list ascii)) :=
  (i, v) :: filter (fun e => negb (Nat.eqb (fst e) i)) caps.

Fixpoint get_capture (i : nat) (caps : list (nat * list ascii))
  : option (list ascii) :=
  match caps with
  | [] => None
  | (j, v) :: more => if Nat.eqb i j then Some v else get_capture i more
  end.

Fixpoint matcher (r : regex) (k : Continuation) (x : MatchState) {struct r}
  : option MatchState :=
  match r with
  | Empty => k x
  | Char c => char_matcher (Ascii.eqb c) k x
  | Dot => char_matcher (fun c => negb (line_terminator c)) k x
  | Class cs => char_matcher (fun c => existsb (Ascii.eqb c) cs) k x
  | Seq r1 r2 => matcher r1 (matcher r2 k) x
  | Star r1 =>
      (* greedy repetition: one more round of [r1] first, provided the
         round consumed something, otherwise the rest of the pattern *)
      (fix repeat (fuel : nat) (x : MatchState) {struct fuel}
         : option MatchState :=
         match fuel with
         | O => k x
         | S fuel' =>
             match matcher r1
                     (fun y =>
                        if Nat.eqb (length (rest y)) (length (rest x))
                        then None else repeat fuel' y) x with
             | Some z => Some z
             | None => k x
             end
         end) (S (length (rest x))) x
  | Opt r1 =>
      match matcher r1 k x with
      | Some z => Some z
      | None => k x
      end
  | Group i r1 =>
      matcher r1
        (fun y =>
           let n := (length (rest x) - length (rest y))%nat in
           k (mkMatchState (before y) (rest y)
                (set_capture i (firstn n (rest x)) (captures y)))) x
  | Bol => match before x with [] => k x | _ :: _ => None end
  | Eol => match rest x with [] => k x | _ :: _ => None end
  end.

(** The result of a successful [exec]: where the match starts, the matched
    text, what follows it, and the captures. *)
Record MatchResult : Type := mkMatchResult {
  index : list ascii;       (* the text before the match *)
  matched : list ascii;
  following : list ascii;
  groups : list (nat * list ascii)
}.

(** [exec] without the global flag: the first start position, from the left,
    at which the pattern matches. *)
Fixpoint exec_from (r : regex) (pre : list ascii) (s : list ascii)
  : option MatchResult :=
  match matcher r (fun y => Some y) (mkMatchState pre s []) with
  | Some y =>
      let n := (length s - length (rest y))%nat in
      Some (mkMatchResult (rev pre) (firstn n s) (rest y) (captures y))
  | None =>
      match s with
      | [] => None
      | c :: t => exec_from r (c :: pre) t
      end
  end.

Definition exec (r : regex) (s : string) : option MatchResult :=
  exec_from r [] (list_ascii_of_string s).

(** [s.match(r)?.[i]] for a pattern without the global flag *)
Definition match_group (r : regex) (s : string) (i : nat) : option string :=
  match exec r s with
  | None => None
  | Some m =>
      match i with
      | O => Some (string_of_list_ascii (matched m))
      | _ => option_map string_of_list_ascii (get_capture i (groups m))
      end
  end.

(** [s.replace(r, "")] for a pattern without the global flag *)
Definition replace_empty (r : regex) (s : string) : string :=
  match exec r s with
  | None => s
  | Some m => string_of_list_ascii (index m ++ following m)
  end.

(** *** Patterns built from text: [new RegExp(source)]

    The fragment that is parsed: characters, [.], escaped punctuation, the
    anchors, and the quantifiers [*], [+] and [?] after a character.  A
    source with groups, classes, alternatives, braces, class escapes or lazy
    quantifiers, or one that JavaScript rejects, is not parsed ([None]). *)

Definition is_alnum (c : ascii) : bool :=
  let n := nat_of_ascii c in
  (((48 <=? n) && (n <=? 57)) || ((65 <=? n) && (n <=? 90))
   || ((97 <=? n) && (n <=? 122)))%nat.

Definition syntax_char (c : ascii) : bool :=
  existsb (Ascii.eqb c)
    ["("; ")"; "["; "]"; "{"; "}"; "|"; "*"; "+"; "?"; "\"; "^"; "$"; "."]%char.

Definition quantifier (c : ascii) : bool :=
  existsb (Ascii.eqb c) ["*"; "+"; "?"]%char.

Definition quantified (q : ascii) (a : regex) : regex :=
  if Ascii.eqb q "*" then Star a
  else if Ascii.eqb q "+" then Plus a
  else Opt a.

Fixpoint parse (fuel : nat) (src : list ascii) : option regex :=
  match fuel with
  | O => None
  | S fuel' =>
      match src with
      | [] => Some Empty
      | c :: more =>
          let atom : option (regex * bool * list ascii) :=
            if Ascii.eqb c "\" then
              match more with
              | e :: more' =>
                  if is_alnum e then None else Some (Char e, true, more')
              | [] => None
              end
            else if Ascii.eqb c "." then Some (Dot, true, more)
            else if Ascii.eqb c "^" then Some (Bol, false, more)
            else if Ascii.eqb c "$" then Some (Eol, false, more)
            else if syntax_char c then None
            else Some (Char c, true, more)
          in
          match atom with
          | None => None
          | Some (a, repeatable, after) =>
              match after with
              | q :: after' =>
                  if quantifier q then
                    if repeatable then
                      match after' with
                      | q' :: _ =>
                          if quantifier q' then None
                          else option_map (Seq (quantified q a))
                                          (parse fuel' after')
                      | [] => Some (Seq (quantified q a) Empty)
                      end
                    else None
                  else option_map (Seq a) (parse fuel' after)
              | [] => Some (Seq a Empty)
              end
          end
      end
  end.

Definition RegExp (source : string) : option regex :=
  let src := list_ascii_of_string source in
  parse (S (length src)) src.

End RegExp.

(** ** Paths ([path.posix] of Node.js) *)

Module Path.

(** Split at every [sep]; the pieces between two separators in a row, and
    before a leading or after a trailing one, are empty. *)
Fixpoint split_at (sep : ascii) (s : list ascii) : list (list ascii) :=
  match s with
  | [] => [[]]
  | c :: t =>
      if Ascii.eqb c sep then [] :: split_at sep t
      else match split_at sep t with
           | seg :: more => (c :: seg) :: more
           | [] => [[c]]
           end
  end.

Definition segments (p : string) : list string :=
  map string_of_list_ascii (split_at "/" (list_ascii_of_string p)).

Definition is_absolute (p : string) : bool := JS.startsWith p "/".

(** Resolve [.] and [..] and drop empty segments.  [acc] holds the segments
    kept so far, the last one first; [allow_above] says whether a [..] that
    cannot be resolved is kept (relative paths) or dropped (absolute ones). *)
Fixpoint normalize_segments (allow_above : bool) (acc : list string)
                            (segs : list string) : list string :=
  match segs with
  | [] => rev acc
  | seg :: more =>
      if String.eqb seg "" || String.eqb seg "." then
        normalize_segments allow_above acc more
      else if String.eqb seg ".." then
        match acc with
        | top :: acc' =>
            if String.eqb top ".."
            then normalize_segments allow_above (seg :: acc) more
            else normalize_segments allow_above acc' more
        | [] =>
            if allow_above
            then normalize_segments allow_above [seg] more
            else normalize_segments allow_above [] more
        end
      else normalize_segments allow_above (seg :: acc) more
  end.

Fixpoint join_segments (segs : list string) : string :=
  match segs with
  | [] => ""
  | [seg] => seg
  | seg :: more => seg ++ "/" ++ join_segments more
  end.

(** [path.resolve(p)] in a process whose working directory is [cwd] (an
    absolute path): an absolute, normalized path without a trailing
    separator. *)
Definition resolve (cwd p : string) : string :=
  let full := if is_absolute p then p else cwd ++ "/" ++ p in
  "/" ++ join_segments (normalize_segments false [] (segments full)).

(** [path.normalize(p)] *)
Definition normalize (p : string) : string :=
  if String.eqb p "" then "."
  else
    let abs := is_absolute p in
    let body := join_segments (normalize_segments (negb abs) [] (segments p)) in
    let body := if String.eqb body "" && negb abs then "." else body in
    let body := if negb (String.eqb body "") && JS.endsWith p "/"
                then body ++ "/" else body in
    if abs then "/" ++ body else body.

(** [path.join(a, b)] *)
Definition join (a b : string) : string :=
  if String.eqb a "" then normalize b
  else if String.eqb b "" then normalize a
  else normalize (a ++ "/" ++ b).

Fixpoint last_segment (segs : list string) : string :=
  match segs with
  | [] => ""
  | [seg] => seg
  | _ :: more => last_segment more
  end.

(** The position of the last [.] of [s], counted from the left. *)
Fixpoint last_dot (s : list ascii) : option nat :=
  match s with
  | [] => None
  | c :: t =>
      match last_dot t with
      | Some i => Some (S i)
      | None => if Ascii.eqb c "." then Some O else None
      end
  end.

(** [path.extname(p)]: from the last [.] of the last segment to its end;
    empty when there is no [.], when the last one is the first character of
    the segment, and for the segment [..]. *)
Definition extname (p : string) : string :=
  let base := list_ascii_of_string
                (last_segment (filter (fun s => negb (String.eqb s ""))
                                      (segments p))) in
  match last_dot base with
  | None | Some O => ""
  | Some i =>
      if Nat.eqb i 1 && forallb (Ascii.eqb ".") (firstn i base)
         && Nat.eqb (S i) (length base)
      then ""
      else string_of_list_ascii (skipn i base)
  end.

End Path.

(** ** Glob matching ([minimatch] with [{ matchBase: true }]) *)

Module Minimatch.

Inductive part : Type :=
| GLOBSTAR
| Literal (s : list ascii)
| Magic (p : list ascii).

Definition is_magic_char (c : ascii) : bool :=
  Ascii.eqb c "*" || Ascii.eqb c "?".

Definition in_fragment (pattern : string) : bool :=
  forallb (fun c => negb (existsb (Ascii.eqb c)
                            ["["; "]"; "{"; "}"; "("; ")"; "|"; "\"]%char))
          (list_ascii_of_string pattern).

(** One path segment against one pattern segment: [*] stands for any run
    of characters, [?] for one character. *)
Fixpoint glob_segment (p : list ascii) (f : list ascii) {struct p} : bool :=
  match p with
  | [] => match f with [] => true | _ :: _ => false end
  | c :: p' =>
      if Ascii.eqb c "*" then
        (fix skip (f : list ascii) : bool :=
           glob_segment p' f ||
           match f with
           | [] => false
           | _ :: t => skip t
           end) f
      else
        match f with
        | [] => false
        | d :: t =>
            (Ascii.eqb c "?" || Ascii.eqb c d) && glob_segment p' t
        end
  end.

Definition starts_with_dot (f : list ascii) : bool :=
  match f with
  | c :: _ => Ascii.eqb c "."
  | [] => false
  end.

(** A segment with wildcards matches no empty segment, and when it starts
    with a wildcard it matches no segment that starts with a dot. *)
Definition magic_match (p f : list ascii) : bool :=
  match f with
  | [] => false
  | c :: _ => negb (RegExp.line_terminator c)
  end
  && match p with
     | c :: _ => negb (is_magic_char c && starts_with_dot f)
     | [] => true
     end
  && glob_segment p f.

Definition parse_part (seg : list ascii) : part :=
  match seg with
  | ["*"; "*"]%char => GLOBSTAR
  | _ => if existsb is_magic_char seg then Magic seg else Literal seg
  end.

Definition list_ascii_eqb (a b : list ascii) : bool :=
  String.eqb (string_of_list_ascii a) (string_of_list_ascii b).

Definition part_match (p : part) (f : list ascii) : bool :=
  match p with
  | GLOBSTAR => false
  | Literal s => list_ascii_eqb f s
  | Magic m => magic_match m f
  end.

(** A segment that [**] never swallows *)
Definition hidden (f : list ascii) : bool := starts_with_dot f.

Fixpoint matchOne (pattern : list part) (file : list (list ascii))
  {struct pattern} : bool :=
  match pattern with
  | [] =>
      match file with
      | [] => true
      | [[]] => true          (* a trailing separator in the path *)
      | _ => false
      end
  | GLOBSTAR :: pr =>
      match file with
      | [] => false
      | _ :: _ =>
          match pr with
          | [] => forallb (fun f => negb (hidden f)) file
          | _ :: _ =>
              (fix swallow (file : list (list ascii)) : bool :=
                 match file with
                 | [] => false
                 | f :: more =>
                     matchOne pr file ||
                     (negb (hidden f) && swallow more)
                 end) file
          end
      end
  | p :: pr =>
      match file with
      | [] => false
      | f :: more => part_match p f && matchOne pr more
      end
  end.

(** Split at runs of separators, as [split(/\/+/)] does. *)
Fixpoint drop_inner_empty (segs : list (list ascii)) : list (list ascii) :=
  match segs with
  | [] => []
  | [last] => [last]
  | [] :: more => drop_inner_empty more
  | seg :: more => seg :: drop_inner_empty more
  end.

Definition split_slashes (s : list ascii) : list (list ascii) :=
  match Path.split_at "/" s with
  | [] => []
  | first :: more => first :: drop_inner_empty more
  end.

(** The last non-empty segment of the path *)
Fixpoint filename (file : list (list ascii)) : list ascii :=
  match file with
  | [] => []
  | f :: more =>
      match filename more with
      | [] => f
      | g => g
      end
  end.

Fixpoint parse_negate (negate : bool) (p : list ascii) : bool * list ascii :=
  match p with
  | c :: t => if Ascii.eqb c "!" then parse_negate (negb negate) t
              else (negate, p)
  | [] => (negate, p)
  end.

Definition starts_with_hash (p : list ascii) : bool :=
  match p with
  | c :: _ => Ascii.eqb c "#"
  | [] => false
  end.

Definition white_space (c : ascii) : bool :=
  existsb (Ascii.eqb c) [" "; "009"; "010"; "011"; "012"; "013"]%char.

(** Modelled from the spec: glob matching is the package minimatch, whose
    source is not part of the repository.  The model has the base-name
    semantics of the specification (a pattern without a separator is
    matched against the last segment of the path) for patterns made of
    ordinary characters, [*], [?], the separator [/], a segment [**],
    leading [!] (negation) and leading [#] (comment).  Patterns with brace
    sets, character classes, extended globs or escapes are not modelled:
    [in_fragment] is false for them. *)
Definition minimatch_matchBase (path pattern : string) : bool :=
  let p := list_ascii_of_string pattern in
  let f := list_ascii_of_string path in
  if starts_with_hash p then false
  else if forallb white_space p then String.eqb path ""
  else
    let '(negate, p') := parse_negate false p in
    let set := map parse_part (split_slashes p') in
    let file := split_slashes f in
    let file := match set with
                | [_] => [filename file]
                | _ => file
                end in
    xorb negate (matchOne set file).

End Minimatch.

(** ** The data of the core ([index.ts]) *)

Definition CacheControlMapping := JS.object.

Record AwsCredentials : Type := {
  accessKeyId : string;
  secretAccessKey : string;
  sessionToken : option string
}.

Record Options : Type := {
  delete : option bool;
  cacheControlMapping : option CacheControlMapping;
  awsCredentials : option AwsCredentials;
  prefix : option string;
  concurrency : option Z
}.

Definition CACHE_FOREVER := "public,max-age=31536000,immutable".
Definition CACHE_ONE_DAY_SWR_ONE_MONTH :=
  "public,max-age=86400,stale-while-revalidate=2592000".
Definition NO_CACHE := "no-cache".
Definition CACHE_ONE_MIN_SWR_ONE_MONTH :=
  "public,max-age=60,stale-while-revalidate=2592000".

Definition DEFAULT_CACHE_CONTROL_MAPPING : CacheControlMapping :=
  [ ("index.html", CACHE_ONE_MIN_SWR_ONE_MONTH);
    ("*.css", CACHE_FOREVER);
    ("*.js", CACHE_FOREVER);
    ("*.png", CACHE_ONE_DAY_SWR_ONE_MONTH);
    ("*.ico", CACHE_ONE_DAY_SWR_ONE_MONTH);
    ("*.txt", CACHE_ONE_DAY_SWR_ONE_MONTH) ].

(** *** The storage service, as the core sees it *)

Record S3Client : Type := {
  region : option string;
  credentials : option AwsCredentials
}.

Module PutObject.
Record params : Type := {
  Bucket : string;
  Key : string;
  Body : string;
  CacheControl : option string;
  ContentType : option string
}.
End PutObject.

Module Listing.
Record _Object : Type := { Key : option string }.
Record page : Type := {
  Contents : option (list _Object);
  NextContinuationToken : option string
}.
End Listing.

Inductive Command : Type :=
| PutObjectCommand (input : PutObject.params)
| DeleteObjectCommand (Bucket Key : string)
| ListObjectsV2Command (Bucket Prefix : string)
                       (ContinuationToken : option string).

(** A request: the command and the client it was sent through. *)
Definition Request : Type := (S3Client * Command)%type.

(** An error response of the service *)
Record S3Error : Type := {
  Code : option string;
  Endpoint : option string
}.

Inductive Error : Type :=
| FilesystemError (path : string)
| QueueError            (* the work queue refuses the concurrency *)
| TypeError             (* a property of [undefined] is read *)
| RegionMissing         (* the constructor of the client refuses its region *)
| ServiceError (e : S3Error).

(** [new S3Client({ region, credentials })].  The class is the SDK's, not
    the repository's.  Of its constructor the model keeps that the client
    carries the configuration it was given, and that the constructor throws
    ("Region is missing") when the region it is given is the empty string.
    Without a region the SDK looks one up when a request is sent; that
    lookup is outside the model. *)
Definition new_S3Client (region : option string)
                        (credentials : option AwsCredentials)
  : Error + S3Client :=
  match region with
  | Some r =>
      if String.eqb r "" then inl RegionMissing
      else inr {| region := Some r; credentials := credentials |}
  | None => inr {| region := None; credentials := credentials |}
  end.

(** *** The file system *)

Inductive Entry : Type :=
| File (body : string)
| Directory (entries : list (string * Entry))
| Unreadable            (* a directory that cannot be listed *)
| Dangling              (* a name that [statSync] fails on *)
| Other.                (* neither a regular file nor a directory *)

Fixpoint lookup_entry (name : string) (entries : list (string * Entry))
  : option Entry :=
  match entries with
  | [] => None
  | (n, e) :: more => if String.eqb n name then Some e else lookup_entry name more
  end.

Fixpoint lookup_segments (e : Entry) (segs : list string) : option Entry :=
  match segs with
  | [] => Some e
  | seg :: more =>
      match e with
      | Directory entries =>
          match lookup_entry seg entries with
          | Some e' => lookup_segments e' more
          | None => None
          end
      | _ => None
      end
  end.

(** The entry at an absolute path, [root] being the entry at [/]. *)
Definition lookup (root : Entry) (path : string) : option Entry :=
  lookup_segments root
    (filter (fun s => negb (String.eqb s "")) (Path.segments path)).

Definition readFileSync (root : Entry) (path : string) : Error + string :=
  match lookup root path with
  | Some (File body) => inr body
  | _ => inl (FilesystemError path)
  end.

(** ** The bounded work queue ([fastq.promise]) *)

Module Fastq.

(** Modelled from the spec: the work queue is the package fastq, whose
    source is not part of the repository.  The model is the bounded work
    queue of the specification: a limit of at least 1 is required of the
    configuration, a pushed task starts at once while fewer than
    [concurrency] worker invocations are outstanding and waits in submission
    order otherwise, and every invocation that ends hands its slot to the
    task that has waited longest.  [T] is the type of the tasks, [J] of the
    worker invocations that are outstanding. *)
Record queue (T J : Type) : Type := mkQueue {
  concurrency : Z;
  running : list J;
  waiting : list T
}.

Arguments mkQueue {T J}.
Arguments concurrency {T J}.
Arguments running {T J}.
Arguments waiting {T J}.

(** [fastq.promise(worker, concurrency)] *)
Definition promise {T J : Type} (limit : Z) : Error + queue T J :=
  if (limit <? 1)%Z then inl QueueError
  else inr (mkQueue limit [] []).

(** Is every slot taken? *)
Definition saturated {T J : Type} (q : queue T J) : bool :=
  (Z.of_nat (List.length (running q)) >=? concurrency q)%Z.

(** [q.length()]: the number of tasks that wait *)
Definition length {T J : Type} (q : queue T J) : nat :=
  List.length (waiting q).

(** [q.idle()] *)
Definition idle {T J : Type} (q : queue T J) : bool :=
  match running q, waiting q with
  | [], [] => true
  | _, _ => false
  end.

Definition enqueue {T J : Type} (q : queue T J) (task : T) : queue T J :=
  mkQueue (concurrency q) (running q) (waiting q ++ [task])%list.

Definition started {T J : Type} (q : queue T J) (job : J) : queue T J :=
  mkQueue (concurrency q) (running q ++ [job])%list (waiting q).

Fixpoint remove_nth {A : Type} (i : nat) (l : list A) : list A :=
  match l, i with
  | [], _ => []
  | _ :: t, O => t
  | x :: t, S i' => x :: remove_nth i' t
  end.

Fixpoint replace_nth {A : Type} (i : nat) (y : A) (l : list A) : list A :=
  match l, i with
  | [], _ => []
  | _ :: t, O => y :: t
  | x :: t, S i' => x :: replace_nth i' y t
  end.

(** The invocation at position [i] has ended. *)
Definition finished {T J : Type} (q : queue T J) (i : nat) : queue T J :=
  mkQueue (concurrency q) (remove_nth i (running q)) (waiting q).

Definition replaced {T J : Type} (q : queue T J) (i : nat) (job : J)
  : queue T J :=
  mkQueue (concurrency q) (replace_nth i job (running q)) (waiting q).

(** The task that has waited longest, and the queue without it. *)
Definition next {T J : Type} (q : queue T J) : option (T * queue T J) :=
  match waiting q with
  | [] => None
  | task :: more => Some (task, mkQueue (concurrency q) (running q) more)
  end.

End Fastq.

(** ** The functions of the core *)

Section Core.

(** The MIME lookup ([contentType] of mime-types, [undefined] for an
    extension it does not know). *)
Variable contentType : string -> option string.

(** What [minimatch] answers on the patterns that {!Minimatch} does not
    model. *)
Variable minimatch_beyond : string -> string -> bool.

Definition minimatch (path pattern : string) : bool :=
  if Minimatch.in_fragment pattern
  then Minimatch.minimatch_matchBase path pattern
  else minimatch_beyond path pattern.

(** [for (let [glob, cacheControl] of entries) if (minimatch(...)) return] *)
Fixpoint first_match (filepath : string) (entries : list (string * string))
  : option string :=
  match entries with
  | [] => None
  | (glob, cacheControl) :: more =>
      if minimatch filepath glob then Some cacheControl
      else first_match filepath more
  end.

Definition getCacheControl (filepath : string)
                           (cacheControlMapping : CacheControlMapping)
  : option string :=
  first_match filepath (JS.Object_entries cacheControlMapping).

(** [buildFileList], the local function of [walkDirectory].  [entry] is
    what the file system holds at [filePath]; the entries of a directory
    are visited in the order [readdirSync] returns them. *)
Fixpoint visit (filePath : string) (entry : Entry) (filePaths : list string)
  {struct entry} : Error + list string :=
  match entry with
  | File _ => inr (filePaths ++ [filePath])%list
  | Directory entries =>
      (fix each (entries : list (string * Entry)) (filePaths : list string)
         : Error + list string :=
         match entries with
         | [] => inr filePaths
         | (name, e) :: more =>
             match visit (Path.join filePath name) e filePaths with
             | inr filePaths' => each more filePaths'
             | inl err => inl err
             end
         end) entries filePaths
  | Unreadable => inl (FilesystemError filePath)
  | Dangling => inl (FilesystemError filePath)
  | Other => inr filePaths
  end.

Definition buildFileList (root : Entry) (directoryPath : string)
  : Error + list string :=
  match lookup root directoryPath with
  | Some (Directory entries) => visit directoryPath (Directory entries) []
  | _ => inl (FilesystemError directoryPath)
  end.

(** The prefix as [s3SpaUpload] rewrites it in the options. *)
Definition normalized_prefix (prefix : option string) : string :=
  match prefix with
  | None => ""
  | Some p =>
      if negb (JS.truthy (Some p)) then ""
      else if JS.endsWith p "/" then p else p ++ "/"
  end.

(** [options.concurrency ??= 100] *)
Definition effective_concurrency (concurrency : option Z) : Z :=
  JS.nullish concurrency 100%Z.

(** [cacheControlMapping = DEFAULT_CACHE_CONTROL_MAPPING], the default of
    the parameter of [uploadToS3] *)
Definition effective_mapping (m : option CacheControlMapping)
  : CacheControlMapping :=
  JS.nullish m DEFAULT_CACHE_CONTROL_MAPPING.

(** [filePath.replace(new RegExp(String.raw`^${dir}/?`), "")]; [None] when
    the pattern text is outside the fragment that is modelled. *)
Definition relative_key (dir filePath : string) : option string :=
  option_map (fun re => RegExp.replace_empty re filePath)
             (RegExp.RegExp ("^" ++ dir ++ "/?")).

(** The input of the put, as [uploadToS3] builds it. *)
Definition put_params (root : Entry) (bucket key filePath prefix : string)
                      (cacheControlMapping : option CacheControlMapping)
  : Error + PutObject.params :=
  match readFileSync root filePath with
  | inl err => inl err
  | inr body =>
      inr {| PutObject.Bucket := bucket;
             PutObject.Key := prefix ++ key;
             PutObject.Body := body;
             PutObject.CacheControl :=
               getCacheControl filePath (effective_mapping cacheControlMapping);
             PutObject.ContentType := contentType (Path.extname filePath) |}
  end.

(** The pattern of [uploadToS3]: one or more characters, [\.s3], an optional
    [-] or [.], group 1 capturing any run of characters, then
    [\.amazonaws], any character, [com] and the end of the text. *)
Definition redirect_pattern : RegExp.regex :=
  let lit s := RegExp.Lit (list_ascii_of_string s) in
  RegExp.Seq (RegExp.Plus RegExp.Dot)
    (RegExp.Seq (lit ".s3")
       (RegExp.Seq (RegExp.Opt (RegExp.Class ["-"; "."]%char))
          (RegExp.Seq (RegExp.Group 1 (RegExp.Star RegExp.Dot))
             (RegExp.Seq (lit ".amazonaws")
                (RegExp.Seq RegExp.Dot
                   (RegExp.Seq (lit "com") RegExp.Eol)))))).

(** [(err.Endpoint as string).match(...)?.[1]] *)
Definition redirectRegion (endpoint : string) : option string :=
  RegExp.match_group redirect_pattern endpoint 1.

(** The client that is to replace [_s3client] after a permanent redirect:
    [new S3Client({ region: redirectRegion ?? "us-east-1", credentials })],
    or the error that the constructor throws. *)
Definition redirected_client (endpoint : string)
                             (awsCredentials : option AwsCredentials)
  : Error + S3Client :=
  new_S3Client (Some (JS.nullish (redirectRegion endpoint) "us-east-1"))
    awsCredentials.

(** The condition under which [removeOldFiles] submits the deletion of a
    listed object. *)
Definition is_old_file (uploadedKeys : list string) (prefix : string)
                       (obj : Listing._Object) : bool :=
  JS.truthy (Listing.Key obj)
  && match Listing.Key obj with
     | Some k => JS.startsWith k prefix && negb (JS.includes uploadedKeys k)
     | None => false
     end.

(** *** The upload phase: [walkDirectory] and [uploadToS3]

    The state between two turns of the event loop. *)

(** A worker invocation that is outstanding. *)
Inductive Job : Type :=
| Failing (id : nat) (e : Error)
    (* [uploadToS3] has thrown before any request was sent *)
| Putting (id : nat) (input : PutObject.params) (retried : bool).
    (* a put is in flight: the first one, or the one after a redirect *)

(** Where [walkDirectory] is suspended, or how it has ended. *)
Inductive Control : Type :=
| AwaitPush (id : nat) (todo : list string)  (* [await p], back pressure *)
| AwaitDrained                               (* [await q.drained()] *)
| Returned
| Rejected (e : Error)
| Unmodelled.    (* the pattern built from [dir] is outside the model *)

Record Walk : Type := mkWalk {
  _s3client : option S3Client;
  q : Fastq.queue (nat * string) Job;
  pushed : nat;
  uploadedS3Keys : list string;
  control : Control;
  sent : list Request;
  unhandled : list Error
}.

(** What the worker closure of [s3SpaUpload] captures. *)
Record Run : Type := mkRun {
  root : Entry;
  dir : string;
  bucket : string;
  options : Options
}.

Definition set_control (st : Walk) (c : Control) : Walk :=
  mkWalk (_s3client st) (q st) (pushed st) (uploadedS3Keys st) c (sent st)
         (unhandled st).

Definition set_q (st : Walk) (q' : Fastq.queue (nat * string) Job) : Walk :=
  mkWalk (_s3client st) q' (pushed st) (uploadedS3Keys st) (control st)
         (sent st) (unhandled st).

(** [uploadToS3(bucket, key, filePath, prefix, cacheControlMapping,
    awsCredentials)] up to its suspension, for the task [id]: it makes sure
    there is a client, builds the input and sends the put.  When reading the
    file throws, the invocation fails without a request. *)
Definition uploadToS3 (fs : Entry) (st : Walk) (id : nat)
                      (bucket key filePath : string) (prefix : option string)
                      (cacheControlMapping : option CacheControlMapping)
                      (awsCredentials : option AwsCredentials) : Walk :=
  let client :=
    JS.nullish (_s3client st)
      {| region := None; credentials := awsCredentials |} in
  match put_params fs bucket key filePath (JS.nullish prefix "")
          cacheControlMapping with
  | inl err =>
      mkWalk (Some client) (Fastq.started (q st) (Failing id err))
        (pushed st) (uploadedS3Keys st) (control st) (sent st) (unhandled st)
  | inr input =>
      mkWalk (Some client) (Fastq.started (q st) (Putting id input false))
        (pushed st) (uploadedS3Keys st) (control st)
        (sent st ++ [(client, PutObjectCommand input)])%list (unhandled st)
  end.

(** How [uploadToS3] goes on when its put is answered. *)
Inductive Outcome : Type :=
| Retry (client : S3Client)          (* the put is sent again *)
| Finish (result : Error + string).  (* the key is returned, or an error thrown *)

Definition is_permanent_redirect (err : S3Error) : bool :=
  match Code err with
  | Some c => String.eqb c "PermanentRedirect"
  | None => false
  end.

(** The answer to the put of [uploadToS3]: [None] is an acknowledgement.
    The handler of [catch] looks at the error of the first put only; the
    put it sends is not guarded by a handler.  When the constructor of the
    new client throws, the handler throws before [_s3client] is assigned
    and before a second put is sent, and [uploadToS3] rejects with that
    error. *)
Definition uploadToS3_answer (awsCredentials : option AwsCredentials)
                             (input : PutObject.params) (retried : bool)
                             (response : option S3Error) : Outcome :=
  match response with
  | None => Finish (inr (PutObject.Key input))
  | Some err =>
      if negb retried && is_permanent_redirect err then
        match Endpoint err with
        | None => Finish (inl TypeError)
        | Some endpoint =>
            match redirected_client endpoint awsCredentials with
            | inr client => Retry client
            | inl e => Finish (inl e)
            end
        end
      else Finish (inl (ServiceError err))
  end.

(** The synchronous part of one worker invocation: the closure that
    [s3SpaUpload] passes to [walkDirectory] computes the key and calls
    [uploadToS3]. *)
Definition invoke_worker (run : Run) (st : Walk) (id : nat) (filePath : string)
  : option Walk :=
  match relative_key (dir run) filePath with
  | None => None
  | Some key =>
      Some (uploadToS3 (root run) st id (bucket run) key filePath
              (prefix (options run)) (cacheControlMapping (options run))
              (awsCredentials (options run)))
  end.

(** [q.push(filePath)] *)
Definition push (run : Run) (st : Walk) (filePath : string) : option Walk :=
  let id := pushed st in
  let st' := mkWalk (_s3client st) (q st) (S id) (uploadedS3Keys st)
               (control st) (sent st) (unhandled st) in
  if Fastq.saturated (q st)
  then Some (set_q st' (Fastq.enqueue (q st) (id, filePath)))
  else invoke_worker run st' id filePath.

(** [await q.drained()] *)
Definition drained (st : Walk) : Walk :=
  if Fastq.idle (q st) then set_control st Returned
  else set_control st AwaitDrained.

(** The loop of [walkDirectory] over the files that are left, up to the
    point where it is suspended. *)
Fixpoint push_all (run : Run) (st : Walk) (todo : list string) : Walk :=
  match todo with
  | [] => drained st
  | filePath :: more =>
      match push run st filePath with
      | None => set_control st Unmodelled
      | Some st' =>
          if (0 <? Fastq.length (q st'))%nat
          then set_control st' (AwaitPush (pushed st) more)
          else push_all run st' more
      end
  end.

(** The slot of an invocation that has ended goes to the task that has
    waited longest. *)
Definition release (run : Run) (st : Walk) : option Walk :=
  match Fastq.next (q st) with
  | Some ((id, filePath), q') => invoke_worker run (set_q st q') id filePath
  | None => Some st
  end.

Definition wake_drained (st : Walk) : Walk :=
  match control st with
  | AwaitDrained => drained st
  | _ => st
  end.

(** The invocation at position [i], of the task [id], ends with [result]:
    the key it has written, or the error it rejects with. *)
Definition settle (run : Run) (st : Walk) (i id : nat) (result : Error + string)
  : Walk :=
  let keys := match result with
              | inr key => (uploadedS3Keys st ++ [key])%list
              | inl _ => uploadedS3Keys st
              end in
  let st1 := mkWalk (_s3client st) (Fastq.finished (q st) i) (pushed st) keys
               (control st) (sent st) (unhandled st) in
  match release run st1 with
  | None => set_control st1 Unmodelled
  | Some st2 =>
      let awaited := match control st2 with
                     | AwaitPush id' _ => Nat.eqb id id'
                     | _ => false
                     end in
      match result, control st2 with
      | inr _, AwaitPush _ todo =>
          if awaited then push_all run st2 todo else st2
      | inr _, _ => wake_drained st2
      | inl e, AwaitPush _ _ =>
          if awaited then set_control st2 (Rejected e)
          else mkWalk (_s3client st2) (q st2) (pushed st2) (uploadedS3Keys st2)
                 (control st2) (sent st2) (unhandled st2 ++ [e])%list
      | inl e, _ =>
          wake_drained
            (mkWalk (_s3client st2) (q st2) (pushed st2) (uploadedS3Keys st2)
               (control st2) (sent st2) (unhandled st2 ++ [e])%list)
      end
  end.

(** One turn of the event loop: the put of the invocation at position [i]
    is answered, with an acknowledgement ([None]) or an error. *)
Inductive Event : Type :=
| Answer (i : nat) (response : option S3Error).

Definition step (run : Run) (st : Walk) (ev : Event) : option Walk :=
  match control st, ev with
  | Unmodelled, _ => None
  | _, Answer i response =>
      match nth_error (Fastq.running (q st)) i with
      | None => None
      | Some (Failing id e) => Some (settle run st i id (inl e))
      | Some (Putting id input retried) =>
          match uploadToS3_answer (awsCredentials (options run)) input retried
                  response with
          | Retry client =>
              Some (mkWalk (Some client)
                      (Fastq.replaced (q st) i (Putting id input true))
                      (pushed st) (uploadedS3Keys st) (control st)
                      (sent st ++ [(client, PutObjectCommand input)])%list
                      (unhandled st))
          | Finish result => Some (settle run st i id result)
          end
      end
  end.

Fixpoint steps (run : Run) (st : Walk) (evs : list Event) : option Walk :=
  match evs with
  | [] => Some st
  | ev :: more =>
      match step run st ev with
      | Some st' => steps run st' more
      | None => None
      end
  end.

(** [walkDirectory(dir, worker, options.concurrency)] up to its first
    suspension; [st] is the state in which it is called. *)
Definition walkDirectory (run : Run) (st : Walk) : Walk :=
  match buildFileList (root run) (dir run) with
  | inl err => set_control st (Rejected err)
  | inr filePathsToUpload =>
      match Fastq.promise
              (effective_concurrency (concurrency (options run))) with
      | inl err => set_control st (Rejected err)
      | inr q0 => push_all run (set_q st q0) filePathsToUpload
      end
  end.

(** [s3SpaUpload(dir, bucket, options)] in a process with working directory
    [cwd], up to the first suspension of the upload phase.  The state that
    [walkDirectory] starts from has the new client and nothing else: no
    queue has been made yet (the placeholder has no slot and no task). *)
Definition s3SpaUpload (fs : Entry) (cwd dir bucket : string)
                       (options : Options) : Run * Walk :=
  let dir := Path.resolve cwd dir in
  let options :=
    {| delete := delete options;
       cacheControlMapping := cacheControlMapping options;
       awsCredentials := awsCredentials options;
       prefix := Some (normalized_prefix (prefix options));
       concurrency := Some (effective_concurrency (concurrency options)) |} in
  let run := mkRun fs dir bucket options in
  let client := {| region := None; credentials := awsCredentials options |} in
  (run,
   walkDirectory run
     (mkWalk (Some client) (Fastq.mkQueue 0%Z [] []) 0 [] AwaitDrained [] [])).

(** *** The reconciliation phase: [removeOldFiles] *)

(** Where [removeOldFiles] is suspended, or how it has ended. *)
Inductive SweepControl : Type :=
| AwaitPage                          (* a page of the listing is requested *)
| AwaitDeletions (token : option string)   (* [await q.drained()] *)
| Swept (nrDeleted : nat)
| SweepRejected (e : Error).

Record Sweep : Type := mkSweep {
  dq : Fastq.queue string string;   (* the keys whose deletion waits or runs *)
  deleted : nat;
  sweep_control : SweepControl;
  sweep_sent : list Request;
  sweep_unhandled : list Error
}.

(** The arguments of one call of [removeOldFiles] *)
Record SweepArgs : Type := mkSweepArgs {
  arg_s3client : S3Client;
  arg_bucket : string;
  arg_uploadedKeys : list string;
  arg_prefix : string;
  arg_concurrency : Z
}.

Section RemoveOldFiles.

Variable args : SweepArgs.

#[local] Abbreviation s3client := (arg_s3client args).
#[local] Abbreviation bucket := (arg_bucket args).
#[local] Abbreviation uploadedKeys := (arg_uploadedKeys args).
#[local] Abbreviation prefix := (arg_prefix args).
#[local] Abbreviation concurrency := (arg_concurrency args).

(** The worker of the deletion queue sends the delete at once. *)
Definition invoke_delete (st : Sweep) (key : string) : Sweep :=
  mkSweep (Fastq.started (dq st) key) (deleted st) (sweep_control st)
    (sweep_sent st ++ [(s3client, DeleteObjectCommand bucket key)])%list
    (sweep_unhandled st).

(** [q.push(obj.Key)] *)
Definition push_delete (st : Sweep) (key : string) : Sweep :=
  if Fastq.saturated (dq st)
  then mkSweep (Fastq.enqueue (dq st) key) (deleted st) (sweep_control st)
         (sweep_sent st) (sweep_unhandled st)
  else invoke_delete st key.

(** The inner loop over the objects of one page *)
Fixpoint submit (st : Sweep) (objects : list Listing._Object) : Sweep :=
  match objects with
  | [] => st
  | obj :: more =>
      if is_old_file uploadedKeys prefix obj
      then match Listing.Key obj with
           | Some key => submit (push_delete st key) more
           | None => submit st more
           end
      else submit st more
  end.

(** The paginator is asked for the next page: it sends a request when the
    page before carried a continuation token, and is done otherwise. *)
Definition next_page (st : Sweep) (token : option string) : Sweep :=
  if JS.truthy token
  then mkSweep (dq st) (deleted st) AwaitPage
         (sweep_sent st
          ++ [(s3client, ListObjectsV2Command bucket prefix token)])%list
         (sweep_unhandled st)
  else mkSweep (dq st) (deleted st) (Swept (deleted st)) (sweep_sent st)
         (sweep_unhandled st).

(** [await q.drained()], then the next round of the outer loop *)
Definition sweep_drained (st : Sweep) (token : option string) : Sweep :=
  if Fastq.idle (dq st) then next_page st token
  else mkSweep (dq st) (deleted st) (AwaitDeletions token) (sweep_sent st)
         (sweep_unhandled st).

(** The delete at position [i] is answered: an acknowledgement is counted,
    an error is a rejection that nothing handles. *)
Definition answered (st : Sweep) (i : nat) (response : option S3Error)
  : Sweep :=
  mkSweep (Fastq.finished (dq st) i)
    (match response with None => S (deleted st) | Some _ => deleted st end)
    (sweep_control st) (sweep_sent st)
    (match response with
     | None => sweep_unhandled st
     | Some e => (sweep_unhandled st ++ [ServiceError e])%list
     end).

(** The slot that is free goes to the key that has waited longest. *)
Definition hand_over (st : Sweep) : Sweep :=
  match Fastq.next (dq st) with
  | Some (key, q') =>
      invoke_delete
        (mkSweep q' (deleted st) (sweep_control st) (sweep_sent st)
           (sweep_unhandled st)) key
  | None => st
  end.

Inductive SweepEvent : Type :=
| PageArrives (page : Listing.page)
| ListingFails (e : S3Error)
| DeleteAnswer (i : nat) (response : option S3Error).

Definition sweep_step (st : Sweep) (ev : SweepEvent) : option Sweep :=
  match ev with
  | PageArrives page =>
      match sweep_control st with
      | AwaitPage =>
          Some (sweep_drained
                  (submit st (JS.nullish (Listing.Contents page) []))
                  (Listing.NextContinuationToken page))
      | _ => None
      end
  | ListingFails e =>
      match sweep_control st with
      | AwaitPage =>
          Some (mkSweep (dq st) (deleted st) (SweepRejected (ServiceError e))
                  (sweep_sent st) (sweep_unhandled st))
      | _ => None
      end
  | DeleteAnswer i response =>
      match nth_error (Fastq.running (dq st)) i with
      | None => None
      | Some _ =>
          let st2 := hand_over (answered st i response) in
          Some match sweep_control st2 with
               | AwaitDeletions token => sweep_drained st2 token
               | _ => st2
               end
      end
  end.

Fixpoint sweep_steps (st : Sweep) (evs : list SweepEvent) : option Sweep :=
  match evs with
  | [] => Some st
  | ev :: more =>
      match sweep_step st ev with
      | Some st' => sweep_steps st' more
      | None => None
      end
  end.

(** [removeOldFiles(s3client, bucket, uploadedKeys, prefix, concurrency)] up
    to its first suspension: the queue is made and the first page is
    requested. *)
Definition removeOldFiles : Sweep :=
  match Fastq.promise concurrency with
  | inl err => mkSweep (Fastq.mkQueue 0%Z [] []) 0 (SweepRejected err) [] []
  | inr q0 =>
      mkSweep q0 0 AwaitPage
        [(s3client, ListObjectsV2Command bucket prefix None)] []
  end.

End RemoveOldFiles.

(** What [s3SpaUpload] does once [walkDirectory] has returned: with the
    delete option set it calls [removeOldFiles] with the client of that
    moment and the keys that were uploaded. *)
Definition s3SpaUpload_reconcile (run : Run) (st : Walk) : option Sweep :=
  match control st, delete (options run), _s3client st with
  | Returned, Some true, Some client =>
      Some (removeOldFiles
              (mkSweepArgs client (bucket run) (uploadedS3Keys st)
                 (JS.nullish (prefix (options run)) "")
                 (effective_concurrency (concurrency (options run)))))
  | _, _, _ => None
  end.

End Core.

(** ** The command line wrapper ([cli.ts])

    The check that the command line parser runs on the concurrency
    argument, for an argument that is an integer; the parser supplies 100
    when the argument is not given.  [main], further down, has the check
    for every value of the type [number]. *)
Definition cli_check (c : option Z) : bool :=
  match c with
  | Some v => negb (v <? 1)%Z
  | None => true
  end.

Definition cli_concurrency (given : option Z) : option Z :=
  Some (JS.nullish given 100%Z).

(** ** Notions used in the statements *)

(** [s] ends in one separator, and not in two. *)
Definition ends_in_one_separator (s : string) : bool :=
  JS.endsWith s "/" && negb (JS.endsWith s "//").

(** Reading a cache-control value: its directives are separated by commas,
    and a directive with a duration is [name=seconds]. *)
Module CacheControl.

Definition directives (value : string) : list string :=
  map string_of_list_ascii (Path.split_at "," (list_ascii_of_string value)).

Definition has (name value : string) : bool :=
  existsb (String.eqb name) (directives value).

Definition seconds_of (name directive : string) : option N :=
  let key := name ++ "=" in
  if String.prefix key directive then
    let digits := String.substring (String.length key)
                    (String.length directive - String.length key) directive in
    if JS.all_digits digits && negb (String.eqb digits "")
    then Some (JS.decimal_value 0 digits) else None
  else None.

Fixpoint first_seconds (name : string) (ds : list string) : option N :=
  match ds with
  | [] => None
  | d :: more =>
      match seconds_of name d with
      | Some n => Some n
      | None => first_seconds name more
      end
  end.

Definition seconds (name value : string) : option N :=
  first_seconds name (directives value).

Definition minute : N := 60.
Definition day : N := 24 * 60 * minute.
Definition year : N := 365 * day.

(** What the statements say of a value: is it public, for how long is it
    fresh, for how long may it be served stale while it is revalidated, and
    is it immutable. *)
Definition summary (value : string) : bool * option N * option N * bool :=
  (has "public" value, seconds "max-age" value,
   seconds "stale-while-revalidate" value, has "immutable" value).

End CacheControl.

(** The last non-empty segment of a path, as text *)
Definition basename (path : string) : string :=
  string_of_list_ascii
    (Minimatch.filename (Minimatch.split_slashes (list_ascii_of_string path))).

(** A pattern without a separator *)
Definition no_separator (pattern : string) : bool :=
  negb (existsb (Ascii.eqb "/") (list_ascii_of_string pattern)).

(** A pattern that is empty or made of white space only *)
Definition blank (pattern : string) : bool :=
  forallb Minimatch.white_space (list_ascii_of_string pattern).

(** Resolution as the specification words it: the pairs of the mapping in
    the order they were inserted, the first pattern that matches wins. *)
Definition resolve_in_insertion_order (beyond : string -> string -> bool)
                                      (path : string)
                                      (mapping : CacheControlMapping)
  : option string :=
  first_match beyond path mapping.

(** The characters of [d], one after the other, then [r] *)
Fixpoint lits (d : list ascii) (r : RegExp.regex) : RegExp.regex :=
  match d with
  | [] => r
  | c :: t => RegExp.Seq (RegExp.Char c) (lits t r)
  end.

(** A directory name that is pattern text for itself: none of its
    characters has a meaning in a pattern. *)
Definition plain_text (s : string) : bool :=
  forallb (fun c => negb (RegExp.syntax_char c)) (list_ascii_of_string s).

(** The keys of the puts among the requests, in the order they were sent *)
Fixpoint put_keys (requests : list Request) : list string :=
  match requests with
  | [] => []
  | (_, PutObjectCommand input) :: more => PutObject.Key input :: put_keys more
  | _ :: more => put_keys more
  end.

(** The keys of the deletes among the requests, in the order they were sent *)
Fixpoint delete_keys (requests : list Request) : list string :=
  match requests with
  | [] => []
  | (_, DeleteObjectCommand _ key) :: more => key :: delete_keys more
  | _ :: more => delete_keys more
  end.

(** Example data: a build directory [/home/user/root] that holds
    [sub/dir/app.js], and a small MIME table. *)
Module Example.

Definition fs : Entry :=
  Directory
    [("home",
      Directory
        [("user",
          Directory
            [("root",
              Directory
                [("sub",
                  Directory
                    [("dir", Directory [("app.js", File "void 0;")])])])])])].

(** The same build directory below [/srv/a+b], a working directory whose
    name has a character with a meaning in a pattern *)
Definition fs_plus : Entry :=
  Directory
    [("srv",
      Directory
        [("a+b",
          Directory
            [("root",
              Directory
                [("sub",
                  Directory
                    [("dir", Directory [("app.js", File "void 0;")])])])])])].

(** A build directory [/srv/site] with three files *)
Definition site : Entry :=
  Directory
    [("srv",
      Directory
        [("site",
          Directory
            [("index.html", File "<!doctype html>");
             ("app.js", File "void 0;");
             ("logo.png", File "PNG")])])].

Definition mime (ext : string) : option string :=
  if String.eqb ext ".js" then Some "application/javascript; charset=utf-8"
  else if String.eqb ext ".html" then Some "text/html; charset=utf-8"
  else if String.eqb ext ".png" then Some "image/png"
  else None.

Definition beyond (path pattern : string) : bool := false.

(** A reconciliation: [app.js] was uploaded; the bucket lists [old.txt] and
    [app.js] on a first page and [assets/gone.css] on a second one. *)
Definition sweep_args : SweepArgs :=
  mkSweepArgs {| region := None; credentials := None |} "bucket"
    ["app.js"] "" 2%Z.

Definition first_page : Listing.page :=
  {| Listing.Contents :=
       Some [ {| Listing.Key := Some "old.txt" |};
              {| Listing.Key := Some "app.js" |} ];
     Listing.NextContinuationToken := Some "next" |}.

Definition last_page : Listing.page :=
  {| Listing.Contents := Some [ {| Listing.Key := Some "assets/gone.css" |} ];
     Listing.NextContinuationToken := None |}.

Definition sweep_events : list SweepEvent :=
  [ PageArrives first_page; DeleteAnswer 0 None;
    PageArrives last_page; DeleteAnswer 0 None ].

Definition options_with (prefix : option string) (concurrency : option Z)
  : Options :=
  {| delete := Some true;
     cacheControlMapping := None;
     awsCredentials := None;
     prefix := prefix;
     concurrency := concurrency |}.

End Example.

(** The number of worker invocations that are outstanding does not exceed
    the limit of the queue. *)
Definition within_limit {T J : Type} (q : Fastq.queue T J) : Prop :=
  (Z.of_nat (List.length (Fastq.running q)) <= Fastq.concurrency q)%Z.

(** *** Notions for the reconciliation *)

Definition page_objects (page : Listing.page) : list Listing._Object :=
  JS.nullish (Listing.Contents page) [].

(** The keys of the objects that carry one *)
Fixpoint listed_keys (objects : list Listing._Object) : list string :=
  match objects with
  | [] => []
  | obj :: more =>
      match Listing.Key obj with
      | Some k => k :: listed_keys more
      | None => listed_keys more
      end
  end.

(** The pages that have arrived, in order, and the objects they list *)
Fixpoint pages_of (evs : list SweepEvent) : list Listing.page :=
  match evs with
  | [] => []
  | PageArrives page :: more => page :: pages_of more
  | _ :: more => pages_of more
  end.

Definition listing (evs : list SweepEvent) : list Listing._Object :=
  flat_map page_objects (pages_of evs).

(** The keys whose deletion has been submitted: those whose delete was
    sent, then those that wait in the queue. *)
Definition submitted (st : Sweep) : list string :=
  (delete_keys (sweep_sent st) ++ Fastq.waiting (dq st))%list.

(** The tokens of the listing requests among the requests *)
Fixpoint listings (requests : list Request) : list (option string) :=
  match requests with
  | [] => []
  | (_, ListObjectsV2Command _ _ token) :: more => token :: listings more
  | _ :: more => listings more
  end.

(** A key that starts with the prefix and was not uploaded *)
Definition stale (uploadedKeys : list string) (prefix : string) (k : string)
  : bool :=
  JS.startsWith k prefix && negb (JS.includes uploadedKeys k).

(** The keys among [objects] whose deletion [removeOldFiles] submits, in
    the order of the listing *)
Fixpoint candidates (uploadedKeys : list string) (prefix : string)
                    (objects : list Listing._Object) : list string :=
  match objects with
  | [] => []
  | obj :: more =>
      if is_old_file uploadedKeys prefix obj
      then match Listing.Key obj with
           | Some key => key :: candidates uploadedKeys prefix more
           | None => candidates uploadedKeys prefix more
           end
      else candidates uploadedKeys prefix more
  end.

(** What holds of the reconciliation between two turns of the event loop.
    A task waits only while every slot is taken. *)
Definition fifo (st : Sweep) : Prop :=
  Fastq.waiting (dq st) = [] \/ Fastq.saturated (dq st) = true.

(** During the wait for the deletions the queue is not idle; outside of it
    nothing runs and nothing waits. *)
Definition quiet (st : Sweep) : Prop :=
  match sweep_control st with
  | AwaitDeletions _ => Fastq.idle (dq st) = false
  | _ => Fastq.running (dq st) = [] /\ Fastq.waiting (dq st) = []
  end.

(** The number that [removeOldFiles] returns is the count of the deletes
    that were acknowledged. *)
Definition counted (st : Sweep) : Prop :=
  match sweep_control st with
  | Swept n => n = deleted st
  | _ => True
  end.

(** Every delete that was sent was answered, by an acknowledgement or by an
    error, or is still running. *)
Definition accounted (st : Sweep) : Prop :=
  List.length (delete_keys (sweep_sent st)) =
  (deleted st + List.length (sweep_unhandled st)
   + List.length (Fastq.running (dq st)))%nat.

Definition sweep_inv (st : Sweep) : Prop :=
  fifo st /\ quiet st /\ accounted st /\ counted st.

(** There is a client to send requests through. *)
Definition has_client (st : Walk) : Prop := _s3client st <> None.

(** The pages of one listing: every page but the last carries a
    continuation token. *)
Fixpoint chained (pages : list Listing.page) : Prop :=
  match pages with
  | [] => False
  | page :: more =>
      match more with
      | [] => JS.truthy (Listing.NextContinuationToken page) = false
      | _ :: _ =>
          JS.truthy (Listing.NextContinuationToken page) = true /\
          chained more
      end
  end.

(** ** Further notions: the walk, the upload phase, the command line *)

(** Nothing at or below [e] makes [buildFileList] throw. *)
Fixpoint readable (e : Entry) : bool :=
  match e with
  | File _ => true
  | Directory entries =>
      (fix all (entries : list (string * Entry)) : bool :=
         match entries with
         | [] => true
         | (_, e') :: more => readable e' && all more
         end) entries
  | Unreadable => false
  | Dangling => false
  | Other => true
  end.

(** The number of regular files at or below [e] *)
Fixpoint count_files (e : Entry) : nat :=
  match e with
  | File _ => 1
  | Directory entries =>
      (fix sum (entries : list (string * Entry)) : nat :=
         match entries with
         | [] => 0
         | (_, e') :: more => count_files e' + sum more
         end) entries
  | _ => 0
  end.

(** [q] is the path of a regular file at or below [entry], which is reached
    at the path [p]: the path of a file below a directory is made with
    [path.join] from the path of the directory and the name of the entry. *)
Inductive file_at : string -> Entry -> string -> Prop :=
| file_here : forall p body, file_at p (File body) p
| file_below : forall p entries name e q,
    In (name, e) entries ->
    file_at (Path.join p name) e q ->
    file_at p (Directory entries) q.

(** The list that the property of [buildFileList] speaks of: the paths of
    the regular files at or below [entry], depth first, the entries of a
    directory in their order.  [visit] is the code; this is what it is
    compared with. *)
Fixpoint files_below (p : string) (entry : Entry) : list string :=
  match entry with
  | File _ => [p]
  | Directory entries =>
      (fix each (entries : list (string * Entry)) : list string :=
         match entries with
         | [] => []
         | (name, e) :: more =>
             (files_below (Path.join p name) e ++ each more)%list
         end) entries
  | _ => []
  end.

(** The files that the loop of [walkDirectory] has not pushed yet *)
Definition remaining (c : Control) : nat :=
  match c with
  | AwaitPush _ todo => List.length todo
  | _ => 0
  end.

(** The invocations whose put may still be sent a second time *)
Fixpoint unretried (jobs : list Job) : nat :=
  match jobs with
  | [] => 0
  | Putting _ _ false :: more => S (unretried more)
  | _ :: more => unretried more
  end.

(** A put into [bucket] whose key starts with [prefix] *)
Definition upload_request (bucket prefix : string) (r : Request) : Prop :=
  match snd r with
  | PutObjectCommand input =>
      PutObject.Bucket input = bucket /\
      JS.startsWith (PutObject.Key input) prefix = true
  | _ => False
  end.

(** A request of the reconciliation: sent through the client given, a
    delete in the bucket given or a listing of it under the prefix given,
    with a continuation token that is absent or not empty. *)
Definition sweep_request (args : SweepArgs) (r : Request) : Prop :=
  fst r = arg_s3client args /\
  match snd r with
  | DeleteObjectCommand b _ => b = arg_bucket args
  | ListObjectsV2Command b p token =>
      b = arg_bucket args /\ p = arg_prefix args /\
      (token = None \/ JS.truthy token = true)
  | PutObjectCommand _ => False
  end.

(** *** [main] of the command line wrapper ([cli.ts]) *)

(** A value of the type [number], which is what the parser delivers for
    the option [concurrency]: an integer, a number that is no integer
    (given by the integer below it), an infinity, or [NaN], which is what
    text that is no number becomes. *)
Inductive Number : Type :=
| Integer (z : Z)
| Fraction (floor : Z)       (* a number between [floor] and [floor + 1] *)
| Infinity (negative : bool)
| NaN.

(** [n < 1]: every comparison with [NaN] is false. *)
Definition below_one (n : Number) : bool :=
  match n with
  | Integer z => (z <? 1)%Z
  | Fraction floor => (floor <? 1)%Z
  | Infinity negative => negative
  | NaN => false
  end.

(** The arguments as the parser delivers them, before its defaults. *)
Record Argv : Type := mkArgv {
  directory : string;
  bucketname : string;
  argv_delete : option bool;
  cache_control_mapping : option string;   (* the path of a JSON file *)
  argv_prefix : option string;
  argv_concurrency : option Number
}.

Inductive MainOutcome : Type :=
| ArgumentsRefused                    (* the check of the parser throws *)
| ReadFailed (e : Error)              (* the mapping file cannot be read *)
| ParseFailed                         (* the mapping file is not JSON *)
| Started (run : Run) (st : Walk)     (* [s3SpaUpload] is under way *)
| StartedOutside (concurrency : Number).
    (* [s3SpaUpload] is called with a concurrency that is no integer, which
       the model of the core, with its integer concurrency, has no run for *)

Section Main.

Variable contentType : string -> option string.
Variable minimatch_beyond : string -> string -> bool.

(** [JSON.parse] on the text of a mapping file; [None] when it throws. *)
Variable JSON_parse : string -> option CacheControlMapping.

(** [main()] in a process with working directory [cwd], up to the first
    suspension of [s3SpaUpload].  The parser supplies 100 for a concurrency
    that is not given, and its check throws when [args.c < 1]. *)
Definition main (fs : Entry) (cwd : string) (argv : Argv) : MainOutcome :=
  let given := JS.nullish (argv_concurrency argv) (Integer 100%Z) in
  if below_one given then ArgumentsRefused
  else
    let start (cacheControlMapping : option CacheControlMapping) :=
      match given with
      | Integer z =>
          let rs :=
            s3SpaUpload contentType minimatch_beyond fs cwd (directory argv)
              (bucketname argv)
              {| delete := argv_delete argv;
                 cacheControlMapping := cacheControlMapping;
                 awsCredentials := None;
                 prefix := argv_prefix argv;
                 concurrency := Some z |} in
          Started (fst rs) (snd rs)
      | _ => StartedOutside given
      end in
    match cache_control_mapping argv with
    | Some path =>
        if JS.truthy (Some path) then
          match readFileSync fs (Path.resolve cwd path) with
          | inl err => ReadFailed err
          | inr text =>
              match JSON_parse text with
              | Some mapping => start (Some mapping)
              | None => ParseFailed
              end
          end
        else start None
    | None => start None
    end.

End Main.

(** *** The earlier revision of [removeOldFiles]

    The revision with one client for the whole module lists the bucket
    page by page, collects the keys, and filters them twice. *)
Definition filesToDelete (existingFiles uploaded : list string)
                         (prefix : string) : list string :=
  filter (fun key => negb (JS.includes uploaded key))
         (filter (fun key => JS.startsWith key prefix) existingFiles).

(** *** What holds of the upload phase between two turns *)

(** Every request is a put into the bucket under the prefix; the put of an
    invocation that is outstanding was sent, and so was the put of every
    key that is recorded; and there are at most two puts for every task
    that was started. *)
Definition upload_sound (run : Run) (st : Walk) : Prop :=
  Forall (upload_request (bucket run) (JS.nullish (prefix (options run)) ""))
         (sent st) /\
  (forall id input retried,
     In (Putting id input retried) (Fastq.running (q st)) ->
     exists client, In (client, PutObjectCommand input) (sent st)) /\
  (forall k, In k (uploadedS3Keys st) -> In k (put_keys (sent st))) /\
  (List.length (sent st) + unretried (Fastq.running (q st))
   + 2 * List.length (Fastq.waiting (q st)) <= 2 * pushed st)%nat.

(** The tasks that were pushed and have not been lost: recorded as
    uploaded, outstanding, waiting, or failed without a handler. *)
Definition upload_count (st : Walk) : nat :=
  (List.length (uploadedS3Keys st) + List.length (Fastq.running (q st))
   + List.length (Fastq.waiting (q st)) + List.length (unhandled st))%nat.

(** Has [walkDirectory] been rejected, or left the model? *)
Definition given_up (c : Control) : bool :=
  match c with
  | Rejected _ | Unmodelled => true
  | _ => false
  end.

(** The pace of the loop of [walkDirectory] over [total] files: at most one
    task waits, and none unless the loop is suspended on it; no file is
    pushed twice; and as long as the walk has not given up, every file is
    pushed or still to be pushed, and every task pushed is accounted for. *)
Definition paced (total : nat) (st : Walk) : Prop :=
  (List.length (Fastq.waiting (q st)) <= 1)%nat /\
  (match control st with
   | AwaitPush _ _ | Unmodelled => True
   | _ => Fastq.waiting (q st) = []
   end) /\
  (control st = Returned -> Fastq.running (q st) = []) /\
  (pushed st + remaining (control st) <= total)%nat /\
  (given_up (control st) = false ->
   upload_count st = pushed st /\
   (pushed st + remaining (control st))%nat = total).

(** The put of the file at [filePath]: into the bucket of the run, at the
    prefix followed by the path relative to the directory, with the content
    of the file, the cache-control value of its path and the content type
    of its extension. *)
Definition put_of_file (contentType : string -> option string)
                       (beyond : string -> string -> bool) (run : Run)
                       (filePath : string) (input : PutObject.params) : Prop :=
  exists key body,
    relative_key (dir run) filePath = Some key /\
    readFileSync (root run) filePath = inr body /\
    input =
      {| PutObject.Bucket := bucket run;
         PutObject.Key := JS.nullish (prefix (options run)) "" ++ key;
         PutObject.Body := body;
         PutObject.CacheControl :=
           getCacheControl beyond filePath
             (effective_mapping (cacheControlMapping (options run)));
         PutObject.ContentType := contentType (Path.extname filePath) |}.

(** Every request is the put of one of [files], and so will be the put of
    every task that waits. *)
Definition listed (contentType : string -> option string)
                  (beyond : string -> string -> bool) (run : Run)
                  (files : list string) (st : Walk) : Prop :=
  (forall client cmd,
     In (client, cmd) (sent st) ->
     exists filePath input,
       In filePath files /\ cmd = PutObjectCommand input /\
       put_of_file contentType beyond run filePath input) /\
  (forall id filePath,
     In (id, filePath) (Fastq.waiting (q st)) -> In filePath files).

(** [listed], and the files that the loop has still to push are among
    [files]. *)
Definition from_files (contentType : string -> option string)
                      (beyond : string -> string -> bool) (run : Run)
                      (files : list string) (st : Walk) : Prop :=
  listed contentType beyond run files st /\
  (forall id todo, control st = AwaitPush id todo -> incl todo files).

(** The task of a worker invocation *)
Definition job_id (j : Job) : nat :=
  match j with
  | Failing id _ | Putting id _ _ => id
  end.



(** The client of the module and the client of every request carry the
    credentials [creds]. *)
Definition credentialed (creds : option AwsCredentials) (st : Walk) : Prop :=
  (forall client, _s3client st = Some client -> credentials client = creds) /\
  Forall (fun r : Request => credentials (fst r) = creds) (sent st).

(** The files that the loop of [walkDirectory] has still to push *)
Definition todo_of (c : Control) : list string :=
  match c with
  | AwaitPush _ todo => todo
  | _ => []
  end.

(** The key that a worker invocation is writing; none when it has failed
    before its put. *)
Definition job_key (j : Job) : option string :=
  match j with
  | Putting _ input _ => Some (PutObject.Key input)
  | Failing _ _ => None
  end.

(** The key under which the file at [filePath] is uploaded: the prefix
    followed by the path with the pattern of the directory removed; none
    when the file cannot be read. *)
Definition key_of_file (fs : Entry) (dir prefix filePath : string)
  : option string :=
  match relative_key dir filePath, readFileSync fs filePath with
  | Some key, inr _ => Some (prefix ++ key)
  | _, _ => None
  end.

(** As long as the walk has not given up and no failure has gone without a
    handler, the files split into those whose upload was started, the one
    that waits, and those that the loop has still to push, in this order;
    and the keys of the files that were started are, one for one, the keys
    that are recorded and the keys that are being written. *)
Definition tracked (run : Run) (files : list string) (st : Walk) : Prop :=
  given_up (control st) = false ->
  unhandled st = [] ->
  exists started,
    files = (started ++ map snd (Fastq.waiting (q st))
             ++ todo_of (control st))%list /\
    Permutation
      (map (key_of_file (root run) (dir run)
              (JS.nullish (prefix (options run)) "")) started)
      (map Some (uploadedS3Keys st) ++ map job_key (Fastq.running (q st))).

(** *** What holds of the reconciliation between two turns *)

(** The requests are those of [args], and the deletes that are outstanding
    respect the limit of the queue. *)
Definition sweep_shape (args : SweepArgs) (st : Sweep) : Prop :=
  Forall (sweep_request args) (sweep_sent st) /\ within_limit (dq st).

(** * Properties *)

(** ** Prefix normalization *)

Lemma endsWith_refl : forall s, JS.endsWith s s = true.
Proof.
  destruct s as [|c t]; simpl.
  - reflexivity.
  - rewrite Ascii.eqb_refl, String.eqb_refl. reflexivity.
Qed.

Lemma endsWith_append : forall p s, JS.endsWith (p ++ s) s = true.
Proof.
  induction p as [|c t IH]; intro s.
  - apply endsWith_refl.
  - change (String c t ++ s) with (String c (t ++ s)).
    simpl. rewrite IH. apply orb_true_r.
Qed.

Lemma endsWith_cons_false : forall c t s,
  JS.endsWith (String c t) s = false ->
  String.eqb (String c t) s = false /\ JS.endsWith t s = false.
Proof.
  intros c t s H. simpl in H. apply orb_false_elim in H. exact H.
Qed.

Lemma append_separator_not_doubled : forall p,
  JS.endsWith p "/" = false -> JS.endsWith (p ++ "/") "//" = false.
Proof.
  induction p as [|c t IH]; intro H.
  - reflexivity.
  - apply endsWith_cons_false in H. destruct H as [Hne Ht].
    change (String c t ++ "/") with (String c (t ++ "/")).
    cbn [JS.endsWith]. rewrite (IH Ht), orb_false_r.
    destruct t as [|d u].
    + simpl in Hne |- *. destruct (Ascii.eqb c "/"); [discriminate | reflexivity].
    + change (String d u ++ "/") with (String d (u ++ "/")).
      cbn [String.eqb].
      destruct (Ascii.eqb c "/"); [|reflexivity].
      destruct (Ascii.eqb d "/"); [|reflexivity].
      destruct u; reflexivity.
Qed.

(** C3, as stated, fails: a prefix that already ends in two separators is
    kept as it is, so the normalized prefix does not always end in exactly
    one separator. *)
Lemma normalized_prefix_keeps_doubled_separator :
  ~ (forall p : string, p <> "" ->
       ends_in_one_separator (normalized_prefix (Some p)) = true).
Proof.
  intro H.
  assert (Hp : "a//" <> "") by discriminate.
  specialize (H "a//" Hp).
  vm_compute in H. discriminate H.
Qed.

(** C3, amended: an absent or empty prefix becomes the empty string; a
    non-empty prefix becomes a string that ends in the separator: the prefix
    itself when it already ends in one, and otherwise the prefix with a
    single separator appended, which then ends in exactly one. *)
Theorem normalized_prefix_spec : forall p : option string,
  (JS.truthy p = false -> normalized_prefix p = "") /\
  (forall s : string, p = Some s -> s <> "" ->
     JS.endsWith (normalized_prefix p) "/" = true /\
     (JS.endsWith s "/" = true -> normalized_prefix p = s) /\
     (JS.endsWith s "/" = false ->
        normalized_prefix p = s ++ "/" /\
        ends_in_one_separator (normalized_prefix p) = true)).
Proof.
  intro p. split.
  - destruct p as [s|]; [|reflexivity].
    unfold normalized_prefix. intros ->. reflexivity.
  - intros s -> Hs.
    assert (Ht : JS.truthy (Some s) = true).
    { simpl. destruct (String.eqb_spec s ""); [contradiction | reflexivity]. }
    unfold normalized_prefix. rewrite Ht. cbn [negb].
    destruct (JS.endsWith s "/") eqn:E.
    + split; [exact E|]. split; [reflexivity | discriminate].
    + split; [apply endsWith_append|]. split; [discriminate|].
      intros _. split; [reflexivity|].
      unfold ends_in_one_separator.
      rewrite endsWith_append, (append_separator_not_doubled s E).
      reflexivity.
Qed.

Lemma normalized_prefix_spec_witness :
  normalized_prefix (Some "mobile") = "mobile/" /\
  ends_in_one_separator (normalized_prefix (Some "mobile")) = true.
Proof.
  destruct (normalized_prefix_spec (Some "mobile")) as [_ H].
  assert (Hne : "mobile" <> "") by discriminate.
  destruct (H "mobile" eq_refl Hne) as [_ [_ H3]].
  apply H3. reflexivity.
Defined.

(** ** The default cache-control mapping *)

Lemma effective_mapping_default :
  effective_mapping None = DEFAULT_CACHE_CONTROL_MAPPING.
Proof. reflexivity. Qed.

(** C6: the default mapping, which [uploadToS3] uses when the caller
    supplies none, assigns in this order: [index.html] one minute of
    freshness with 30 days of stale-while-revalidate; [*.css] and [*.js] one
    year, immutable; [*.png], [*.ico] and [*.txt] one day with 30 days of
    stale-while-revalidate. *)
Theorem default_cache_control_mapping :
  effective_mapping None = DEFAULT_CACHE_CONTROL_MAPPING /\
  (forall contentType beyond fs bucket key filePath prefix,
     put_params contentType beyond fs bucket key filePath prefix None =
     put_params contentType beyond fs bucket key filePath prefix
       (Some DEFAULT_CACHE_CONTROL_MAPPING)) /\
  map (fun e => (fst e, CacheControl.summary (snd e)))
      (JS.Object_entries DEFAULT_CACHE_CONTROL_MAPPING) =
  [ ("index.html",
     (true, Some CacheControl.minute, Some (30 * CacheControl.day)%N, false));
    ("*.css", (true, Some CacheControl.year, None, true));
    ("*.js", (true, Some CacheControl.year, None, true));
    ("*.png",
     (true, Some CacheControl.day, Some (30 * CacheControl.day)%N, false));
    ("*.ico",
     (true, Some CacheControl.day, Some (30 * CacheControl.day)%N, false));
    ("*.txt",
     (true, Some CacheControl.day, Some (30 * CacheControl.day)%N, false)) ].
Proof.
  split; [reflexivity|]. split; [reflexivity|].
  vm_compute. reflexivity.
Qed.

(** ** Cache-control resolution *)

Section Resolution.

Variable beyond : string -> string -> bool.

Lemma first_match_some : forall path entries v,
  first_match beyond path entries = Some v <->
  exists before g after,
    entries = (before ++ (g, v) :: after)%list /\
    minimatch beyond path g = true /\
    forall e, In e before -> minimatch beyond path (fst e) = false.
Proof.
  intros path entries v. induction entries as [|[g0 v0] more IH]; simpl.
  - split; [discriminate|].
    intros (before & g & after & E & _). destruct before; discriminate E.
  - destruct (minimatch beyond path g0) eqn:M.
    + split.
      * intro H. injection H as <-.
        exists [], g0, more. split; [reflexivity|]. split; [exact M|].
        intros e [].
      * intros (before & g & after & E & Hg & Hb).
        destruct before as [|b before'].
        -- simpl in E. injection E as _ ->. reflexivity.
        -- simpl in E. injection E as <- _.
           specialize (Hb (g0, v0) (or_introl eq_refl)). simpl in Hb.
           congruence.
    + rewrite IH. split.
      * intros (before & g & after & E & Hg & Hb).
        exists ((g0, v0) :: before), g, after. split; [simpl; congruence|].
        split; [exact Hg|].
        intros e [<-|Hin]; [exact M | apply Hb; exact Hin].
      * intros (before & g & after & E & Hg & Hb).
        destruct before as [|b before'].
        -- simpl in E. injection E as <- _. congruence.
        -- simpl in E. injection E as <- E.
           exists before', g, after. split; [exact E|]. split; [exact Hg|].
           intros e Hin. apply Hb. right. exact Hin.
Qed.

Lemma first_match_none : forall path entries,
  first_match beyond path entries = None <->
  forall e, In e entries -> minimatch beyond path (fst e) = false.
Proof.
  intros path entries. induction entries as [|[g0 v0] more IH]; simpl.
  - split; [intros _ e [] | reflexivity].
  - destruct (minimatch beyond path g0) eqn:M.
    + split; [discriminate|].
      intro H. specialize (H (g0, v0) (or_introl eq_refl)). simpl in H.
      congruence.
    + rewrite IH. split.
      * intros H e [<-|Hin]; [exact M | apply H; exact Hin].
      * intros H e Hin. apply H. right. exact Hin.
Qed.

End Resolution.

(** An object without array-index names is enumerated in insertion order. *)
Lemma Object_entries_insertion_order : forall m : JS.object,
  (forall g, In g (map fst m) -> JS.array_index g = None) ->
  JS.Object_entries m = m.
Proof.
  intros m H. unfold JS.Object_entries.
  assert (E : JS.index_entries m = [] /\ JS.named_entries m = m).
  { induction m as [|[k v] more IH]; [split; reflexivity|].
    cbn [JS.index_entries JS.named_entries].
    rewrite (H k (or_introl eq_refl)).
    destruct IH as [E1 E2].
    - intros g Hg. apply H. right. exact Hg.
    - split; [exact E1 | rewrite E2; reflexivity]. }
  destruct E as [-> ->]. reflexivity.
Qed.

(** *** Patterns without a separator look at the last segment only *)

Lemma split_at_no_separator : forall sep s,
  existsb (Ascii.eqb sep) s = false -> Path.split_at sep s = [s].
Proof.
  intros sep s. induction s as [|c t IH]; intro H; [reflexivity|].
  simpl in H. apply orb_false_elim in H. destruct H as [Hc Ht].
  simpl. rewrite Ascii.eqb_sym, Hc, (IH Ht). reflexivity.
Qed.

Lemma split_at_segments : forall sep s seg,
  In seg (Path.split_at sep s) -> existsb (Ascii.eqb sep) seg = false.
Proof.
  intros sep s. induction s as [|c t IH]; intros seg Hin.
  - simpl in Hin. destruct Hin as [<-|[]]. reflexivity.
  - simpl in Hin. destruct (Ascii.eqb c sep) eqn:E.
    + destruct Hin as [<-|Hin]; [reflexivity | apply IH; exact Hin].
    + destruct (Path.split_at sep t) as [|seg0 more].
      * destruct Hin as [<-|[]]. simpl. rewrite Ascii.eqb_sym, E. reflexivity.
      * destruct Hin as [<-|Hin].
        -- simpl. rewrite Ascii.eqb_sym, E. apply IH. left. reflexivity.
        -- apply IH. right. exact Hin.
Qed.

Lemma drop_inner_empty_incl : forall segs seg,
  In seg (Minimatch.drop_inner_empty segs) -> In seg segs.
Proof.
  induction segs as [|s more IH]; intros seg Hin; [exact Hin|].
  destruct more as [|s' more'].
  - destruct s; exact Hin.
  - destruct s as [|c t].
    + right. apply IH. exact Hin.
    + change (In seg ((c :: t) :: Minimatch.drop_inner_empty (s' :: more')))
        in Hin.
      destruct Hin as [<-|Hin]; [left; reflexivity | right; apply IH; exact Hin].
Qed.

Lemma split_slashes_segments : forall s seg,
  In seg (Minimatch.split_slashes s) -> existsb (Ascii.eqb "/") seg = false.
Proof.
  intros s seg Hin. apply (split_at_segments "/" s).
  unfold Minimatch.split_slashes in Hin.
  destruct (Path.split_at "/" s) as [|first more]; [exact Hin|].
  destruct Hin as [<-|Hin]; [left; reflexivity|].
  right. apply drop_inner_empty_incl. exact Hin.
Qed.

Lemma filename_in : forall file,
  Minimatch.filename file = [] \/ In (Minimatch.filename file) file.
Proof.
  induction file as [|f more IH]; [left; reflexivity|].
  simpl. destruct (Minimatch.filename more) as [|c t] eqn:E.
  - destruct f; [left; reflexivity | right; left; reflexivity].
  - right. right. destruct IH as [IH|IH]; [discriminate IH | exact IH].
Qed.

Lemma filename_no_separator : forall s,
  existsb (Ascii.eqb "/")
    (Minimatch.filename (Minimatch.split_slashes s)) = false.
Proof.
  intro s. destruct (filename_in (Minimatch.split_slashes s)) as [->|Hin].
  - reflexivity.
  - apply (split_slashes_segments s). exact Hin.
Qed.

Lemma parse_negate_no_separator : forall p negate,
  existsb (Ascii.eqb "/") p = false ->
  existsb (Ascii.eqb "/") (snd (Minimatch.parse_negate negate p)) = false.
Proof.
  induction p as [|c t IH]; intros negate H; [reflexivity|].
  simpl. destruct (Ascii.eqb c "!").
  - apply IH. simpl in H. apply orb_false_elim in H. apply H.
  - exact H.
Qed.

Lemma split_slashes_no_separator : forall s,
  existsb (Ascii.eqb "/") s = false -> Minimatch.split_slashes s = [s].
Proof.
  intros s H. unfold Minimatch.split_slashes.
  rewrite (split_at_no_separator "/" s H). reflexivity.
Qed.

Lemma matchBase_basename : forall path pattern,
  no_separator pattern = true ->
  blank pattern = false ->
  Minimatch.minimatch_matchBase path pattern =
  Minimatch.minimatch_matchBase (basename path) pattern.
Proof.
  intros path pattern Hsep Hblank.
  unfold no_separator in Hsep. apply negb_true_iff in Hsep.
  unfold blank in Hblank.
  unfold Minimatch.minimatch_matchBase.
  destruct (Minimatch.starts_with_hash (list_ascii_of_string pattern));
    [reflexivity|].
  rewrite Hblank.
  pose proof (parse_negate_no_separator _ false Hsep) as Hp.
  destruct (Minimatch.parse_negate false (list_ascii_of_string pattern))
    as [negate p'].
  simpl in Hp. rewrite (split_slashes_no_separator p' Hp).
  cbn [map]. unfold basename.
  rewrite list_ascii_of_string_of_list_ascii.
  rewrite (split_slashes_no_separator _
             (filename_no_separator (list_ascii_of_string path))).
  cbn [Minimatch.filename].
  destruct (Minimatch.filename
              (Minimatch.split_slashes (list_ascii_of_string path)));
    reflexivity.
Qed.

(** C5, as stated, fails: a pattern that is an array index is tried before
    the patterns inserted ahead of it. *)
Lemma getCacheControl_not_insertion_order :
  ~ (forall beyond path (mapping : CacheControlMapping),
       NoDup (map fst mapping) ->
       getCacheControl beyond path mapping =
       resolve_in_insertion_order beyond path mapping).
Proof.
  intro H.
  assert (Hd : NoDup (map fst [("*", "A"); ("1", "B")])).
  { simpl. constructor.
    - intros [E|[]]. discriminate E.
    - constructor; [intros [] | constructor]. }
  specialize (H (fun _ _ => false) "1" [("*", "A"); ("1", "B")] Hd).
  vm_compute in H. discriminate H.
Qed.

(** C5, amended: resolution tries the patterns in the order of
    [Object.entries], which is insertion order for a mapping none of whose
    patterns is an array index; it returns the value of the first pattern
    that matches the path and nothing when none matches; a modelled pattern
    without a separator that is not blank matches a path as it matches its
    last segment; and with [index.html] inserted before [*.html], resolving
    [index.html] gives the value of the former. *)
Theorem getCacheControl_first_match :
  forall beyond path (mapping : CacheControlMapping),
    ((forall g, In g (map fst mapping) -> JS.array_index g = None) ->
     getCacheControl beyond path mapping =
     resolve_in_insertion_order beyond path mapping) /\
    (forall v,
       getCacheControl beyond path mapping = Some v <->
       exists before g after,
         JS.Object_entries mapping = (before ++ (g, v) :: after)%list /\
         minimatch beyond path g = true /\
         forall e, In e before -> minimatch beyond path (fst e) = false) /\
    (getCacheControl beyond path mapping = None <->
     forall e, In e (JS.Object_entries mapping) ->
               minimatch beyond path (fst e) = false) /\
    (forall g, Minimatch.in_fragment g = true ->
               no_separator g = true -> blank g = false ->
               minimatch beyond path g = minimatch beyond (basename path) g) /\
    (forall A B,
       getCacheControl beyond "index.html"
         [("index.html", A); ("*.html", B)] = Some A /\
       minimatch beyond "index.html" "*.html" = true).
Proof.
  intros beyond path mapping. repeat split.
  - intro H. unfold getCacheControl, resolve_in_insertion_order.
    rewrite (Object_entries_insertion_order mapping H). reflexivity.
  - apply first_match_some.
  - apply first_match_some.
  - apply first_match_none.
  - apply first_match_none.
  - intros g Hf Hsep Hblank. unfold minimatch. rewrite Hf.
    apply matchBase_basename; assumption.
Qed.

Lemma getCacheControl_first_match_witness :
  getCacheControl (fun _ _ => false) "/srv/app/index.html"
    DEFAULT_CACHE_CONTROL_MAPPING =
  resolve_in_insertion_order (fun _ _ => false) "/srv/app/index.html"
    DEFAULT_CACHE_CONTROL_MAPPING /\
  minimatch (fun _ _ => false) "/srv/app/index.html" "index.html" =
  minimatch (fun _ _ => false) (basename "/srv/app/index.html") "index.html".
Proof.
  destruct (getCacheControl_first_match (fun _ _ => false)
              "/srv/app/index.html" DEFAULT_CACHE_CONTROL_MAPPING)
    as [H1 [_ [_ [H4 _]]]].
  split.
  - apply H1. intros g Hg. simpl in Hg.
    repeat (destruct Hg as [<-|Hg]; [reflexivity|]). destruct Hg.
  - apply H4; reflexivity.
Defined.

(** ** Key derivation *)

Lemma list_ascii_of_string_append : forall a b,
  list_ascii_of_string (a ++ b) =
  (list_ascii_of_string a ++ list_ascii_of_string b)%list.
Proof.
  induction a as [|c t IH]; intro b; [reflexivity|].
  simpl. rewrite IH. reflexivity.
Qed.

Lemma plain_char : forall c,
  RegExp.syntax_char c = false ->
  Ascii.eqb c "\" = false /\ Ascii.eqb c "." = false /\
  Ascii.eqb c "^" = false /\ Ascii.eqb c "$" = false /\
  RegExp.quantifier c = false.
Proof.
  intros c H. unfold RegExp.syntax_char in H. simpl in H.
  repeat (apply orb_false_elim in H;
          let E := fresh "E" in destruct H as [E H]).
  unfold RegExp.quantifier. simpl.
  rewrite E6, E7, E8, E9, E10, E11, E12. repeat split; reflexivity.
Qed.

Lemma parse_plain : forall d fuel,
  forallb (fun c => negb (RegExp.syntax_char c)) d = true ->
  (length d < fuel)%nat ->
  RegExp.parse fuel (d ++ ["/"; "?"]%char) =
  Some (lits d (RegExp.Seq (RegExp.Opt (RegExp.Char "/")) RegExp.Empty)).
Proof.
  induction d as [|c t IH]; intros fuel Hd Hf.
  - destruct fuel as [|fuel]; [inversion Hf|]. reflexivity.
  - destruct fuel as [|fuel]; [inversion Hf|].
    simpl in Hd. apply andb_true_iff in Hd. destruct Hd as [Hc Ht].
    apply negb_true_iff in Hc.
    destruct (plain_char c Hc) as (E1 & E2 & E3 & E4 & _).
    assert (Hnext : exists q more, (t ++ ["/"; "?"]%char)%list = q :: more /\
                                   RegExp.quantifier q = false).
    { destruct t as [|q t'].
      - exists "/"%char, ["?"%char]. split; reflexivity.
      - exists q, (t' ++ ["/"; "?"]%char)%list. split; [reflexivity|].
        simpl in Ht. apply andb_true_iff in Ht. destruct Ht as [Hq _].
        apply negb_true_iff in Hq. apply (plain_char q Hq). }
    destruct Hnext as (q & more & Eq & Hq).
    change ((c :: t) ++ ["/"; "?"]%char)%list
      with (c :: (t ++ ["/"; "?"]%char))%list.
    cbn [RegExp.parse]. rewrite E1, E2, E3, E4, Hc.
    rewrite Eq at 1. rewrite Hq.
    rewrite (IH fuel Ht); [reflexivity|]. simpl in Hf. lia.
Qed.

Lemma parse_bol : forall fuel q more,
  RegExp.quantifier q = false ->
  RegExp.parse (S fuel) ("^"%char :: q :: more) =
  option_map (RegExp.Seq RegExp.Bol) (RegExp.parse fuel (q :: more)).
Proof.
  intros fuel q more H. simpl. rewrite H. reflexivity.
Qed.

Lemma RegExp_of_plain_directory : forall dir,
  plain_text dir = true ->
  RegExp.RegExp ("^" ++ dir ++ "/?") =
  Some (RegExp.Seq RegExp.Bol
          (lits (list_ascii_of_string dir)
             (RegExp.Seq (RegExp.Opt (RegExp.Char "/")) RegExp.Empty))).
Proof.
  intros dir H. unfold RegExp.RegExp.
  change ("^" ++ dir ++ "/?") with (String "^" (dir ++ "/?")).
  cbn [list_ascii_of_string length].
  rewrite list_ascii_of_string_append.
  change (list_ascii_of_string "/?") with ["/"; "?"]%char.
  set (d := list_ascii_of_string dir) in *.
  assert (Hnext : exists q more, (d ++ ["/"; "?"]%char)%list = q :: more /\
                                 RegExp.quantifier q = false).
  { unfold plain_text in H. fold d in H. destruct d as [|q t'].
    - exists "/"%char, ["?"%char]. split; reflexivity.
    - exists q, (t' ++ ["/"; "?"]%char)%list. split; [reflexivity|].
      simpl in H. apply andb_true_iff in H. destruct H as [Hq _].
      apply negb_true_iff in Hq. apply (plain_char q Hq). }
  destruct Hnext as (q & more & Eq & Hq).
  rewrite Eq, (parse_bol _ q more Hq), <- Eq.
  rewrite parse_plain; [reflexivity | exact H |].
  rewrite length_app. simpl. lia.
Qed.

Lemma matcher_lits : forall d r k x tail,
  RegExp.rest x = (d ++ tail)%list ->
  RegExp.matcher (lits d r) k x =
  RegExp.matcher r k
    (RegExp.mkMatchState (rev d ++ RegExp.before x)%list tail
       (RegExp.captures x)).
Proof.
  induction d as [|c t IH]; intros r k x tail Hx.
  - destruct x as [b s caps]. simpl in Hx. subst s. reflexivity.
  - cbn [lits RegExp.matcher]. unfold RegExp.char_matcher at 1.
    rewrite Hx. cbn [app]. rewrite Ascii.eqb_refl.
    rewrite (IH r k (RegExp.advance x c (t ++ tail)%list) tail eq_refl).
    cbn [RegExp.advance RegExp.before RegExp.captures rev].
    rewrite <- app_assoc. reflexivity.
Qed.

Lemma exec_from_match : forall r pre s y,
  RegExp.matcher r (fun y => Some y) (RegExp.mkMatchState pre s []) = Some y ->
  RegExp.exec_from r pre s =
  Some (RegExp.mkMatchResult (rev pre)
          (firstn (length s - length (RegExp.rest y)) s)
          (RegExp.rest y) (RegExp.captures y)).
Proof.
  intros r pre s y H. destruct s; simpl; simpl in H; rewrite H; reflexivity.
Qed.

(** A path below a directory with a plain name loses the name of the
    directory and the separator after it. *)
Lemma relative_key_plain : forall dir rel,
  plain_text dir = true ->
  relative_key dir (dir ++ "/" ++ rel) = Some rel.
Proof.
  intros dir rel H. unfold relative_key.
  rewrite (RegExp_of_plain_directory dir H). cbn [option_map]. f_equal.
  unfold RegExp.replace_empty, RegExp.exec.
  rewrite list_ascii_of_string_append.
  change (list_ascii_of_string ("/" ++ rel))
    with ("/"%char :: list_ascii_of_string rel).
  set (d := list_ascii_of_string dir).
  set (r := list_ascii_of_string rel).
  rewrite (exec_from_match _ _ _
             (RegExp.mkMatchState ("/"%char :: rev d ++ [])%list r [])).
  - cbn [RegExp.index RegExp.following RegExp.rest rev app].
    unfold r.
    apply string_of_list_ascii_of_string.
  - cbn [RegExp.matcher RegExp.before].
    rewrite (matcher_lits d _ _
               (RegExp.mkMatchState [] (d ++ "/"%char :: r)%list [])
               ("/"%char :: r) eq_refl).
    cbn [RegExp.matcher RegExp.char_matcher RegExp.rest RegExp.advance
         RegExp.captures RegExp.before].
    rewrite Ascii.eqb_refl. reflexivity.
Qed.

(** In a directory whose path is plain pattern text the key of the put is
    the normalized prefix followed by the path of the file relative to the
    directory, with the separators of the path and without a leading one;
    for [root/sub/dir/app.js] under [root] in [/home/user] and the prefix
    [mobile], the one put that is sent, and the one key that is recorded
    once it is acknowledged, is [mobile/sub/dir/app.js]. *)
Lemma key_derivation_plain :
  forall contentType beyond bucket,
    (forall fs dir rel p mapping key input,
       plain_text dir = true ->
       relative_key dir (dir ++ "/" ++ rel) = Some key ->
       put_params contentType beyond fs bucket key (dir ++ "/" ++ rel)
         (normalized_prefix p) mapping = inr input ->
       PutObject.Key input = normalized_prefix p ++ rel) /\
    (let rs := s3SpaUpload contentType beyond Example.fs "/home/user" "root"
                 bucket (Example.options_with (Some "mobile") None) in
     dir (fst rs) = "/home/user/root" /\
     buildFileList (root (fst rs)) (dir (fst rs)) =
       inr ["/home/user/root/sub/dir/app.js"] /\
     put_keys (sent (snd rs)) = ["mobile/sub/dir/app.js"] /\
     option_map (fun st => (uploadedS3Keys st, control st))
       (steps contentType beyond (fst rs) (snd rs) [Answer 0 None]) =
     Some (["mobile/sub/dir/app.js"], Returned)).
Proof.
  intros contentType beyond bucket. split.
  - intros fs dir rel p mapping key input Hplain Hkey Hput.
    rewrite (relative_key_plain dir rel Hplain) in Hkey.
    injection Hkey as <-.
    unfold put_params in Hput.
    destruct (readFileSync fs (dir ++ "/" ++ rel)); [discriminate Hput|].
    injection Hput as <-. reflexivity.
  - vm_compute. repeat split.
Qed.

(** C4 in a working directory whose name has a character with a meaning in
    a pattern.  [s3SpaUpload] makes the pattern from the resolved directory
    as it is; in [/srv/a+b] the [+] is read as a repetition, the pattern
    does not match the path of the file, nothing is removed from it, and
    the key of [root/sub/dir/app.js] under [root] with the prefix [mobile]
    is the prefix followed by the whole absolute path, not
    [mobile/sub/dir/app.js]. *)
Theorem key_derivation_in_pattern_directory :
  forall contentType beyond bucket,
    let rs := s3SpaUpload contentType beyond Example.fs_plus "/srv/a+b" "root"
                bucket (Example.options_with (Some "mobile") None) in
    dir (fst rs) = "/srv/a+b/root" /\
    buildFileList (root (fst rs)) (dir (fst rs)) =
      inr ["/srv/a+b/root/sub/dir/app.js"] /\
    relative_key (dir (fst rs)) "/srv/a+b/root/sub/dir/app.js" =
      Some "/srv/a+b/root/sub/dir/app.js" /\
    put_keys (sent (snd rs)) = ["mobile//srv/a+b/root/sub/dir/app.js"] /\
    put_keys (sent (snd rs)) <> ["mobile/sub/dir/app.js"] /\
    option_map (fun st => (uploadedS3Keys st, control st))
      (steps contentType beyond (fst rs) (snd rs) [Answer 0 None]) =
    Some (["mobile//srv/a+b/root/sub/dir/app.js"], Returned).
Proof.
  intros contentType beyond bucket. vm_compute.
  repeat split. discriminate.
Qed.

(** ** Region-redirect recovery *)

(** The three ways in which an answer is handled: the put is sent again
    only for the first put, after a permanent redirect that names an
    endpoint for which a client can be made; the key is returned for an
    acknowledgement only; every error ends the invocation. *)
Lemma uploadToS3_answer_cases : forall awsCredentials input retried response,
  match uploadToS3_answer awsCredentials input retried response with
  | Retry client =>
      retried = false /\
      exists err endpoint,
        response = Some err /\ is_permanent_redirect err = true /\
        Endpoint err = Some endpoint /\
        redirected_client endpoint awsCredentials = inr client
  | Finish (inr key) => response = None /\ key = PutObject.Key input
  | Finish (inl _) => response <> None
  end.
Proof.
  intros awsCredentials input retried response. unfold uploadToS3_answer.
  destruct response as [err|]; [|split; reflexivity].
  destruct retried; cbn [negb andb]; [discriminate|].
  destruct (is_permanent_redirect err) eqn:Hr; [|discriminate].
  destruct (Endpoint err) as [endpoint|] eqn:He; [|discriminate].
  destruct (redirected_client endpoint awsCredentials) as [e|client] eqn:Hc;
    [discriminate|].
  split; [reflexivity|]. exists err, endpoint. repeat split; assumption.
Qed.

Section Redirect.

Variable contentType : string -> option string.
Variable beyond : string -> string -> bool.

(** The client of a redirect is made unless the region that the pattern
    captures is empty; the region is the captured one, or [us-east-1] when
    the pattern does not match. *)
Lemma redirected_client_spec : forall endpoint awsCredentials,
  match redirectRegion endpoint with
  | Some "" =>
      redirected_client endpoint awsCredentials = inl RegionMissing
  | Some r =>
      redirected_client endpoint awsCredentials =
      inr {| region := Some r; credentials := awsCredentials |}
  | None =>
      redirected_client endpoint awsCredentials =
      inr {| region := Some "us-east-1"; credentials := awsCredentials |}
  end.
Proof.
  intros endpoint awsCredentials. unfold redirected_client, new_S3Client.
  destruct (redirectRegion endpoint) as [[|c r]|]; reflexivity.
Qed.

(** A first put that fails with a permanent redirect naming an endpoint is
    sent again, with the same input, through the new client, when that
    client can be made; the invocation stays outstanding. *)
Lemma redirect_sends_again : forall run st i id input err endpoint client,
  control st <> Unmodelled ->
  nth_error (Fastq.running (q st)) i = Some (Putting id input false) ->
  is_permanent_redirect err = true ->
  Endpoint err = Some endpoint ->
  redirected_client endpoint (awsCredentials (options run)) = inr client ->
  step contentType beyond run st (Answer i (Some err)) =
  Some (mkWalk (Some client)
          (Fastq.replaced (q st) i (Putting id input true))
          (pushed st) (uploadedS3Keys st) (control st)
          (sent st ++ [(client, PutObjectCommand input)])%list
          (unhandled st)).
Proof.
  intros run st i id input err endpoint client Hc Hn Hr He Hclient.
  unfold step, uploadToS3_answer. rewrite Hn, Hr, He, Hclient.
  cbn [negb andb].
  destruct (control st); try reflexivity. contradiction Hc. reflexivity.
Qed.

(** When the new client cannot be made, nothing is sent again and the
    client of the module stays: the invocation ends with the error of the
    constructor. *)
Lemma redirect_without_client : forall run st i id input err endpoint e,
  control st <> Unmodelled ->
  nth_error (Fastq.running (q st)) i = Some (Putting id input false) ->
  is_permanent_redirect err = true ->
  Endpoint err = Some endpoint ->
  redirected_client endpoint (awsCredentials (options run)) = inl e ->
  step contentType beyond run st (Answer i (Some err)) =
  Some (settle contentType beyond run st i id (inl e)).
Proof.
  intros run st i id input err endpoint e Hc Hn Hr He Hclient.
  unfold step, uploadToS3_answer. rewrite Hn, Hr, He, Hclient.
  cbn [negb andb].
  destruct (control st); try reflexivity. contradiction Hc. reflexivity.
Qed.

(** The put after a redirect is not sent a second time: whatever error
    answers it, the invocation ends with that error. *)
Lemma retried_put_fails : forall run st i id input err,
  control st <> Unmodelled ->
  nth_error (Fastq.running (q st)) i = Some (Putting id input true) ->
  step contentType beyond run st (Answer i (Some err)) =
  Some (settle contentType beyond run st i id (inl (ServiceError err))).
Proof.
  intros run st i id input err Hc Hn.
  unfold step, uploadToS3_answer. rewrite Hn. cbn [negb andb].
  destruct (control st); try reflexivity. contradiction Hc. reflexivity.
Qed.

(** A failure that is not a permanent redirect ends the invocation with
    the error of the service. *)
Lemma other_failure_propagates : forall run st i id input retried err,
  control st <> Unmodelled ->
  nth_error (Fastq.running (q st)) i = Some (Putting id input retried) ->
  is_permanent_redirect err = false ->
  step contentType beyond run st (Answer i (Some err)) =
  Some (settle contentType beyond run st i id (inl (ServiceError err))).
Proof.
  intros run st i id input retried err Hc Hn Hr.
  unfold step, uploadToS3_answer. rewrite Hn, Hr, andb_false_r.
  destruct (control st); try reflexivity. contradiction Hc. reflexivity.
Qed.

End Redirect.

(** The redirect scenario of the specification: the endpoint names the
    region [eu-west-1]; the same put goes out again through a client bound
    to that region, and its acknowledgement completes the upload. *)
Lemma redirect_to_eu_west_1 :
  let rs := s3SpaUpload Example.mime Example.beyond Example.fs "/home/user"
              "root" "bucket" (Example.options_with None None) in
  let err := {| Code := Some "PermanentRedirect";
                Endpoint := Some "bucket.s3-eu-west-1.amazonaws.com" |} in
  redirectRegion "bucket.s3-eu-west-1.amazonaws.com" = Some "eu-west-1" /\
  option_map
    (fun st => (map (fun r => region (fst r)) (sent st), put_keys (sent st),
                uploadedS3Keys st, control st, unhandled st))
    (steps Example.mime Example.beyond (fst rs) (snd rs)
       [Answer 0 (Some err); Answer 0 None]) =
  Some ([None; Some "eu-west-1"], ["sub/dir/app.js"; "sub/dir/app.js"],
        ["sub/dir/app.js"], Returned, []).
Proof. vm_compute. split; reflexivity. Qed.

(** C2 at the endpoint of the legacy region: [bucket.s3.amazonaws.com]
    names no region, and the pattern matches it with an empty capture, which
    [??] does not replace by [us-east-1].  The constructor of the client
    refuses the empty region: no client replaces the old one, the put is
    not sent again, and the upload of the file ends with the error of the
    constructor. *)
Theorem redirect_to_legacy_endpoint :
  let rs := s3SpaUpload Example.mime Example.beyond Example.fs "/home/user"
              "root" "bucket" (Example.options_with None None) in
  let err := {| Code := Some "PermanentRedirect";
                Endpoint := Some "bucket.s3.amazonaws.com" |} in
  redirectRegion "bucket.s3.amazonaws.com" = Some "" /\
  (forall awsCredentials,
     redirected_client "bucket.s3.amazonaws.com" awsCredentials =
     inl RegionMissing) /\
  (forall awsCredentials input,
     uploadToS3_answer awsCredentials input false (Some err) =
     Finish (inl RegionMissing)) /\
  option_map
    (fun st => (option_map region (_s3client st),
                map (fun r => region (fst r)) (sent st),
                put_keys (sent st), uploadedS3Keys st))
    (step Example.mime Example.beyond (fst rs) (snd rs)
       (Answer 0 (Some err))) =
  Some (Some None, [None], ["sub/dir/app.js"], []).
Proof.
  cbv zeta.
  assert (Hregion : redirectRegion "bucket.s3.amazonaws.com" = Some "")
    by (vm_compute; reflexivity).
  assert (Hclient : forall awsCredentials,
            redirected_client "bucket.s3.amazonaws.com" awsCredentials =
            inl RegionMissing).
  { intro awsCredentials.
    pose proof (redirected_client_spec "bucket.s3.amazonaws.com"
                  awsCredentials) as H.
    rewrite Hregion in H. exact H. }
  split; [exact Hregion|]. split; [exact Hclient|]. split.
  - intros awsCredentials input. unfold uploadToS3_answer.
    cbn [negb andb is_permanent_redirect Code Endpoint String.eqb Ascii.eqb
         Bool.eqb].
    rewrite Hclient. reflexivity.
  - vm_compute. reflexivity.
Qed.

(** ** The bound on the worker invocations that are outstanding *)

Lemma length_remove_nth : forall (A : Type) (l : list A) i x,
  nth_error l i = Some x ->
  S (length (Fastq.remove_nth i l)) = length l.
Proof.
  induction l as [|y t IH]; intros i x H.
  - destruct i; discriminate H.
  - destruct i as [|i']; [reflexivity|].
    simpl in H |- *. rewrite (IH i' x H). reflexivity.
Qed.

Lemma length_replace_nth : forall (A : Type) (l : list A) i y,
  length (Fastq.replace_nth i y l) = length l.
Proof.
  induction l as [|x t IH]; intros i y; destruct i; simpl;
    try rewrite IH; reflexivity.
Qed.

Section Bound.

Variable contentType : string -> option string.
Variable beyond : string -> string -> bool.
Variable run : Run.

(** A worker invocation takes one more slot and changes nothing else of
    the queue. *)
Lemma invoke_worker_queue : forall st id filePath st',
  invoke_worker contentType beyond run st id filePath = Some st' ->
  exists job, q st' = Fastq.started (q st) job /\ control st' = control st.
Proof.
  intros st id filePath st' H. unfold invoke_worker, uploadToS3 in H.
  destruct (relative_key (dir run) filePath); [|discriminate H].
  destruct (put_params _ _ _ _ _ _ _ _); injection H as <-;
    eexists; split; reflexivity.
Qed.

Lemma push_within_limit : forall st filePath st',
  push contentType beyond run st filePath = Some st' ->
  within_limit (q st) ->
  within_limit (q st') /\
  Fastq.concurrency (q st') = Fastq.concurrency (q st).
Proof.
  intros st filePath st' H Hin. unfold push in H.
  destruct (Fastq.saturated (q st)) eqn:Hs.
  - injection H as <-. split; [exact Hin | reflexivity].
  - apply invoke_worker_queue in H. destruct H as (job & -> & _).
    unfold Fastq.saturated in Hs. rewrite Z.geb_leb in Hs.
    apply Z.leb_gt in Hs.
    unfold within_limit. cbn. rewrite length_app. cbn. split; [lia | reflexivity].
Qed.

Lemma drained_queue : forall st, q (drained st) = q st.
Proof. intro st. unfold drained. destruct (Fastq.idle (q st)); reflexivity. Qed.

Lemma push_all_within_limit : forall todo st,
  within_limit (q st) ->
  within_limit (q (push_all contentType beyond run st todo)) /\
  Fastq.concurrency (q (push_all contentType beyond run st todo)) =
  Fastq.concurrency (q st).
Proof.
  induction todo as [|filePath more IH]; intros st Hin.
  - cbn [push_all]. rewrite drained_queue. split; [exact Hin | reflexivity].
  - cbn [push_all].
    destruct (push contentType beyond run st filePath) as [st'|] eqn:Hp.
    + destruct (push_within_limit st filePath st' Hp Hin) as [Hin' Hc].
      destruct (0 <? Fastq.length (q st'))%nat.
      * split; [exact Hin' | exact Hc].
      * destruct (IH st' Hin') as [H1 H2]. split; [exact H1 | congruence].
    + split; [exact Hin | reflexivity].
Qed.

Lemma wake_drained_queue : forall st, q (wake_drained st) = q st.
Proof.
  intro st. unfold wake_drained.
  destruct (control st); try reflexivity. apply drained_queue.
Qed.

Ltac close_bound H Hc :=
  match goal with
  | |- context [push_all _ _ _ ?s ?t] =>
      let P1 := fresh "P" in
      let P2 := fresh "P" in
      destruct (push_all_within_limit t s H) as [P1 P2];
      split; [exact P1 | congruence]
  | _ =>
      try rewrite wake_drained_queue; cbn [q set_control];
      split; [exact H | exact Hc]
  end.

Lemma settle_within_limit : forall st i id result job,
  nth_error (Fastq.running (q st)) i = Some job ->
  within_limit (q st) ->
  within_limit (q (settle contentType beyond run st i id result)) /\
  Fastq.concurrency (q (settle contentType beyond run st i id result)) =
  Fastq.concurrency (q st).
Proof.
  intros st i id result job Hn Hin.
  pose proof (length_remove_nth _ _ _ _ Hn) as Hlen.
  unfold settle.
  set (st1 := mkWalk _ (Fastq.finished (q st) i) _ _ _ _ _).
  assert (H1 : (Z.of_nat (S (length (Fastq.running (q st1))))
                <= Fastq.concurrency (q st1))%Z
               /\ Fastq.concurrency (q st1) = Fastq.concurrency (q st)).
  { unfold st1. cbn [q Fastq.running Fastq.finished Fastq.concurrency].
    rewrite Hlen. split; [exact Hin | reflexivity]. }
  clearbody st1. destruct H1 as [H1 Hc1].
  unfold release.
  destruct (Fastq.next (q st1)) as [[[id' filePath] q']|] eqn:Hnext.
  - assert (Hq' : Fastq.running q' = Fastq.running (q st1) /\
                  Fastq.concurrency q' = Fastq.concurrency (q st1)).
    { unfold Fastq.next in Hnext.
      destruct (Fastq.waiting (q st1)); [discriminate Hnext|].
      injection Hnext as _ <-. split; reflexivity. }
    destruct Hq' as [Hr' Hc'].
    destruct (invoke_worker contentType beyond run (set_q st1 q') id' filePath)
      as [st2|] eqn:Hw.
    + apply invoke_worker_queue in Hw. destruct Hw as (job' & Hq2 & _).
      assert (H2 : within_limit (q st2) /\
                   Fastq.concurrency (q st2) = Fastq.concurrency (q st)).
      { rewrite Hq2. unfold within_limit. cbn. rewrite length_app, Hr', Hc'.
        cbn. split; [lia | exact Hc1]. }
      clear Hq2. destruct H2 as [H2 Hc2].
      destruct result as [e|key]; destruct (control st2) eqn:Ec;
        try (destruct (Nat.eqb id id0)); close_bound H2 Hc2.
    + cbn. unfold within_limit. split; [lia | exact Hc1].
  - assert (H2 : within_limit (q st1)) by (unfold within_limit; lia).
    destruct result as [e|key]; destruct (control st1) eqn:Ec;
      try (destruct (Nat.eqb id id0)); close_bound H2 Hc1.
Qed.

Lemma step_within_limit : forall st ev st',
  step contentType beyond run st ev = Some st' ->
  within_limit (q st) ->
  within_limit (q st') /\
  Fastq.concurrency (q st') = Fastq.concurrency (q st).
Proof.
  intros st ev st' H Hin. destruct ev as [i response].
  unfold step in H.
  destruct (nth_error (Fastq.running (q st)) i) as [job|] eqn:Hn;
    [|destruct (control st); discriminate H].
  assert (H' :
    match job with
    | Failing id e => Some (settle contentType beyond run st i id (inl e))
    | Putting id input retried =>
        match uploadToS3_answer (awsCredentials (options run)) input retried
                response with
        | Retry client =>
            Some (mkWalk (Some client)
                    (Fastq.replaced (q st) i (Putting id input true))
                    (pushed st) (uploadedS3Keys st) (control st)
                    (sent st ++ [(client, PutObjectCommand input)])%list
                    (unhandled st))
        | Finish result => Some (settle contentType beyond run st i id result)
        end
    end = Some st').
  { destruct (control st); try exact H. discriminate H. }
  clear H.
  destruct job as [id e|id input retried].
  - injection H' as <-. apply (settle_within_limit st i id _ _ Hn Hin).
  - destruct (uploadToS3_answer _ _ _ _) as [client|result].
    + injection H' as <-. unfold within_limit.
      cbn [q Fastq.running Fastq.replaced Fastq.concurrency].
      rewrite length_replace_nth. split; [exact Hin | reflexivity].
    + injection H' as <-. apply (settle_within_limit st i id _ _ Hn Hin).
Qed.

Lemma steps_within_limit : forall evs st st',
  steps contentType beyond run st evs = Some st' ->
  within_limit (q st) ->
  within_limit (q st') /\
  Fastq.concurrency (q st') = Fastq.concurrency (q st).
Proof.
  induction evs as [|ev more IH]; intros st st' H Hin.
  - injection H as <-. split; [exact Hin | reflexivity].
  - cbn [steps] in H.
    destruct (step contentType beyond run st ev) as [st1|] eqn:Hs;
      [|discriminate H].
    destruct (step_within_limit st ev st1 Hs Hin) as [H1 Hc1].
    destruct (IH st1 st' H H1) as [H2 Hc2].
    split; [exact H2 | congruence].
Qed.

(** With no invocation outstanding, no answer can arrive. *)
Lemma steps_nothing_running : forall evs st st',
  Fastq.running (q st) = [] ->
  steps contentType beyond run st evs = Some st' ->
  st' = st.
Proof.
  intros evs st st' Hr H. destruct evs as [|[i response] more].
  - injection H as <-. reflexivity.
  - cbn [steps] in H. unfold step in H. rewrite Hr in H.
    destruct i; cbn [nth_error] in H; destruct (control st); discriminate H.
Qed.

End Bound.

(** The state in which [s3SpaUpload] first suspends: either the walk was
    refused and nothing was sent, or the queue has the configured limit. *)
Lemma s3SpaUpload_begins : forall contentType beyond fs cwd d bucket opts,
  let limit := effective_concurrency (concurrency opts) in
  let st := snd (s3SpaUpload contentType beyond fs cwd d bucket opts) in
  ((exists e, control st = Rejected e) /\
   Fastq.running (q st) = [] /\ sent st = [] /\
   Fastq.concurrency (q st) = 0%Z) \/
  ((1 <= limit)%Z /\ within_limit (q st) /\
   Fastq.concurrency (q st) = limit).
Proof.
  intros contentType beyond fs cwd d bucket opts limit st.
  unfold st, s3SpaUpload, walkDirectory. cbn [snd root dir options concurrency].
  destruct (buildFileList fs (Path.resolve cwd d)) as [err|files].
  - left. cbn. split; [exists err; reflexivity | repeat split].
  - change (effective_concurrency
              (Some (effective_concurrency (concurrency opts))))
      with limit.
    unfold Fastq.promise. destruct (limit <? 1)%Z eqn:E.
    + left. cbn. split; [exists QueueError; reflexivity | repeat split].
    + right. apply Z.ltb_ge in E. split; [exact E|].
      apply push_all_within_limit. unfold within_limit. cbn. lia.
Qed.

(** ** The concurrency option *)

(** The check of the command line wrapper refuses a concurrency below 1. *)
Lemma cli_check_refuses : forall c, (c < 1)%Z -> cli_check (Some c) = false.
Proof.
  intros c H. unfold cli_check. apply Z.ltb_lt in H. rewrite H. reflexivity.
Qed.

(** What the command line wrapper lets through is at least 1. *)
Lemma cli_passes_valid_concurrency : forall given,
  cli_check (cli_concurrency given) = true ->
  exists c, cli_concurrency given = Some c /\ (1 <= c)%Z.
Proof.
  intros given H. unfold cli_concurrency in *. eexists. split; [reflexivity|].
  unfold cli_check in H. apply negb_true_iff in H. apply Z.ltb_ge in H.
  exact H.
Qed.

(** C7: a concurrency that is not set becomes 100, and the queue of the
    uploads is made with that limit; with a configured concurrency below 1
    the run is rejected (by the work queue, when the directory could be
    read), no put is ever sent and no worker is ever invoked. *)
Theorem concurrency_default_and_refusal :
  forall contentType beyond fs cwd d bucket opts,
    let rs := s3SpaUpload contentType beyond fs cwd d bucket opts in
    (concurrency opts = None ->
     concurrency (options (fst rs)) = Some 100%Z /\
     (forall files,
        buildFileList fs (Path.resolve cwd d) = inr files ->
        Fastq.concurrency (q (snd rs)) = 100%Z)) /\
    (forall c,
       concurrency opts = Some c -> (c < 1)%Z ->
       (exists e, control (snd rs) = Rejected e) /\
       (forall files,
          buildFileList fs (Path.resolve cwd d) = inr files ->
          control (snd rs) = Rejected QueueError) /\
       (forall evs st',
          steps contentType beyond (fst rs) (snd rs) evs = Some st' ->
          sent st' = [] /\ Fastq.running (q st') = [])).
Proof.
  intros contentType beyond fs cwd d bucket opts rs.
  pose proof (s3SpaUpload_begins contentType beyond fs cwd d bucket opts)
    as Hb. cbn zeta in Hb. fold rs in Hb.
  split.
  - intro Hnone. split.
    + unfold rs, s3SpaUpload. cbn [fst options concurrency].
      rewrite Hnone. reflexivity.
    + intros files Hfiles. rewrite Hnone in Hb.
      destruct Hb as [(_ & _ & _ & H0) | (_ & _ & Hc)]; [|exact Hc].
      exfalso. unfold rs, s3SpaUpload, walkDirectory in H0.
      cbn [snd root dir options concurrency] in H0.
      rewrite Hfiles, Hnone in H0.
      change (Fastq.promise (effective_concurrency
                               (Some (effective_concurrency None))))
        with (@inr Error (Fastq.queue (nat * string) Job)
                (Fastq.mkQueue 100%Z [] [])) in H0.
      cbn iota in H0.
      match type of H0 with
      | Fastq.concurrency (q (push_all _ _ ?r ?s ?t)) = _ =>
          assert (Hw : within_limit (q s))
            by (unfold within_limit; cbn; lia);
          rewrite (proj2 (push_all_within_limit contentType beyond r t s Hw))
            in H0
      end.
      discriminate H0.
  - intros c Hsome Hlt. rewrite Hsome in Hb. cbn [effective_concurrency
      JS.nullish] in Hb.
    destruct Hb as [(Hrej & Hrun & Hsent & _) | (Hle & _)]; [|lia].
    split; [exact Hrej|]. split.
    + intros files Hfiles. unfold rs, s3SpaUpload, walkDirectory.
      cbn [snd root dir options concurrency]. rewrite Hfiles, Hsome.
      cbn [effective_concurrency JS.nullish]. unfold Fastq.promise.
      apply Z.ltb_lt in Hlt. rewrite Hlt. reflexivity.
    + intros evs st' Hsteps.
      rewrite (steps_nothing_running contentType beyond _ evs _ st' Hrun Hsteps).
      split; assumption.
Qed.

Lemma concurrency_default_and_refusal_witness :
  control (snd (s3SpaUpload Example.mime Example.beyond Example.site "/srv"
                  "site" "bucket" (Example.options_with None (Some 0%Z)))) =
  Rejected QueueError /\
  Fastq.concurrency
    (q (snd (s3SpaUpload Example.mime Example.beyond Example.site "/srv"
               "site" "bucket" (Example.options_with None None)))) = 100%Z.
Proof.
  split.
  - destruct (concurrency_default_and_refusal Example.mime Example.beyond
                Example.site "/srv" "site" "bucket"
                (Example.options_with None (Some 0%Z))) as [_ H].
    assert (Hlt : (0 < 1)%Z) by lia.
    destruct (H 0%Z eq_refl Hlt) as (_ & Hq & _).
    apply (Hq ["/srv/site/index.html"; "/srv/site/app.js";
               "/srv/site/logo.png"]).
    vm_compute. reflexivity.
  - destruct (concurrency_default_and_refusal Example.mime Example.beyond
                Example.site "/srv" "site" "bucket"
                (Example.options_with None None)) as [H _].
    destruct (H eq_refl) as [_ Hq].
    apply (Hq ["/srv/site/index.html"; "/srv/site/app.js";
               "/srv/site/logo.png"]).
    vm_compute. reflexivity.
Defined.

(** C8: with a limit of at least 1, whatever the directory holds and in
    whatever order the puts are answered, the worker invocations that are
    outstanding never exceed the limit. *)
Theorem outstanding_uploads_bounded :
  forall contentType beyond fs cwd d bucket opts N evs st,
    effective_concurrency (concurrency opts) = N ->
    (1 <= N)%Z ->
    steps contentType beyond
      (fst (s3SpaUpload contentType beyond fs cwd d bucket opts))
      (snd (s3SpaUpload contentType beyond fs cwd d bucket opts)) evs =
    Some st ->
    (Z.of_nat (length (Fastq.running (q st))) <= N)%Z.
Proof.
  intros contentType beyond fs cwd d bucket opts N evs st HN Hle Hsteps.
  pose proof (s3SpaUpload_begins contentType beyond fs cwd d bucket opts)
    as Hb. cbn zeta in Hb. rewrite HN in Hb.
  destruct Hb as [(_ & Hrun & _ & _) | (_ & Hin & Hc)].
  - rewrite (steps_nothing_running contentType beyond _ evs _ st Hrun Hsteps).
    rewrite Hrun. cbn. lia.
  - destruct (steps_within_limit contentType beyond _ evs _ st Hsteps Hin)
      as [H1 H2].
    unfold within_limit in H1. rewrite H2, Hc in H1. exact H1.
Qed.

Lemma outstanding_uploads_bounded_witness :
  exists st,
    steps Example.mime Example.beyond
      (fst (s3SpaUpload Example.mime Example.beyond Example.site "/srv" "site"
              "bucket" (Example.options_with None (Some 2%Z))))
      (snd (s3SpaUpload Example.mime Example.beyond Example.site "/srv" "site"
              "bucket" (Example.options_with None (Some 2%Z))))
      [Answer 1 None] = Some st /\
    length (Fastq.running (q st)) = 2%nat /\
    (Z.of_nat (length (Fastq.running (q st))) <= 2)%Z.
Proof.
  eexists. split; [vm_compute; reflexivity|].
  split; [reflexivity|].
  apply (outstanding_uploads_bounded Example.mime Example.beyond Example.site
           "/srv" "site" "bucket" (Example.options_with None (Some 2%Z)) 2%Z
           [Answer 1 None]).
  - reflexivity.
  - lia.
  - vm_compute. reflexivity.
Defined.

(** ** Reconciliation *)

Lemma delete_keys_app : forall a b,
  delete_keys (a ++ b) = (delete_keys a ++ delete_keys b)%list.
Proof.
  induction a as [|[c cmd] t IH]; intro b; [reflexivity|].
  destruct cmd; simpl; rewrite IH; reflexivity.
Qed.

Lemma listings_app : forall a b,
  listings (a ++ b) = (listings a ++ listings b)%list.
Proof.
  induction a as [|[c cmd] t IH]; intro b; [reflexivity|].
  destruct cmd; simpl; rewrite IH; reflexivity.
Qed.

Lemma idle_spec : forall (T J : Type) (qu : Fastq.queue T J),
  Fastq.idle qu = true ->
  Fastq.running qu = [] /\ Fastq.waiting qu = [].
Proof.
  intros T J qu H. unfold Fastq.idle in H.
  destruct (Fastq.running qu); [|discriminate H].
  destruct (Fastq.waiting qu); [split; reflexivity | discriminate H].
Qed.

Lemma candidates_app : forall U p a b,
  candidates U p (a ++ b) = (candidates U p a ++ candidates U p b)%list.
Proof.
  induction a as [|obj t IH]; intro b; [reflexivity|].
  simpl. destruct (is_old_file U p obj); [|apply IH].
  destruct (Listing.Key obj); [simpl; rewrite IH; reflexivity | apply IH].
Qed.

(** The deletions that are submitted are the listed keys that are not
    empty, start with the prefix and were not uploaded. *)
Lemma candidates_filter : forall U p objects,
  candidates U p objects =
  filter (fun k => negb (String.eqb k "") && stale U p k)
         (listed_keys objects).
Proof.
  induction objects as [|[key] more IH]; [reflexivity|].
  cbn [candidates listed_keys Listing.Key]. unfold is_old_file.
  cbn [Listing.Key]. destruct key as [k|]; [|exact IH].
  cbn [JS.truthy filter]. rewrite IH.
  change (JS.startsWith k p && negb (JS.includes U k)) with (stale U p k).
  destruct (negb (String.eqb k "") && stale U p k); reflexivity.
Qed.

Section Reconciliation.

Variable args : SweepArgs.

Lemma invoke_delete_props : forall st key,
  accounted st ->
  accounted (invoke_delete args st key) /\
  delete_keys (sweep_sent (invoke_delete args st key)) =
    (delete_keys (sweep_sent st) ++ [key])%list /\
  listings (sweep_sent (invoke_delete args st key)) =
    listings (sweep_sent st) /\
  Fastq.waiting (dq (invoke_delete args st key)) = Fastq.waiting (dq st) /\
  sweep_control (invoke_delete args st key) = sweep_control st.
Proof.
  intros st key Ha. unfold accounted, invoke_delete in *.
  cbn [sweep_sent dq deleted sweep_unhandled sweep_control Fastq.running
       Fastq.started Fastq.waiting].
  rewrite delete_keys_app, listings_app, !length_app. cbn.
  rewrite app_nil_r. repeat split; try reflexivity. lia.
Qed.

Lemma push_delete_props : forall st key,
  fifo st -> accounted st ->
  fifo (push_delete args st key) /\
  accounted (push_delete args st key) /\
  submitted (push_delete args st key) = (submitted st ++ [key])%list /\
  listings (sweep_sent (push_delete args st key)) =
    listings (sweep_sent st) /\
  sweep_control (push_delete args st key) = sweep_control st.
Proof.
  intros st key Hf Ha. unfold push_delete.
  destruct (Fastq.saturated (dq st)) eqn:Hs.
  - unfold fifo, accounted, submitted in *.
    cbn [sweep_sent dq deleted sweep_unhandled sweep_control Fastq.running
         Fastq.enqueue Fastq.waiting].
    repeat split; try reflexivity.
    + right. exact Hs.
    + exact Ha.
    + rewrite app_assoc. reflexivity.
  - destruct Hf as [Hw|Hsat]; [|congruence].
    destruct (invoke_delete_props st key Ha) as (Ha' & Hd & Hl & Hw' & Hc).
    repeat split; try assumption.
    + left. congruence.
    + unfold submitted. rewrite Hd, Hw', Hw, !app_nil_r. reflexivity.
Qed.

Lemma submit_props : forall objects st,
  fifo st -> accounted st ->
  fifo (submit args st objects) /\
  accounted (submit args st objects) /\
  submitted (submit args st objects) =
    (submitted st
     ++ candidates (arg_uploadedKeys args) (arg_prefix args) objects)%list /\
  listings (sweep_sent (submit args st objects)) = listings (sweep_sent st) /\
  sweep_control (submit args st objects) = sweep_control st.
Proof.
  induction objects as [|obj more IH]; intros st Hf Ha.
  - cbn. rewrite app_nil_r. repeat split; assumption.
  - cbn [submit candidates].
    destruct (is_old_file (arg_uploadedKeys args) (arg_prefix args) obj);
      [|apply IH; assumption].
    destruct (Listing.Key obj) as [key|]; [|apply IH; assumption].
    destruct (push_delete_props st key Hf Ha) as (Hf' & Ha' & Hs & Hl & Hc).
    destruct (IH (push_delete args st key) Hf' Ha')
      as (Hf2 & Ha2 & Hs2 & Hl2 & Hc2).
    repeat split; try assumption.
    + rewrite Hs2, Hs, <- app_assoc. reflexivity.
    + congruence.
    + congruence.
Qed.

(** After [await q.drained()]: the queue is as it was; a listing request
    is sent only when the queue is idle, and the wait for the page
    follows. *)
Lemma sweep_drained_props : forall st token,
  fifo st -> accounted st ->
  let st' := sweep_drained args st token in
  sweep_inv st' /\
  submitted st' = submitted st /\
  dq st' = dq st /\
  (listings (sweep_sent st') <> listings (sweep_sent st) ->
   sweep_control st' = AwaitPage).
Proof.
  intros st token Hf Ha. unfold sweep_drained.
  destruct (Fastq.idle (dq st)) eqn:Hi.
  - apply idle_spec in Hi. destruct Hi as [Hr Hw].
    unfold next_page. destruct (JS.truthy token).
    + cbn zeta.
      unfold sweep_inv, fifo, quiet, accounted, counted, submitted in *.
      cbn [sweep_sent dq deleted sweep_unhandled sweep_control].
      rewrite delete_keys_app. cbn [delete_keys]. rewrite app_nil_r.
      repeat split; try assumption; try reflexivity.
    + cbn zeta.
      unfold sweep_inv, fifo, quiet, accounted, counted, submitted in *.
      cbn [sweep_sent dq deleted sweep_unhandled sweep_control].
      repeat split; try assumption; try reflexivity.
      intro H. contradiction H. reflexivity.
  - cbn zeta.
    unfold sweep_inv, fifo, quiet, accounted, counted, submitted in *.
    cbn [sweep_sent dq deleted sweep_unhandled sweep_control].
    repeat split; try assumption; try reflexivity.
    intro H. contradiction H. reflexivity.
Qed.

(** An answer to a delete frees a slot, which goes to the key that has
    waited longest. *)
Lemma answer_props : forall st i key response,
  fifo st -> accounted st ->
  nth_error (Fastq.running (dq st)) i = Some key ->
  let st1 := answered st i response in
  let st2 := hand_over args st1 in
  fifo st2 /\ accounted st2 /\ submitted st2 = submitted st /\
  listings (sweep_sent st2) = listings (sweep_sent st) /\
  sweep_control st2 = sweep_control st.
Proof.
  intros st i key response Hf Ha Hn st1 st2.
  pose proof (length_remove_nth _ _ _ _ Hn) as Hlen.
  assert (Ha1 : accounted st1).
  { unfold accounted, st1, answered.
    cbn [sweep_sent dq deleted sweep_unhandled Fastq.running Fastq.finished].
    unfold accounted in Ha. rewrite Ha, <- Hlen.
    destruct response; [rewrite length_app; cbn; lia | lia]. }
  unfold st2, hand_over, Fastq.next.
  destruct (Fastq.waiting (dq st1)) as [|k more] eqn:Hw.
  - assert (Hw0 : Fastq.waiting (dq st) = []) by exact Hw.
    unfold fifo, accounted, submitted.
    repeat split; try reflexivity.
    + left. exact Hw.
    + exact Ha1.
  - assert (Hw0 : Fastq.waiting (dq st) = k :: more) by exact Hw.
    assert (Hsat : Fastq.saturated (dq st) = true).
    { destruct Hf as [Hf|Hf]; [congruence | exact Hf]. }
    unfold fifo, accounted, submitted, invoke_delete.
    cbn [sweep_sent dq deleted sweep_unhandled sweep_control Fastq.running
         Fastq.started Fastq.waiting Fastq.concurrency].
    rewrite delete_keys_app, listings_app, !length_app. cbn [delete_keys
      listings length].
    rewrite !app_nil_r.
    repeat split.
    + right. unfold Fastq.saturated in *.
      cbn [Fastq.running Fastq.concurrency Fastq.started].
      rewrite length_app. cbn [length].
      unfold st1, answered.
      cbn [dq Fastq.running Fastq.finished Fastq.concurrency].
      rewrite Nat.add_1_r, Hlen. exact Hsat.
    + unfold accounted in Ha1. rewrite Ha1. lia.
    + rewrite Hw0, <- app_assoc. reflexivity.
Qed.

Lemma sweep_step_props : forall st ev st',
  sweep_inv st ->
  sweep_step args st ev = Some st' ->
  sweep_inv st' /\
  submitted st' =
    (submitted st
     ++ candidates (arg_uploadedKeys args) (arg_prefix args)
          (match ev with
           | PageArrives page => page_objects page
           | _ => []
           end))%list /\
  (listings (sweep_sent st') <> listings (sweep_sent st) ->
   sweep_control st' = AwaitPage).
Proof.
  intros st ev st' (Hf & Hq & Ha & Hn0) H.
  destruct ev as [page|e|i response]; cbn [sweep_step] in H.
  - destruct (sweep_control st) eqn:Hc; try discriminate H.
    injection H as <-.
    destruct (submit_props (JS.nullish (Listing.Contents page) []) st Hf Ha)
      as (Hf1 & Ha1 & Hs1 & Hl1 & _).
    destruct (sweep_drained_props _ (Listing.NextContinuationToken page)
                Hf1 Ha1) as (Hinv & Hs2 & _ & Hl2).
    split; [exact Hinv|]. split.
    + rewrite Hs2, Hs1. reflexivity.
    + rewrite <- Hl1. exact Hl2.
  - destruct (sweep_control st) eqn:Hc; try discriminate H.
    injection H as <-. unfold quiet in Hq. rewrite Hc in Hq.
    unfold sweep_inv, fifo, quiet, accounted, counted, submitted in *.
    cbn [sweep_sent dq deleted sweep_unhandled sweep_control candidates].
    rewrite app_nil_r. repeat split; try assumption; try apply Hq.
    intro C. contradiction C. reflexivity.
  - destruct (nth_error (Fastq.running (dq st)) i) as [key|] eqn:Hn;
      [|discriminate H].
    injection H as <-.
    destruct (answer_props st i key response Hf Ha Hn)
      as (Hf2 & Ha2 & Hs2 & Hl2 & Hc2).
    cbn zeta in Hf2, Ha2, Hs2, Hl2, Hc2 |- *.
    set (st2 := hand_over args (answered st i response)) in *.
    cbn [candidates]. rewrite app_nil_r.
    destruct (sweep_control st2) eqn:Hc.
    + exfalso. unfold quiet in Hq. rewrite <- Hc2 in Hq.
      destruct Hq as [Hr _]. rewrite Hr in Hn. destruct i; discriminate Hn.
    + destruct (sweep_drained_props st2 token Hf2 Ha2)
        as (Hinv & Hs3 & _ & Hl3).
      split; [exact Hinv|]. split; [congruence|].
      rewrite <- Hl2. exact Hl3.
    + exfalso. unfold quiet in Hq. rewrite <- Hc2 in Hq.
      destruct Hq as [Hr _]. rewrite Hr in Hn. destruct i; discriminate Hn.
    + exfalso. unfold quiet in Hq. rewrite <- Hc2 in Hq.
      destruct Hq as [Hr _]. rewrite Hr in Hn. destruct i; discriminate Hn.
Qed.

Lemma removeOldFiles_inv :
  sweep_inv (removeOldFiles args) /\ submitted (removeOldFiles args) = [].
Proof.
  unfold removeOldFiles, Fastq.promise.
  destruct (arg_concurrency args <? 1)%Z;
    unfold sweep_inv, fifo, quiet, accounted, counted, submitted; cbn;
    repeat split; try reflexivity; left; reflexivity.
Qed.

Lemma sweep_steps_props : forall evs st st',
  sweep_inv st ->
  sweep_steps args st evs = Some st' ->
  sweep_inv st' /\
  submitted st' =
    (submitted st
     ++ candidates (arg_uploadedKeys args) (arg_prefix args)
          (listing evs))%list.
Proof.
  induction evs as [|ev more IH]; intros st st' Hinv H.
  - injection H as <-. cbn. rewrite app_nil_r. split; [exact Hinv | reflexivity].
  - cbn [sweep_steps] in H.
    destruct (sweep_step args st ev) as [st1|] eqn:Hs; [|discriminate H].
    destruct (sweep_step_props st ev st1 Hinv Hs) as (Hinv1 & Hs1 & _).
    destruct (IH st1 st' Hinv1 H) as (Hinv' & Hs').
    split; [exact Hinv'|].
    rewrite Hs', Hs1, <- app_assoc, <- candidates_app.
    f_equal. f_equal. unfold listing.
    destruct ev; reflexivity.
Qed.

End Reconciliation.

Lemma includes_In : forall arr x, JS.includes arr x = true <-> In x arr.
Proof.
  induction arr as [|y more IH]; intro x; simpl.
  - split; [discriminate | intros []].
  - rewrite orb_true_iff, IH. split.
    + intros [H|H]; [left; apply String.eqb_eq; exact H | right; exact H].
    + intros [H|H]; [left; apply String.eqb_eq; exact H | right; exact H].
Qed.

Lemma filter_stale_nonempty : forall U p keys,
  (forall k, In k keys -> k <> "") ->
  filter (fun k => negb (String.eqb k "") && stale U p k) keys =
  filter (stale U p) keys.
Proof.
  intros U p keys H. apply filter_ext_in. intros k Hin.
  destruct (String.eqb_spec k "") as [E|_]; [|reflexivity].
  exfalso. exact (H k Hin E).
Qed.

(** What the deletes that are sent are, at any moment and once
    [removeOldFiles] has returned. *)
Lemma sweep_sends_stale_keys :
  forall args evs st,
    sweep_steps args (removeOldFiles args) evs = Some st ->
    (forall k,
       In k (delete_keys (sweep_sent st)) ->
       In k (listed_keys (listing evs)) /\
       JS.startsWith k (arg_prefix args) = true /\
       ~ In k (arg_uploadedKeys args)) /\
    (forall n,
       sweep_control st = Swept n ->
       delete_keys (sweep_sent st) =
         filter (fun k => negb (String.eqb k "")
                          && stale (arg_uploadedKeys args) (arg_prefix args) k)
                (listed_keys (listing evs)) /\
       ((forall k, In k (listed_keys (listing evs)) -> k <> "") ->
        delete_keys (sweep_sent st) =
          filter (stale (arg_uploadedKeys args) (arg_prefix args))
                 (listed_keys (listing evs))) /\
       (n + length (sweep_unhandled st))%nat =
         length (delete_keys (sweep_sent st))).
Proof.
  intros args evs st H.
  destruct (removeOldFiles_inv args) as [Hinv0 Hs0].
  destruct (sweep_steps_props args evs _ st Hinv0 H)
    as [(Hf & Hq & Ha & Hn) Hs].
  rewrite Hs0 in Hs. cbn [app] in Hs. rewrite candidates_filter in Hs.
  split.
  - intros k Hin.
    assert (Hk : In k (submitted st))
      by (unfold submitted; apply in_or_app; left; exact Hin).
    rewrite Hs in Hk. apply filter_In in Hk. destruct Hk as [Hl Hk].
    apply andb_true_iff in Hk. destruct Hk as [_ Hk].
    unfold stale in Hk. apply andb_true_iff in Hk. destruct Hk as [Hp Hu].
    split; [exact Hl|]. split; [exact Hp|].
    intro HU. apply includes_In in HU. rewrite HU in Hu. discriminate Hu.
  - intros n Hc. unfold quiet in Hq. rewrite Hc in Hq. destruct Hq as [Hr Hw].
    unfold submitted in Hs. rewrite Hw, app_nil_r in Hs.
    split; [exact Hs|]. split.
    + intro Hne. rewrite Hs. apply filter_stale_nonempty. exact Hne.
    + unfold counted in Hn. rewrite Hc in Hn. subst n.
      unfold accounted in Ha. rewrite Ha, Hr. cbn [length]. lia.
Qed.

(** C9: while a page of the listing is requested, no delete runs and none
    waits, and every deletion submitted so far has been sent and answered;
    and a turn in which a listing request is sent ends with the queue
    idle. *)
Theorem listing_waits_for_deletions :
  forall args evs st,
    sweep_steps args (removeOldFiles args) evs = Some st ->
    (sweep_control st = AwaitPage ->
     Fastq.running (dq st) = [] /\ Fastq.waiting (dq st) = [] /\
     delete_keys (sweep_sent st) =
       candidates (arg_uploadedKeys args) (arg_prefix args) (listing evs) /\
     length (delete_keys (sweep_sent st)) =
       (deleted st + length (sweep_unhandled st))%nat) /\
    (forall ev st',
       sweep_step args st ev = Some st' ->
       listings (sweep_sent st') <> listings (sweep_sent st) ->
       sweep_control st' = AwaitPage /\
       Fastq.running (dq st') = [] /\ Fastq.waiting (dq st') = []).
Proof.
  intros args evs st H.
  destruct (removeOldFiles_inv args) as [Hinv0 Hs0].
  destruct (sweep_steps_props args evs _ st Hinv0 H) as [Hinv Hs].
  rewrite Hs0 in Hs. cbn [app] in Hs.
  split.
  - intro Hc. destruct Hinv as (_ & Hq & Ha & _).
    unfold quiet in Hq. rewrite Hc in Hq. destruct Hq as [Hr Hw].
    unfold submitted in Hs. rewrite Hw, app_nil_r in Hs.
    unfold accounted in Ha. rewrite Hr in Ha. cbn [length] in Ha.
    rewrite Nat.add_0_r in Ha.
    repeat split; assumption.
  - intros ev st' Hstep Hl.
    destruct (sweep_step_props args st ev st' Hinv Hstep)
      as ((_ & Hq' & _) & _ & Hc').
    specialize (Hc' Hl). unfold quiet in Hq'. rewrite Hc' in Hq'.
    split; [exact Hc' | exact Hq'].
Qed.

Lemma listing_waits_for_deletions_witness :
  exists st,
    sweep_steps Example.sweep_args (removeOldFiles Example.sweep_args)
      [PageArrives Example.first_page; DeleteAnswer 0 None] = Some st /\
    listings (sweep_sent st) = [None; Some "next"] /\
    Fastq.running (dq st) = [] /\ Fastq.waiting (dq st) = [] /\
    deleted st = 1%nat.
Proof.
  eexists. split; [vm_compute; reflexivity|]. split; [reflexivity|].
  match goal with
  | |- Fastq.running (dq ?s) = [] /\ _ =>
      assert (H : sweep_steps Example.sweep_args
                    (removeOldFiles Example.sweep_args)
                    [PageArrives Example.first_page; DeleteAnswer 0 None] =
                  Some s)
        by (vm_compute; reflexivity);
      destruct (listing_waits_for_deletions Example.sweep_args _ s H)
        as [Hwait _];
      destruct (Hwait eq_refl) as (Hr & Hw & _ & _)
  end.
  split; [exact Hr|]. split; [exact Hw | reflexivity].
Defined.

(** ** From the upload phase to the reconciliation *)

Section Client.

Variable contentType : string -> option string.
Variable beyond : string -> string -> bool.
Variable run : Run.

Lemma invoke_worker_client : forall st id filePath st',
  invoke_worker contentType beyond run st id filePath = Some st' ->
  has_client st'.
Proof.
  intros st id filePath st' H. unfold invoke_worker, uploadToS3 in H.
  destruct (relative_key (dir run) filePath); [|discriminate H].
  destruct (put_params _ _ _ _ _ _ _ _); injection H as <-; discriminate.
Qed.

Lemma push_client : forall st filePath st',
  push contentType beyond run st filePath = Some st' ->
  has_client st -> has_client st'.
Proof.
  intros st filePath st' H Hc. unfold push in H.
  destruct (Fastq.saturated (q st)).
  - injection H as <-. exact Hc.
  - apply invoke_worker_client in H. exact H.
Qed.

Lemma push_all_client : forall todo st,
  has_client st -> has_client (push_all contentType beyond run st todo).
Proof.
  induction todo as [|filePath more IH]; intros st Hc.
  - cbn [push_all]. unfold drained.
    destruct (Fastq.idle (q st)); exact Hc.
  - cbn [push_all].
    destruct (push contentType beyond run st filePath) as [st'|] eqn:Hp;
      [|exact Hc].
    apply push_client in Hp; [|exact Hc].
    destruct (0 <? Fastq.length (q st'))%nat; [exact Hp | apply IH; exact Hp].
Qed.

Lemma wake_drained_client : forall st,
  has_client st -> has_client (wake_drained st).
Proof.
  intros st Hc. unfold wake_drained, drained.
  destruct (control st); try exact Hc.
  destruct (Fastq.idle (q st)); exact Hc.
Qed.

Lemma settle_client : forall st i id result,
  has_client st ->
  has_client (settle contentType beyond run st i id result).
Proof.
  intros st i id result Hc. unfold settle.
  set (st1 := mkWalk _ (Fastq.finished (q st) i) _ _ _ _ _).
  assert (H1 : has_client st1) by exact Hc.
  clearbody st1.
  assert (H2 : forall st2, release contentType beyond run st1 = Some st2 ->
                           has_client st2).
  { intros st2 Hr. unfold release in Hr.
    destruct (Fastq.next (q st1)) as [[[id' filePath] q']|].
    - apply invoke_worker_client in Hr. exact Hr.
    - injection Hr as <-. exact H1. }
  destruct (release contentType beyond run st1) as [st2|]; [|exact H1].
  specialize (H2 st2 eq_refl).
  destruct result as [e|key]; destruct (control st2);
    try (destruct (Nat.eqb id id0));
    try (apply push_all_client);
    try (apply wake_drained_client);
    exact H2.
Qed.

Lemma step_client : forall st ev st',
  step contentType beyond run st ev = Some st' ->
  has_client st -> has_client st'.
Proof.
  intros st ev st' H Hc. destruct ev as [i response]. unfold step in H.
  destruct (nth_error (Fastq.running (q st)) i) as [job|];
    [|destruct (control st); discriminate H].
  destruct job as [id e|id input retried].
  - destruct (control st); try discriminate H; injection H as <-;
      apply settle_client; exact Hc.
  - destruct (uploadToS3_answer _ _ _ _) as [client|result];
      destruct (control st); try discriminate H; injection H as <-;
      try (apply settle_client; exact Hc); discriminate.
Qed.

Lemma steps_client : forall evs st st',
  steps contentType beyond run st evs = Some st' ->
  has_client st -> has_client st'.
Proof.
  induction evs as [|ev more IH]; intros st st' H Hc.
  - injection H as <-. exact Hc.
  - cbn [steps] in H.
    destruct (step contentType beyond run st ev) as [st1|] eqn:Hs;
      [|discriminate H].
    apply (IH st1 st' H). apply (step_client st ev st1 Hs Hc).
Qed.

End Client.

Lemma stale_empty_prefix : forall U k,
  stale U "" k = negb (JS.includes U k).
Proof.
  intros U k. unfold stale, JS.startsWith. destruct k; reflexivity.
Qed.

(** C10: with an absent or empty prefix and the delete option set, the
    reconciliation that follows the uploads lists the bucket with the empty
    prefix, and once it has returned the deletes that were sent are exactly
    the listed keys that were not uploaded: the test on the prefix excludes
    nothing (object keys are not empty). *)
Theorem empty_prefix_spans_bucket :
  forall contentType beyond fs cwd d bkt opts evs st,
    prefix opts = None \/ prefix opts = Some "" ->
    delete opts = Some true ->
    steps contentType beyond
      (fst (s3SpaUpload contentType beyond fs cwd d bkt opts))
      (snd (s3SpaUpload contentType beyond fs cwd d bkt opts)) evs = Some st ->
    control st = Returned ->
    _s3client st <> None /\
    forall client,
      _s3client st = Some client ->
      let args := mkSweepArgs client bkt (uploadedS3Keys st) ""
                    (effective_concurrency (concurrency opts)) in
      s3SpaUpload_reconcile
        (fst (s3SpaUpload contentType beyond fs cwd d bkt opts)) st =
        Some (removeOldFiles args) /\
      sweep_sent (removeOldFiles args) =
        [(client, ListObjectsV2Command bkt "" None)] /\
      forall sevs sw n,
        sweep_steps args (removeOldFiles args) sevs = Some sw ->
        sweep_control sw = Swept n ->
        (forall k, In k (listed_keys (listing sevs)) -> k <> "") ->
        delete_keys (sweep_sent sw) =
          filter (fun k => negb (JS.includes (uploadedS3Keys st) k))
                 (listed_keys (listing sevs)).
Proof.
  intros contentType beyond fs cwd d bkt opts evs st Hp Hd Hsteps Hret.
  assert (Hnorm : normalized_prefix (prefix opts) = "")
    by (destruct Hp as [-> | ->]; reflexivity).
  assert (Hclient : has_client st).
  { apply (steps_client contentType beyond _ evs _ st Hsteps).
    unfold s3SpaUpload, walkDirectory. cbn [snd].
    destruct (buildFileList _ _); [discriminate|].
    destruct (Fastq.promise _); [discriminate|].
    apply push_all_client. discriminate. }
  assert (Hlimit : (1 <= effective_concurrency (concurrency opts))%Z).
  { pose proof (s3SpaUpload_begins contentType beyond fs cwd d bkt opts)
      as Hb. cbn zeta in Hb.
    destruct Hb as [((e & Hrej) & Hrun & _ & _) | (Hle & _)]; [|exact Hle].
    rewrite (steps_nothing_running contentType beyond _ evs _ st Hrun Hsteps)
      in Hret. congruence. }
  split; [exact Hclient|].
  intros client Hc args. split; [|split].
  - unfold s3SpaUpload_reconcile, s3SpaUpload.
    cbn [fst options delete prefix concurrency bucket].
    rewrite Hret, Hd, Hc, Hnorm. reflexivity.
  - unfold removeOldFiles, Fastq.promise. cbn [arg_concurrency args].
    apply Z.ltb_ge in Hlimit. unfold args. cbn [arg_concurrency].
    rewrite Hlimit. reflexivity.
  - intros sevs sw n Hsw Hdone Hne.
    destruct (sweep_sends_stale_keys args sevs sw Hsw) as [_ Hex].
    destruct (Hex n Hdone) as [_ [Hexact _]].
    rewrite (Hexact Hne). apply filter_ext. intro k.
    apply stale_empty_prefix.
Qed.

Lemma empty_prefix_spans_bucket_witness :
  exists st sw,
    steps Example.mime Example.beyond
      (fst (s3SpaUpload Example.mime Example.beyond Example.site "/srv" "site"
              "bucket" (Example.options_with None None)))
      (snd (s3SpaUpload Example.mime Example.beyond Example.site "/srv" "site"
              "bucket" (Example.options_with None None)))
      [Answer 0 None; Answer 0 None; Answer 0 None] = Some st /\
    uploadedS3Keys st = ["index.html"; "app.js"; "logo.png"] /\
    sweep_steps
      (mkSweepArgs {| region := None; credentials := None |} "bucket"
         (uploadedS3Keys st) "" 100%Z)
      (removeOldFiles
         (mkSweepArgs {| region := None; credentials := None |} "bucket"
            (uploadedS3Keys st) "" 100%Z))
      Example.sweep_events = Some sw /\
    delete_keys (sweep_sent sw) = ["old.txt"; "assets/gone.css"].
Proof.
  eexists. eexists. split; [vm_compute; reflexivity|].
  split; [reflexivity|]. split; [vm_compute; reflexivity|].
  match goal with
  | |- delete_keys (sweep_sent ?w) = _ =>
      set (sw := w)
  end.
  assert (Hp : prefix (Example.options_with None None) = None
               \/ prefix (Example.options_with None None) = Some "")
    by (left; reflexivity).
  destruct (empty_prefix_spans_bucket Example.mime Example.beyond Example.site
              "/srv" "site" "bucket" (Example.options_with None None)
              [Answer 0 None; Answer 0 None; Answer 0 None] _
              Hp eq_refl ltac:(vm_compute; reflexivity) eq_refl)
    as [_ H].
  destruct (H {| region := None; credentials := None |} eq_refl)
    as (_ & _ & Hdel).
  rewrite (Hdel Example.sweep_events sw 2%nat).
  - vm_compute. reflexivity.
  - vm_compute. reflexivity.
  - reflexivity.
  - intros k Hin. vm_compute in Hin.
    destruct Hin as [<-|[<-|[<-|[]]]]; discriminate.
Defined.

(** ** The reconciliation comes to an end *)

Lemma sweep_steps_app : forall args a b st,
  sweep_steps args st (a ++ b) =
  match sweep_steps args st a with
  | Some st' => sweep_steps args st' b
  | None => None
  end.
Proof.
  induction a as [|ev more IH]; intros b st; [reflexivity|].
  cbn [app sweep_steps]. destruct (sweep_step args st ev); [apply IH | reflexivity].
Qed.

Lemma pages_of_app : forall a b,
  pages_of (a ++ b) = (pages_of a ++ pages_of b)%list.
Proof.
  induction a as [|ev more IH]; intro b; [reflexivity|].
  destruct ev; cbn [app pages_of]; rewrite IH; reflexivity.
Qed.

Section Completion.

Variable args : SweepArgs.

Lemma submit_limit : forall objects st,
  Fastq.concurrency (dq (submit args st objects)) = Fastq.concurrency (dq st).
Proof.
  induction objects as [|obj more IH]; intro st; [reflexivity|].
  cbn [submit].
  destruct (is_old_file _ _ obj); [|apply IH].
  destruct (Listing.Key obj) as [key|]; [|apply IH].
  rewrite IH. unfold push_delete.
  destruct (Fastq.saturated (dq st)); reflexivity.
Qed.

Lemma sweep_drained_limit : forall st token,
  Fastq.concurrency (dq (sweep_drained args st token)) =
  Fastq.concurrency (dq st).
Proof.
  intros st token. unfold sweep_drained, next_page.
  destruct (Fastq.idle (dq st)); [|reflexivity].
  destruct (JS.truthy token); reflexivity.
Qed.

Lemma hand_over_limit : forall st,
  Fastq.concurrency (dq (hand_over args st)) = Fastq.concurrency (dq st).
Proof.
  intro st. unfold hand_over, Fastq.next.
  destruct (Fastq.waiting (dq st)); reflexivity.
Qed.

(** One acknowledgement of the delete that runs at position 0, during the
    wait for the deletions: either the wait is over, or one task less is
    outstanding. *)
Lemma answer_first : forall st token k rest,
  sweep_inv st ->
  sweep_control st = AwaitDeletions token ->
  Fastq.running (dq st) = k :: rest ->
  exists st',
    sweep_step args st (DeleteAnswer 0 None) = Some st' /\
    sweep_inv st' /\
    Fastq.concurrency (dq st') = Fastq.concurrency (dq st) /\
    ((sweep_control st' = AwaitPage /\ JS.truthy token = true) \/
     (sweep_control st' = Swept (deleted st') /\ JS.truthy token = false) \/
     (sweep_control st' = AwaitDeletions token /\
      S (length (Fastq.running (dq st')) + length (Fastq.waiting (dq st'))) =
      (length (Fastq.running (dq st)) + length (Fastq.waiting (dq st)))%nat)).
Proof.
  intros st token k rest Hinv Hc Hr.
  assert (Hn : nth_error (Fastq.running (dq st)) 0 = Some k)
    by (rewrite Hr; reflexivity).
  destruct Hinv as (Hf & Hq & Ha & Hcnt).
  destruct (answer_props args st 0 k None Hf Ha Hn)
    as (Hf2 & Ha2 & _ & _ & Hc2).
  cbn zeta in Hf2, Ha2, Hc2.
  assert (Hstep : sweep_step args st (DeleteAnswer 0 None) =
                  Some (sweep_drained args
                          (hand_over args (answered st 0 None)) token)).
  { cbn [sweep_step]. rewrite Hn. cbn zeta. rewrite Hc2, Hc. reflexivity. }
  eexists. split; [exact Hstep|].
  set (st2 := hand_over args (answered st 0 None)) in *.
  destruct (sweep_drained_props args st2 token Hf2 Ha2) as (Hinv' & _ & _ & _).
  cbn zeta in Hinv'. split; [exact Hinv'|]. split.
  - rewrite sweep_drained_limit. unfold st2. rewrite hand_over_limit.
    reflexivity.
  - unfold sweep_drained, next_page.
    destruct (Fastq.idle (dq st2)) eqn:Hi.
    + destruct (JS.truthy token).
      * left. split; reflexivity.
      * right. left. split; reflexivity.
    + right. right. split; [reflexivity|].
      cbn [dq]. unfold st2, hand_over, answered, Fastq.next, Fastq.finished.
      cbn [dq Fastq.waiting Fastq.running deleted
           sweep_control sweep_sent sweep_unhandled].
      rewrite Hr. cbn [Fastq.remove_nth].
      destruct (Fastq.waiting (dq st)) as [|w ws].
      * cbn [dq Fastq.running Fastq.waiting length]. lia.
      * unfold invoke_delete.
        cbn [dq Fastq.running Fastq.waiting Fastq.started length].
        rewrite length_app. cbn [length]. lia.
Qed.

(** The deletes that are outstanding can all be acknowledged, and then the
    wait for the deletions is over. *)
Lemma deletions_drain : forall m st token,
  sweep_inv st ->
  (1 <= Fastq.concurrency (dq st))%Z ->
  sweep_control st = AwaitDeletions token ->
  (length (Fastq.running (dq st)) + length (Fastq.waiting (dq st)))%nat = m ->
  exists evs st',
    pages_of evs = [] /\
    sweep_steps args st evs = Some st' /\
    sweep_inv st' /\
    Fastq.concurrency (dq st') = Fastq.concurrency (dq st) /\
    ((sweep_control st' = AwaitPage /\ JS.truthy token = true) \/
     (sweep_control st' = Swept (deleted st') /\ JS.truthy token = false)).
Proof.
  induction m as [|m IH]; intros st token Hinv Hlim Hc Hm.
  - exfalso. destruct Hinv as (_ & Hq & _). unfold quiet in Hq.
    rewrite Hc in Hq. unfold Fastq.idle in Hq.
    destruct (Fastq.running (dq st)); [|discriminate Hm].
    destruct (Fastq.waiting (dq st)); discriminate.
  - destruct (Fastq.running (dq st)) as [|k rest] eqn:Hr.
    + exfalso. pose proof Hinv as (Hf & Hq & _). unfold quiet in Hq.
      rewrite Hc in Hq. unfold Fastq.idle in Hq. rewrite Hr in Hq.
      destruct Hf as [Hw|Hsat].
      * rewrite Hw in Hq. discriminate Hq.
      * unfold Fastq.saturated in Hsat. rewrite Hr in Hsat.
        cbn [length Z.of_nat] in Hsat. rewrite Z.geb_leb in Hsat.
        apply Z.leb_le in Hsat. lia.
    + destruct (answer_first st token k rest Hinv Hc Hr)
        as (st1 & Hstep & Hinv1 & Hlim1 & Hcase).
      destruct Hcase as [Hdone | [Hdone | [Hc1 Hm1]]].
      * exists [DeleteAnswer 0 None], st1. cbn [sweep_steps pages_of].
        rewrite Hstep. split; [reflexivity|]. split; [reflexivity|].
        split; [exact Hinv1|]. split; [exact Hlim1|]. left. exact Hdone.
      * exists [DeleteAnswer 0 None], st1. cbn [sweep_steps pages_of].
        rewrite Hstep. split; [reflexivity|]. split; [reflexivity|].
        split; [exact Hinv1|]. split; [exact Hlim1|]. right. exact Hdone.
      * assert (Hm' : (length (Fastq.running (dq st1))
                       + length (Fastq.waiting (dq st1)))%nat = m).
        { rewrite Hr in Hm1. cbn [length] in Hm, Hm1. lia. }
        assert (Hlim' : (1 <= Fastq.concurrency (dq st1))%Z) by lia.
        destruct (IH st1 token Hinv1 Hlim' Hc1 Hm')
          as (evs & st' & Hp & Hsteps & Hinv' & Hlim2 & Hend).
        exists (DeleteAnswer 0 None :: evs), st'.
        cbn [sweep_steps pages_of]. rewrite Hstep.
        split; [exact Hp|]. split; [exact Hsteps|].
        split; [exact Hinv'|]. split; [congruence | exact Hend].
Qed.

(** A page arrives, its deletions are submitted and acknowledged: then the
    next page is requested, or the listing is over. *)
Lemma page_is_swept : forall st page,
  sweep_inv st ->
  (1 <= Fastq.concurrency (dq st))%Z ->
  sweep_control st = AwaitPage ->
  exists evs st',
    pages_of evs = [page] /\
    sweep_steps args st evs = Some st' /\
    sweep_inv st' /\
    Fastq.concurrency (dq st') = Fastq.concurrency (dq st) /\
    ((sweep_control st' = AwaitPage /\
      JS.truthy (Listing.NextContinuationToken page) = true) \/
     (sweep_control st' = Swept (deleted st') /\
      JS.truthy (Listing.NextContinuationToken page) = false)).
Proof.
  intros st page Hinv Hlim Hc.
  set (token := Listing.NextContinuationToken page).
  set (st0 := submit args st (JS.nullish (Listing.Contents page) [])).
  assert (Hstep : sweep_step args st (PageArrives page) =
                  Some (sweep_drained args st0 token)).
  { cbn [sweep_step]. rewrite Hc. reflexivity. }
  destruct (sweep_step_props args st _ _ Hinv Hstep) as (Hinv1 & _ & _).
  assert (Hlim1 : Fastq.concurrency (dq (sweep_drained args st0 token)) =
                  Fastq.concurrency (dq st)).
  { rewrite sweep_drained_limit. unfold st0. apply submit_limit. }
  assert (Hcase :
    (sweep_control (sweep_drained args st0 token) = AwaitPage /\
     JS.truthy token = true) \/
    (sweep_control (sweep_drained args st0 token)
       = Swept (deleted (sweep_drained args st0 token)) /\
     JS.truthy token = false) \/
    sweep_control (sweep_drained args st0 token) = AwaitDeletions token).
  { unfold sweep_drained, next_page. destruct (Fastq.idle (dq st0)).
    - destruct (JS.truthy token).
      + left. split; reflexivity.
      + right. left. split; reflexivity.
    - right. right. reflexivity. }
  set (st1 := sweep_drained args st0 token) in *.
  destruct Hcase as [Hdone | [Hdone | Hc1]].
  - exists [PageArrives page], st1. cbn [sweep_steps pages_of].
    rewrite Hstep. split; [reflexivity|]. split; [reflexivity|].
    split; [exact Hinv1|]. split; [exact Hlim1|]. left. exact Hdone.
  - exists [PageArrives page], st1. cbn [sweep_steps pages_of].
    rewrite Hstep. split; [reflexivity|]. split; [reflexivity|].
    split; [exact Hinv1|]. split; [exact Hlim1|]. right. exact Hdone.
  - assert (Hlim' : (1 <= Fastq.concurrency (dq st1))%Z) by lia.
    destruct (deletions_drain _ st1 token Hinv1 Hlim' Hc1 eq_refl)
      as (evs & st' & Hp & Hsteps & Hinv' & Hlim2 & Hend).
    exists (PageArrives page :: evs), st'. cbn [sweep_steps pages_of].
    rewrite Hstep, Hp. split; [reflexivity|]. split; [exact Hsteps|].
    split; [exact Hinv'|]. split; [congruence | exact Hend].
Qed.

Lemma listing_is_swept : forall pages st,
  sweep_inv st ->
  (1 <= Fastq.concurrency (dq st))%Z ->
  sweep_control st = AwaitPage ->
  chained pages ->
  exists evs st',
    pages_of evs = pages /\
    sweep_steps args st evs = Some st' /\
    sweep_control st' = Swept (deleted st').
Proof.
  induction pages as [|page more IH]; intros st Hinv Hlim Hc Hch.
  - destruct Hch.
  - destruct (page_is_swept st page Hinv Hlim Hc)
      as (evs & st1 & Hp & Hsteps & Hinv1 & Hlim1 & Hend).
    cbn [chained] in Hch. destruct more as [|page' more'].
    + destruct Hend as [[_ Ht] | [Hdone _]]; [congruence|].
      exists evs, st1. split; [exact Hp|]. split; [exact Hsteps | exact Hdone].
    + destruct Hch as [Ht Hch].
      destruct Hend as [[Hc1 _] | [_ Hf]]; [|congruence].
      assert (Hlim' : (1 <= Fastq.concurrency (dq st1))%Z) by lia.
      destruct (IH st1 Hinv1 Hlim' Hc1 Hch) as (evs' & st' & Hp' & Hs' & Hd').
      exists (evs ++ evs')%list, st'.
      rewrite pages_of_app, Hp, Hp', sweep_steps_app, Hsteps.
      split; [reflexivity|]. split; [exact Hs' | exact Hd'].
Qed.

End Completion.

(** With a limit of at least 1, for every listing, however it is split
    into pages, [removeOldFiles] has a run to its end: the pages arrive one
    after the other and every delete is acknowledged. *)
Lemma removeOldFiles_returns : forall args pages,
  (1 <= arg_concurrency args)%Z ->
  chained pages ->
  exists evs st,
    pages_of evs = pages /\
    sweep_steps args (removeOldFiles args) evs = Some st /\
    sweep_control st = Swept (deleted st).
Proof.
  intros args pages Hlim Hch.
  destruct (removeOldFiles_inv args) as [Hinv _].
  assert (E : removeOldFiles args =
              mkSweep (Fastq.mkQueue (arg_concurrency args) [] []) 0 AwaitPage
                [(arg_s3client args,
                  ListObjectsV2Command (arg_bucket args) (arg_prefix args)
                    None)] []).
  { unfold removeOldFiles, Fastq.promise. apply Z.ltb_ge in Hlim.
    rewrite Hlim. reflexivity. }
  apply listing_is_swept; try assumption.
  - rewrite E. exact Hlim.
  - rewrite E. reflexivity.
Qed.

(** ** The reconciliation deletes what is stale, and nothing else *)

(** C1: whatever pages arrive and in whatever order the deletes are
    answered, every delete that is sent is for a listed key that starts
    with the prefix and was not uploaded; and once [removeOldFiles] has
    returned, the deletes that were sent are exactly the listed keys that
    start with the prefix and were not uploaded, in the order of the
    listing (object keys are not empty), and the number returned counts
    those of them that were acknowledged; and with a limit of at least 1
    every listing, however it is split into pages, has a run in which
    [removeOldFiles] returns. *)
Theorem reconciliation_deletes_stale_keys :
  forall args,
    (forall evs st,
    sweep_steps args (removeOldFiles args) evs = Some st ->
    (forall k,
       In k (delete_keys (sweep_sent st)) ->
       In k (listed_keys (listing evs)) /\
       JS.startsWith k (arg_prefix args) = true /\
       ~ In k (arg_uploadedKeys args)) /\
    (forall n,
       sweep_control st = Swept n ->
       delete_keys (sweep_sent st) =
         filter (fun k => negb (String.eqb k "")
                          && stale (arg_uploadedKeys args) (arg_prefix args) k)
                (listed_keys (listing evs)) /\
       ((forall k, In k (listed_keys (listing evs)) -> k <> "") ->
        delete_keys (sweep_sent st) =
          filter (stale (arg_uploadedKeys args) (arg_prefix args))
                 (listed_keys (listing evs))) /\
       (n + length (sweep_unhandled st))%nat =
         length (delete_keys (sweep_sent st)))) /\
    (forall pages,
       (1 <= arg_concurrency args)%Z ->
       chained pages ->
       exists evs st,
         pages_of evs = pages /\
         sweep_steps args (removeOldFiles args) evs = Some st /\
         sweep_control st = Swept (deleted st)).
Proof.
  intro args. split.
  - intros evs st H. apply sweep_sends_stale_keys. exact H.
  - intros pages Hlim Hch. apply removeOldFiles_returns; assumption.
Qed.

Lemma reconciliation_deletes_stale_keys_witness :
  exists st,
    sweep_steps Example.sweep_args (removeOldFiles Example.sweep_args)
      Example.sweep_events = Some st /\
    sweep_control st = Swept 2 /\
    delete_keys (sweep_sent st) = ["old.txt"; "assets/gone.css"].
Proof.
  eexists. split; [vm_compute; reflexivity|]. split; [reflexivity|].
  match goal with
  | |- delete_keys (sweep_sent ?s) = _ =>
      assert (H : sweep_steps Example.sweep_args
                    (removeOldFiles Example.sweep_args)
                    Example.sweep_events = Some s)
        by (vm_compute; reflexivity);
      destruct (proj1 (reconciliation_deletes_stale_keys Example.sweep_args)
                  Example.sweep_events s H) as [_ Hdone];
      destruct (Hdone 2%nat eq_refl) as [_ [Hexact _]]
  end.
  rewrite Hexact; [vm_compute; reflexivity|].
  intros k Hin. vm_compute in Hin.
  destruct Hin as [<-|[<-|[<-|[]]]]; discriminate.
Defined.

(** * Further properties of the core *)

(** ** The options *)

(** X1: normalizing a prefix that is already normalized changes nothing, so
    an options object that [s3SpaUpload] has rewritten can be passed to it
    again. *)
Theorem normalized_prefix_idempotent : forall p : option string,
  normalized_prefix (Some (normalized_prefix p)) = normalized_prefix p.
Proof.
  intros [s|]; [|reflexivity].
  destruct (String.eqb_spec s "") as [->|Hne]; [reflexivity|].
  assert (Ht : JS.truthy (Some s) = true).
  { simpl. destruct (String.eqb_spec s ""); [contradiction | reflexivity]. }
  destruct (JS.endsWith s "/") eqn:E.
  - assert (Hn : normalized_prefix (Some s) = s)
      by (unfold normalized_prefix; rewrite Ht, E; reflexivity).
    rewrite Hn. exact Hn.
  - assert (Hn : normalized_prefix (Some s) = s ++ "/")
      by (unfold normalized_prefix; rewrite Ht, E; reflexivity).
    rewrite Hn. unfold normalized_prefix.
    assert (Ht' : JS.truthy (Some (s ++ "/")) = true)
      by (destruct s; reflexivity).
    rewrite Ht', endsWith_append. reflexivity.
Qed.

(** ** Cache-control resolution *)

Lemma In_insert_by_index : forall e l x,
  In x (JS.insert_by_index e l) <-> x = e \/ In x l.
Proof.
  intros e l x. induction l as [|y more IH]; simpl.
  - split; intros [H|H]; auto.
  - destruct (fst e <=? fst y)%N; simpl.
    + split; intros [H|H]; auto.
    + rewrite IH. split; intros [H|[H|H]]; auto.
Qed.

Lemma In_index_entries : forall (o : JS.object) kv,
  In kv (map snd (JS.index_entries o)) <->
  In kv o /\ JS.array_index (fst kv) <> None.
Proof.
  induction o as [|[k v] more IH]; intro kv.
  - simpl. split; [intros [] | intros [[] _]].
  - cbn [JS.index_entries]. destruct (JS.array_index k) as [i|] eqn:E.
    + rewrite in_map_iff. split.
      * intros ([j e] & He & Hin). cbn [snd] in He. subst e.
        apply In_insert_by_index in Hin. destruct Hin as [Hin|Hin].
        -- injection Hin as _ ->. split; [left; reflexivity|].
           cbn [fst]. congruence.
        -- assert (H : In kv (map snd (JS.index_entries more)))
             by (apply in_map_iff; exists (j, kv);
               split; [reflexivity | exact Hin]).
           apply IH in H. destruct H as [H1 H2].
           split; [right; exact H1 | exact H2].
      * intros [[Hin|Hin] Hne].
        -- subst kv. exists (i, (k, v)). split; [reflexivity|].
           apply In_insert_by_index. left. reflexivity.
        -- assert (H : In kv (map snd (JS.index_entries more)))
             by (apply IH; split; assumption).
           apply in_map_iff in H. destruct H as ([j e] & He & H).
           cbn [snd] in He. subst e. exists (j, kv). split; [reflexivity|].
           apply In_insert_by_index. right. exact H.
    + rewrite IH. split.
      * intros [H1 H2]. split; [right; exact H1 | exact H2].
      * intros [[Hin|Hin] Hne]; [|split; assumption].
        subst kv. cbn [fst] in Hne. contradiction.
Qed.

Lemma In_named_entries : forall (o : JS.object) kv,
  In kv (JS.named_entries o) <-> In kv o /\ JS.array_index (fst kv) = None.
Proof.
  induction o as [|[k v] more IH]; intro kv.
  - simpl. split; [intros [] | intros [[] _]].
  - cbn [JS.named_entries]. destruct (JS.array_index k) as [i|] eqn:E.
    + rewrite IH. split.
      * intros [H1 H2]. split; [right; exact H1 | exact H2].
      * intros [[Hin|Hin] Hn]; [|split; assumption].
        subst kv. cbn [fst] in Hn. congruence.
    + cbn [In]. rewrite IH. split.
      * intros [H|[H1 H2]].
        -- subst kv. split; [left; reflexivity | exact E].
        -- split; [right; exact H1 | exact H2].
      * intros [[Hin|Hin] Hn]; [left; exact Hin | right; split; assumption].
Qed.

(** [Object.entries] loses no property and invents none. *)
Lemma In_Object_entries : forall (o : JS.object) kv,
  In kv (JS.Object_entries o) <-> In kv o.
Proof.
  intros o kv. unfold JS.Object_entries.
  rewrite in_app_iff, In_index_entries, In_named_entries. split.
  - intros [[H _]|[H _]]; exact H.
  - intro H. destruct (JS.array_index (fst kv)) eqn:E.
    + left. split; [exact H | discriminate].
    + right. split; [exact H | reflexivity].
Qed.

(** X2: whether a path gets a cache-control value does not depend on the
    order of the mapping: it gets none exactly when no pattern of the
    mapping matches it, and a value that it gets is the value of a pattern
    of the mapping that matches it. *)
Theorem getCacheControl_some_pattern :
  forall beyond path (mapping : CacheControlMapping),
    (getCacheControl beyond path mapping = None <->
     forall g v, In (g, v) mapping -> minimatch beyond path g = false) /\
    (forall v,
       getCacheControl beyond path mapping = Some v ->
       exists g, In (g, v) mapping /\ minimatch beyond path g = true).
Proof.
  intros beyond path mapping. unfold getCacheControl. split.
  - rewrite first_match_none. split.
    + intros H g v Hin. apply (H (g, v)). apply In_Object_entries. exact Hin.
    + intros H [g v] Hin. apply (H g v). apply In_Object_entries. exact Hin.
  - intros v H. apply first_match_some in H.
    destruct H as (before & g & after & E & Hg & _).
    exists g. split; [|exact Hg].
    apply In_Object_entries. rewrite E. apply in_or_app. right. left.
    reflexivity.
Qed.

Lemma getCacheControl_some_pattern_witness :
  getCacheControl Example.beyond "/srv/site/LICENSE"
    DEFAULT_CACHE_CONTROL_MAPPING = None /\
  forall g v,
    In (g, v) DEFAULT_CACHE_CONTROL_MAPPING ->
    minimatch Example.beyond "/srv/site/LICENSE" g = false.
Proof.
  assert (H : getCacheControl Example.beyond "/srv/site/LICENSE"
                DEFAULT_CACHE_CONTROL_MAPPING = None)
    by (vm_compute; reflexivity).
  split; [exact H|].
  apply (proj1 (proj1 (getCacheControl_some_pattern Example.beyond
                         "/srv/site/LICENSE" DEFAULT_CACHE_CONTROL_MAPPING))).
  exact H.
Defined.

Lemma first_match_ext : forall beyond p1 p2 entries,
  (forall e, In e entries ->
     minimatch beyond p1 (fst e) = minimatch beyond p2 (fst e)) ->
  first_match beyond p1 entries = first_match beyond p2 entries.
Proof.
  intros beyond p1 p2 entries. induction entries as [|[g v] more IH]; intro H.
  - reflexivity.
  - cbn [first_match].
    pose proof (H (g, v) (or_introl eq_refl)) as Hg. cbn [fst] in Hg.
    rewrite Hg, IH; [reflexivity|]. intros e Hin. apply H. right. exact Hin.
Qed.

(** X3: with a mapping whose patterns have no separator (and are modelled
    and not blank), as those of the default mapping, the cache-control
    value of a file depends on its base name only: a file in a
    subdirectory is treated as the file of that name at the top. *)
Theorem getCacheControl_by_basename :
  forall beyond path (mapping : CacheControlMapping),
    (forall g v, In (g, v) mapping ->
       Minimatch.in_fragment g = true /\ no_separator g = true /\
       blank g = false) ->
    getCacheControl beyond path mapping =
    getCacheControl beyond (basename path) mapping.
Proof.
  intros beyond path mapping H. unfold getCacheControl.
  apply first_match_ext. intros [g v] Hin. cbn [fst].
  apply (proj1 (In_Object_entries mapping (g, v))) in Hin.
  destruct (H g v Hin) as (Hf & Hs & Hb).
  unfold minimatch. rewrite Hf. apply matchBase_basename; assumption.
Qed.

Lemma getCacheControl_by_basename_witness :
  getCacheControl Example.beyond "/srv/site/assets/js/app.js"
    DEFAULT_CACHE_CONTROL_MAPPING =
  getCacheControl Example.beyond (basename "/srv/site/assets/js/app.js")
    DEFAULT_CACHE_CONTROL_MAPPING /\
  getCacheControl Example.beyond "/srv/site/assets/js/app.js"
    DEFAULT_CACHE_CONTROL_MAPPING = Some CACHE_FOREVER.
Proof.
  split; [|vm_compute; reflexivity].
  apply getCacheControl_by_basename.
  intros g v Hin. simpl in Hin.
  repeat (destruct Hin as [Hin|Hin];
          [injection Hin as <- <-; repeat split; reflexivity|]).
  destruct Hin.
Defined.

(** ** The walk over the directory *)

(** Induction over the file system: a directory is reached from the empty
    directory by adding entries at the front. *)
Lemma Entry_nested_ind : forall P : Entry -> Prop,
  (forall body, P (File body)) ->
  P (Directory []) ->
  (forall name e more,
     P e -> P (Directory more) -> P (Directory ((name, e) :: more))) ->
  P Unreadable -> P Dangling -> P Other ->
  forall e, P e.
Proof.
  intros P Hfile Hnil Hcons Hu Hd Ho.
  fix IH 1. intros [body|entries| | |]; try assumption.
  - apply Hfile.
  - induction entries as [|[name e] more IHm]; [exact Hnil|].
    apply Hcons; [apply IH | exact IHm].
Qed.

(** What [buildFileList] does at one entry: it fails exactly when something
    at or below the entry cannot be read, and otherwise it keeps the paths
    collected so far and adds the paths of the regular files at or below the
    entry. *)
Lemma visit_spec : forall e filePath filePaths,
  match visit filePath e filePaths with
  | inr result =>
      readable e = true /\
      result = (filePaths ++ files_below filePath e)%list
  | inl _ => readable e = false
  end.
Proof.
  induction e as [body| |name e more IHe IHm| | |] using Entry_nested_ind;
    intros filePath filePaths.
  - cbn. split; reflexivity.
  - cbn. split; [reflexivity|]. rewrite app_nil_r. reflexivity.
  - change (visit filePath (Directory ((name, e) :: more)) filePaths)
      with (match visit (Path.join filePath name) e filePaths with
            | inr filePaths' => visit filePath (Directory more) filePaths'
            | inl err => inl err
            end).
    change (readable (Directory ((name, e) :: more)))
      with (readable e && readable (Directory more)).
    change (files_below filePath (Directory ((name, e) :: more)))
      with (files_below (Path.join filePath name) e
            ++ files_below filePath (Directory more))%list.
    specialize (IHe (Path.join filePath name) filePaths).
    destruct (visit (Path.join filePath name) e filePaths) as [err|acc].
    + rewrite IHe. reflexivity.
    + destruct IHe as (Hr & ->). rewrite Hr. cbn [andb].
      specialize (IHm filePath
                    (filePaths ++ files_below (Path.join filePath name) e)%list).
      destruct (visit filePath (Directory more) _) as [err|result].
      * exact IHm.
      * destruct IHm as (Hr' & ->). split; [exact Hr'|].
        rewrite app_assoc. reflexivity.
  - reflexivity.
  - reflexivity.
  - cbn. split; [reflexivity|]. rewrite app_nil_r. reflexivity.
Qed.

(** The list has one path for every regular file. *)
Lemma length_files_below : forall e p,
  length (files_below p e) = count_files e.
Proof.
  induction e as [body| |name e more IHe IHm| | |] using Entry_nested_ind;
    intro p; try reflexivity.
  change (files_below p (Directory ((name, e) :: more)))
    with (files_below (Path.join p name) e
          ++ files_below p (Directory more))%list.
  change (count_files (Directory ((name, e) :: more)))
    with (count_files e + count_files (Directory more))%nat.
  rewrite length_app, IHe, IHm. reflexivity.
Qed.

(** The paths of the list are the paths of the regular files, and no
    others. *)
Lemma In_files_below : forall e p q,
  In q (files_below p e) <-> file_at p e q.
Proof.
  induction e as [body| |name e more IHe IHm| | |] using Entry_nested_ind;
    intros p q.
  - cbn. split.
    + intros [<-|[]]. constructor.
    + intro H. inversion H; subst. left. reflexivity.
  - cbn. split; [intros [] | intro H; inversion H; subst].
    match goal with Hin : In _ [] |- _ => destruct Hin end.
  - change (files_below p (Directory ((name, e) :: more)))
      with (files_below (Path.join p name) e
            ++ files_below p (Directory more))%list.
    rewrite in_app_iff, IHe, IHm. split.
    + intros [H|H].
      * apply (file_below p _ name e q); [left; reflexivity | exact H].
      * inversion H as [|p' entries name' e' q' Hin Hat]; subst.
        apply (file_below p _ name' e' q); [right; exact Hin | exact Hat].
    + intro H. inversion H as [|p' entries name' e' q' Hin Hat]; subst.
      destruct Hin as [E|Hin].
      * injection E as <- <-. left. exact Hat.
      * right. apply (file_below p _ name' e' q); assumption.
  - cbn. split; [intros [] | intro H; inversion H].
  - cbn. split; [intros [] | intro H; inversion H].
  - cbn. split; [intros [] | intro H; inversion H].
Qed.

(** X4: [buildFileList] is all or nothing: it returns a list exactly when
    the path is a directory and nothing in it is unreadable or dangling,
    however deep.  The list is then the list of the paths of the regular
    files of the tree, depth first and in the order of the directories:
    a path is in the list exactly when it is the path of a regular file, the
    list has one path for each of them, and what is neither a file nor a
    directory adds nothing. *)
Theorem buildFileList_all_or_nothing : forall fs directoryPath,
  (forall files,
     buildFileList fs directoryPath = inr files ->
     exists entries,
       lookup fs directoryPath = Some (Directory entries) /\
       readable (Directory entries) = true /\
       files = files_below directoryPath (Directory entries) /\
       (forall q, In q files <->
                  file_at directoryPath (Directory entries) q) /\
       length files = count_files (Directory entries)) /\
  (forall entries,
     lookup fs directoryPath = Some (Directory entries) ->
     readable (Directory entries) = true ->
     buildFileList fs directoryPath =
     inr (files_below directoryPath (Directory entries))) /\
  (forall entries,
     lookup fs directoryPath = Some (Directory entries) ->
     readable (Directory entries) = false ->
     exists err, buildFileList fs directoryPath = inl err) /\
  ((forall entries, lookup fs directoryPath <> Some (Directory entries)) ->
   exists err, buildFileList fs directoryPath = inl err).
Proof.
  intros fs directoryPath. unfold buildFileList.
  assert (Hdir : forall entries,
            match visit directoryPath (Directory entries) [] with
            | inr result =>
                readable (Directory entries) = true /\
                result = files_below directoryPath (Directory entries)
            | inl _ => readable (Directory entries) = false
            end)
    by (intro entries; exact (visit_spec (Directory entries) directoryPath [])).
  split; [|split; [|split]].
  - intros files H.
    destruct (lookup fs directoryPath) as [[body|entries| | |]|];
      try discriminate H.
    exists entries. split; [reflexivity|].
    specialize (Hdir entries). rewrite H in Hdir. destruct Hdir as (Hr & ->).
    split; [exact Hr|]. split; [reflexivity|].
    split; [intro q; apply In_files_below | apply length_files_below].
  - intros entries -> Hr. specialize (Hdir entries).
    destruct (visit directoryPath (Directory entries) []) as [err|files].
    + congruence.
    + destruct Hdir as (_ & ->). reflexivity.
  - intros entries -> Hr. specialize (Hdir entries).
    destruct (visit directoryPath (Directory entries) []) as [err|files].
    + exists err. reflexivity.
    + destruct Hdir as (Hr' & _). congruence.
  - intro Hno.
    destruct (lookup fs directoryPath) as [[body|entries| | |]|];
      try (eexists; reflexivity).
    exfalso. exact (Hno entries eq_refl).
Qed.

Lemma buildFileList_all_or_nothing_witness :
  buildFileList Example.site "/srv/site" =
    inr ["/srv/site/index.html"; "/srv/site/app.js"; "/srv/site/logo.png"] /\
  exists files,
    buildFileList Example.site "/srv/site" = inr files /\
    files = ["/srv/site/index.html"; "/srv/site/app.js";
             "/srv/site/logo.png"] /\
    length files = 3%nat.
Proof.
  split; [vm_compute; reflexivity|].
  destruct (buildFileList_all_or_nothing Example.site "/srv/site")
    as (Hlist & Hsome & _).
  pose proof (Hsome [("index.html", File "<!doctype html>");
                     ("app.js", File "void 0;");
                     ("logo.png", File "PNG")] eq_refl eq_refl) as Hfiles.
  eexists. split; [exact Hfiles|].
  destruct (Hlist _ Hfiles) as (entries & Hl & _ & Heq & _ & Hlen).
  vm_compute in Hl. injection Hl as <-.
  split; [vm_compute; reflexivity | exact Hlen].
Defined.

(** ** The upload phase between two turns *)

Lemma put_keys_app : forall a b,
  put_keys (a ++ b) = (put_keys a ++ put_keys b)%list.
Proof.
  induction a as [|[c cmd] t IH]; intro b; [reflexivity|].
  destruct cmd; simpl; rewrite IH; reflexivity.
Qed.

Lemma prefix_append : forall p k, String.prefix p (p ++ k) = true.
Proof.
  induction p as [|c t IH]; intro k; [destruct k; reflexivity|].
  simpl. destruct (ascii_dec c c) as [_|Hne]; [apply IH|].
  contradiction Hne. reflexivity.
Qed.

Lemma unretried_app : forall a b,
  unretried (a ++ b) = (unretried a + unretried b)%nat.
Proof.
  induction a as [|j t IH]; intro b; [reflexivity|].
  destruct j as [id e|id input [|]]; simpl; rewrite IH; reflexivity.
Qed.

Lemma unretried_remove_nth : forall jobs i,
  (unretried (Fastq.remove_nth i jobs) <= unretried jobs)%nat.
Proof.
  induction jobs as [|j t IH]; intro i; destruct i as [|i'].
  - apply Nat.le_refl.
  - apply Nat.le_refl.
  - destruct j as [id e|id input [|]]; simpl; lia.
  - specialize (IH i'). destruct j as [id e|id input [|]]; simpl; lia.
Qed.

Lemma unretried_replace_nth : forall jobs i id input,
  nth_error jobs i = Some (Putting id input false) ->
  S (unretried (Fastq.replace_nth i (Putting id input true) jobs)) =
  unretried jobs.
Proof.
  induction jobs as [|j t IH]; intros i id input H; destruct i as [|i'];
    try discriminate H.
  - simpl in H. injection H as ->. reflexivity.
  - simpl in H. specialize (IH i' id input H).
    destruct j as [id' e|id' input' [|]]; simpl; lia.
Qed.

Lemma In_remove_nth : forall (A : Type) (l : list A) i x,
  In x (Fastq.remove_nth i l) -> In x l.
Proof.
  induction l as [|y t IH]; intros i x H; destruct i as [|i'].
  - exact H.
  - exact H.
  - right. exact H.
  - destruct H as [H|H]; [left; exact H | right; apply (IH i'); exact H].
Qed.

Lemma In_replace_nth : forall (A : Type) (l : list A) i y x,
  In x (Fastq.replace_nth i y l) -> x = y \/ In x l.
Proof.
  induction l as [|z t IH]; intros i y x H; destruct i as [|i'].
  - destruct H.
  - destruct H.
  - destruct H as [H|H]; [left; symmetry; exact H | right; right; exact H].
  - destruct H as [H|H]; [right; left; exact H|].
    destruct (IH i' y x H) as [E|Hin];
      [left; exact E | right; right; exact Hin].
Qed.

Section Upload.

Variable contentType : string -> option string.
Variable beyond : string -> string -> bool.
Variable run : Run.

(** What one worker invocation changes: there is a client, one more
    invocation is outstanding, and at most one request was sent, the put of
    that invocation. *)
Lemma invoke_worker_effect : forall st id filePath st',
  invoke_worker contentType beyond run st id filePath = Some st' ->
  exists client job new,
    st' = mkWalk (Some client) (Fastq.started (q st) job) (pushed st)
            (uploadedS3Keys st) (control st) (sent st ++ new)%list
            (unhandled st) /\
    ((exists err, job = Failing id err /\ new = []) \/
     (exists input,
        job = Putting id input false /\
        new = [(client, PutObjectCommand input)] /\
        upload_request (bucket run) (JS.nullish (prefix (options run)) "")
          (client, PutObjectCommand input))).
Proof.
  intros st id filePath st' H. unfold invoke_worker, uploadToS3 in H.
  destruct (relative_key (dir run) filePath) as [key|]; [|discriminate H].
  injection H as <-.
  set (client := JS.nullish (_s3client st) _).
  destruct (put_params _ _ _ _ _ _ _ _) as [err|input] eqn:Hp.
  - exists client, (Failing id err), []. rewrite app_nil_r.
    split; [reflexivity|]. left. exists err. split; reflexivity.
  - exists client, (Putting id input false), [(client, PutObjectCommand input)].
    split; [reflexivity|]. right. exists input.
    split; [reflexivity|]. split; [reflexivity|].
    unfold put_params in Hp.
    destruct (readFileSync (root run) filePath); [discriminate Hp|].
    injection Hp as <-. unfold upload_request. cbn.
    split; [reflexivity | apply prefix_append].
Qed.

Lemma invoke_worker_sound : forall st id filePath st',
  invoke_worker contentType beyond run st id filePath = Some st' ->
  Forall (upload_request (bucket run) (JS.nullish (prefix (options run)) ""))
         (sent st) ->
  (forall id input retried,
     In (Putting id input retried) (Fastq.running (q st)) ->
     exists client, In (client, PutObjectCommand input) (sent st)) ->
  (forall k, In k (uploadedS3Keys st) -> In k (put_keys (sent st))) ->
  Forall (upload_request (bucket run) (JS.nullish (prefix (options run)) ""))
         (sent st') /\
  (forall id input retried,
     In (Putting id input retried) (Fastq.running (q st')) ->
     exists client, In (client, PutObjectCommand input) (sent st')) /\
  (forall k, In k (uploadedS3Keys st') -> In k (put_keys (sent st'))) /\
  (length (sent st') + unretried (Fastq.running (q st'))
   <= length (sent st) + unretried (Fastq.running (q st)) + 2)%nat /\
  Fastq.waiting (q st') = Fastq.waiting (q st) /\
  pushed st' = pushed st.
Proof.
  intros st id filePath st' H Hs Hr Hu.
  destruct (invoke_worker_effect st id filePath st' H)
    as (client & job & new & -> & Hcase).
  cbn [sent q uploadedS3Keys pushed Fastq.running Fastq.started Fastq.waiting].
  rewrite put_keys_app, unretried_app, length_app.
  destruct Hcase as [(err & -> & ->) | (input & -> & -> & Hreq)].
  - cbn [put_keys unretried length]. rewrite !app_nil_r.
    split; [exact Hs|]. split.
    + intros id' input r Hin. apply in_app_or in Hin.
      destruct Hin as [Hin|[Hin|[]]]; [apply (Hr _ _ _ Hin) | discriminate Hin].
    + split; [exact Hu|]. split; [lia|]. split; reflexivity.
  - cbn [put_keys unretried length]. split.
    + apply Forall_app. split; [exact Hs|].
      constructor; [exact Hreq | constructor].
    + split.
      * intros id' input' r Hin. apply in_app_or in Hin.
        destruct Hin as [Hin|[Hin|[]]].
        -- destruct (Hr _ _ _ Hin) as (c & Hc). exists c.
           apply in_or_app. left. exact Hc.
        -- injection Hin as _ <- _. exists client.
           apply in_or_app. right. left. reflexivity.
      * split.
        -- intros k Hk. apply in_or_app. left. apply Hu. exact Hk.
        -- split; [lia|]. split; reflexivity.
Qed.

Lemma upload_sound_same : forall st st',
  sent st' = sent st -> q st' = q st ->
  uploadedS3Keys st' = uploadedS3Keys st -> pushed st' = pushed st ->
  upload_sound run st -> upload_sound run st'.
Proof.
  intros st st' Hs Hq Hu Hp H. unfold upload_sound in *.
  rewrite Hs, Hq, Hu, Hp. exact H.
Qed.

Lemma drained_same : forall st,
  sent (drained st) = sent st /\ q (drained st) = q st /\
  uploadedS3Keys (drained st) = uploadedS3Keys st /\
  pushed (drained st) = pushed st /\ unhandled (drained st) = unhandled st.
Proof.
  intro st. unfold drained. destruct (Fastq.idle (q st)); repeat split.
Qed.

Lemma wake_drained_same : forall st,
  sent (wake_drained st) = sent st /\ q (wake_drained st) = q st /\
  uploadedS3Keys (wake_drained st) = uploadedS3Keys st /\
  pushed (wake_drained st) = pushed st /\
  unhandled (wake_drained st) = unhandled st.
Proof.
  intro st. unfold wake_drained.
  destruct (control st); try (repeat split; fail). apply drained_same.
Qed.

Lemma push_sound : forall st filePath st',
  push contentType beyond run st filePath = Some st' ->
  upload_sound run st -> upload_sound run st'.
Proof.
  intros st filePath st' H (Hs & Hr & Hu & Hb). unfold push in H.
  destruct (Fastq.saturated (q st)).
  - injection H as <-. unfold upload_sound.
    cbn [sent q uploadedS3Keys pushed set_q Fastq.running Fastq.waiting
         Fastq.enqueue].
    rewrite length_app. cbn [length].
    split; [exact Hs|]. split; [exact Hr|]. split; [exact Hu | lia].
  - destruct (invoke_worker_sound _ _ _ _ H Hs Hr Hu)
      as (Hs' & Hr' & Hu' & Hb' & Hw' & Hp').
    cbn [sent q pushed] in Hb', Hw', Hp'.
    unfold upload_sound. rewrite Hw', Hp'.
    split; [exact Hs'|]. split; [exact Hr'|]. split; [exact Hu' | lia].
Qed.

Lemma upload_sound_control : forall st c,
  upload_sound run st -> upload_sound run (set_control st c).
Proof. intros st c H. exact H. Qed.

Lemma upload_sound_drained : forall st,
  upload_sound run st -> upload_sound run (drained st).
Proof.
  intros st H. destruct (drained_same st) as (E1 & E2 & E3 & E4 & _).
  apply (upload_sound_same st); assumption.
Qed.

Lemma upload_sound_wake_drained : forall st,
  upload_sound run st -> upload_sound run (wake_drained st).
Proof.
  intros st H. destruct (wake_drained_same st) as (E1 & E2 & E3 & E4 & _).
  apply (upload_sound_same st); assumption.
Qed.

Lemma push_all_sound : forall todo st,
  upload_sound run st ->
  upload_sound run (push_all contentType beyond run st todo).
Proof.
  induction todo as [|filePath more IH]; intros st H.
  - cbn [push_all]. apply upload_sound_drained. exact H.
  - cbn [push_all].
    destruct (push contentType beyond run st filePath) as [st'|] eqn:Hp.
    + apply push_sound in Hp; [|exact H].
      destruct (0 <? Fastq.length (q st'))%nat; [exact Hp | apply IH; exact Hp].
    + exact H.
Qed.

Lemma In_put_keys : forall client input requests,
  In (client, PutObjectCommand input) requests ->
  In (PutObject.Key input) (put_keys requests).
Proof.
  intros client input requests.
  induction requests as [|[c cmd] more IH]; intro H; [destruct H|].
  destruct H as [E|H].
  - injection E as -> ->. left. reflexivity.
  - destruct cmd; cbn [put_keys]; [right|..]; apply IH; exact H.
Qed.

Lemma settle_sound : forall st i id result,
  (forall key, result = inr key -> In key (put_keys (sent st))) ->
  upload_sound run st ->
  upload_sound run (settle contentType beyond run st i id result).
Proof.
  intros st i id result Hkey (Hs & Hr & Hu & Hb). unfold settle.
  set (st1 := mkWalk _ (Fastq.finished (q st) i) _ _ _ _ _).
  assert (H1 : upload_sound run st1).
  { unfold upload_sound, st1.
    cbn [sent q uploadedS3Keys pushed Fastq.running Fastq.waiting
         Fastq.finished].
    split; [exact Hs|]. split.
    - intros id' input r Hin. apply In_remove_nth in Hin. apply (Hr _ _ _ Hin).
    - split.
      + intros k Hk. destruct result as [e|key]; [apply Hu; exact Hk|].
        apply in_app_or in Hk. destruct Hk as [Hk|[<-|[]]].
        * apply Hu. exact Hk.
        * apply Hkey. reflexivity.
      + pose proof (unretried_remove_nth (Fastq.running (q st)) i). lia. }
  clearbody st1.
  assert (H2 : forall st2, release contentType beyond run st1 = Some st2 ->
                           upload_sound run st2).
  { intros st2 Hrel. unfold release in Hrel.
    destruct (Fastq.next (q st1)) as [[[id' filePath] q']|] eqn:Hn.
    - unfold Fastq.next in Hn.
      destruct (Fastq.waiting (q st1)) as [|w ws] eqn:Hw; [discriminate Hn|].
      injection Hn as _ <-.
      destruct H1 as (Hs1 & Hr1 & Hu1 & Hb1).
      destruct (invoke_worker_sound _ _ _ _ Hrel Hs1 Hr1 Hu1)
        as (Hs' & Hr' & Hu' & Hb' & Hw' & Hp').
      cbn [sent q pushed set_q Fastq.running Fastq.waiting] in Hb', Hw', Hp'.
      unfold upload_sound. rewrite Hw', Hp'. rewrite Hw in Hb1.
      cbn [length] in Hb1.
      split; [exact Hs'|]. split; [exact Hr'|]. split; [exact Hu' | lia].
    - injection Hrel as <-. exact H1. }
  destruct (release contentType beyond run st1) as [st2|]; [|exact H1].
  specialize (H2 st2 eq_refl).
  destruct result as [e|key]; destruct (control st2);
    try (destruct (Nat.eqb id id0));
    first [ exact H2
          | apply push_all_sound; exact H2
          | apply upload_sound_wake_drained; exact H2 ].
Qed.

Lemma step_sound : forall st ev st',
  step contentType beyond run st ev = Some st' ->
  upload_sound run st -> upload_sound run st'.
Proof.
  intros st ev st' H Hinv. destruct ev as [i response]. unfold step in H.
  destruct (nth_error (Fastq.running (q st)) i) as [job|] eqn:Hn;
    [|destruct (control st); discriminate H].
  assert (H' :
    match job with
    | Failing id e => Some (settle contentType beyond run st i id (inl e))
    | Putting id input retried =>
        match uploadToS3_answer (awsCredentials (options run)) input retried
                response with
        | Retry client =>
            Some (mkWalk (Some client)
                    (Fastq.replaced (q st) i (Putting id input true))
                    (pushed st) (uploadedS3Keys st) (control st)
                    (sent st ++ [(client, PutObjectCommand input)])%list
                    (unhandled st))
        | Finish result => Some (settle contentType beyond run st i id result)
        end
    end = Some st').
  { destruct (control st); try exact H. discriminate H. }
  clear H.
  destruct job as [id e|id input retried].
  - injection H' as <-. apply settle_sound; [discriminate | exact Hinv].
  - pose proof (nth_error_In _ _ Hn) as Hin.
    pose proof Hinv as (Hs & Hr & Hu & Hb).
    destruct (Hr _ _ _ Hin) as (c & Hc).
    destruct (uploadToS3_answer _ input retried response) as [client|result]
      eqn:Ha.
    + injection H' as <-.
      assert (Hret : retried = false).
      { pose proof (uploadToS3_answer_cases (awsCredentials (options run))
                      input retried response) as Hcases.
        rewrite Ha in Hcases. exact (proj1 Hcases). }
      subst retried.
      unfold upload_sound.
      cbn [sent q uploadedS3Keys pushed Fastq.running Fastq.waiting
           Fastq.replaced].
      rewrite put_keys_app, length_app. cbn [put_keys length].
      pose proof (unretried_replace_nth _ _ _ _ Hn) as Hun.
      split.
      * apply Forall_app. split; [exact Hs|]. constructor; [|constructor].
        rewrite Forall_forall in Hs. exact (Hs _ Hc).
      * split.
        -- intros id' input' r Hin'. apply In_replace_nth in Hin'.
           destruct Hin' as [E|Hin'].
           ++ injection E as _ -> _. exists c. apply in_or_app. left. exact Hc.
           ++ destruct (Hr _ _ _ Hin') as (c' & Hc'). exists c'.
              apply in_or_app. left. exact Hc'.
        -- split.
           ++ intros k Hk. apply in_or_app. left. apply Hu. exact Hk.
           ++ lia.
    + injection H' as <-. apply settle_sound; [|exact Hinv].
      intros key ->.
      pose proof (uploadToS3_answer_cases (awsCredentials (options run))
                    input retried response) as Hcases.
      rewrite Ha in Hcases. destruct Hcases as (_ & ->).
      apply (In_put_keys c). exact Hc.
Qed.

Lemma steps_sound : forall evs st st',
  steps contentType beyond run st evs = Some st' ->
  upload_sound run st -> upload_sound run st'.
Proof.
  induction evs as [|ev more IH]; intros st st' H Hinv.
  - injection H as <-. exact Hinv.
  - cbn [steps] in H.
    destruct (step contentType beyond run st ev) as [st1|] eqn:Hstep;
      [|discriminate H].
    apply (IH st1 st' H). apply (step_sound st ev st1 Hstep Hinv).
Qed.

(** *** The pace of the loop *)

Variable total : nat.

Lemma paced_of_quiet : forall st,
  Fastq.waiting (q st) = [] ->
  (control st = Returned -> Fastq.running (q st) = []) ->
  (pushed st + remaining (control st) <= total)%nat ->
  (given_up (control st) = false ->
   upload_count st = pushed st /\
   (pushed st + remaining (control st))%nat = total) ->
  paced total st.
Proof.
  intros st Hw Hr Hp Hc. unfold paced. rewrite Hw.
  split; [cbn; lia|]. split; [destruct (control st); trivial|].
  split; [exact Hr|]. split; [exact Hp | exact Hc].
Qed.

Lemma drained_paced : forall st,
  Fastq.waiting (q st) = [] ->
  (pushed st <= total)%nat ->
  (upload_count st = pushed st /\ pushed st = total) ->
  paced total (drained st).
Proof.
  intros st Hw Hp Hc. unfold drained.
  destruct (Fastq.idle (q st)) eqn:Hidle.
  - apply paced_of_quiet; cbn [q control pushed set_control remaining given_up].
    + exact Hw.
    + intros _. apply (idle_spec _ _ _ Hidle).
    + lia.
    + intros _. unfold upload_count in *. cbn [q set_control uploadedS3Keys
        unhandled pushed]. lia.
  - apply paced_of_quiet; cbn [q control pushed set_control remaining given_up].
    + exact Hw.
    + discriminate.
    + lia.
    + intros _. unfold upload_count in *. cbn [q set_control uploadedS3Keys
        unhandled pushed]. lia.
Qed.

Lemma invoke_worker_count : forall st id filePath st',
  invoke_worker contentType beyond run st id filePath = Some st' ->
  Fastq.waiting (q st') = Fastq.waiting (q st) /\
  length (Fastq.running (q st')) = S (length (Fastq.running (q st))) /\
  pushed st' = pushed st /\ control st' = control st /\
  uploadedS3Keys st' = uploadedS3Keys st /\ unhandled st' = unhandled st.
Proof.
  intros st id filePath st' H.
  destruct (invoke_worker_effect st id filePath st' H)
    as (client & job & new & -> & _).
  cbn [q Fastq.waiting Fastq.running Fastq.started pushed control
       uploadedS3Keys unhandled].
  rewrite length_app. cbn [length].
  repeat split. lia.
Qed.

Lemma push_count : forall st filePath st',
  push contentType beyond run st filePath = Some st' ->
  Fastq.waiting (q st) = [] ->
  pushed st' = S (pushed st) /\
  upload_count st' = S (upload_count st) /\
  (length (Fastq.waiting (q st')) <= 1)%nat /\
  ((0 <? Fastq.length (q st'))%nat = false -> Fastq.waiting (q st') = []).
Proof.
  intros st filePath st' H Hw. unfold push in H.
  destruct (Fastq.saturated (q st)).
  - injection H as <-. unfold upload_count, Fastq.length.
    cbn [q set_q pushed uploadedS3Keys unhandled Fastq.waiting Fastq.running
         Fastq.enqueue].
    rewrite Hw. cbn [app length].
    split; [reflexivity|]. split; [lia|]. split; [lia|].
    intro Hlt. discriminate Hlt.
  - destruct (invoke_worker_count _ _ _ _ H) as (E1 & E2 & E3 & _ & E5 & E6).
    cbn [q pushed uploadedS3Keys unhandled] in E1, E2, E3, E5, E6.
    unfold upload_count. rewrite E1, E2, E3, E5, E6, Hw. cbn [length].
    split; [reflexivity|]. split; [lia|]. split; [lia|]. reflexivity.
Qed.

Lemma push_all_paced : forall todo st,
  Fastq.waiting (q st) = [] ->
  upload_count st = pushed st ->
  (pushed st + length todo)%nat = total ->
  paced total (push_all contentType beyond run st todo).
Proof.
  induction todo as [|filePath more IH]; intros st Hw Hc Ht.
  - cbn [push_all]. cbn [length] in Ht. apply drained_paced; [exact Hw|lia|lia].
  - cbn [push_all]. cbn [length] in Ht.
    destruct (push contentType beyond run st filePath) as [st'|] eqn:Hp.
    + destruct (push_count _ _ _ Hp Hw) as (E1 & E2 & E3 & E4).
      destruct (0 <? Fastq.length (q st'))%nat.
      * unfold paced.
        cbn [q control pushed set_control remaining given_up].
        split; [exact E3|]. split; [exact I|]. split; [discriminate|].
        split; [lia|]. intros _. unfold upload_count in *.
        cbn [q set_control uploadedS3Keys unhandled pushed]. lia.
      * apply IH; [apply E4; reflexivity | lia | lia].
    + apply paced_of_quiet;
        cbn [q control pushed set_control remaining given_up];
        [exact Hw | discriminate | lia | discriminate].
Qed.

Lemma wake_drained_paced : forall st,
  Fastq.waiting (q st) = [] ->
  control st <> Returned ->
  (pushed st + remaining (control st) <= total)%nat ->
  (given_up (control st) = false ->
   upload_count st = pushed st /\
   (pushed st + remaining (control st))%nat = total) ->
  paced total (wake_drained st).
Proof.
  intros st Hw Hr Hp Hc. unfold wake_drained.
  destruct (control st) eqn:Hctl;
    try (apply paced_of_quiet; rewrite ?Hctl;
         [exact Hw | congruence | exact Hp | exact Hc]).
  cbn [remaining given_up] in Hp, Hc. destruct (Hc eq_refl) as (Hc1 & Hc2).
  apply drained_paced; [exact Hw | lia | split; lia].
Qed.

Lemma release_count : forall st st2,
  (length (Fastq.waiting (q st)) <= 1)%nat ->
  release contentType beyond run st = Some st2 ->
  Fastq.waiting (q st2) = [] /\
  (length (Fastq.running (q st2)) =
   length (Fastq.running (q st)) + length (Fastq.waiting (q st)))%nat /\
  pushed st2 = pushed st /\ control st2 = control st /\
  uploadedS3Keys st2 = uploadedS3Keys st /\ unhandled st2 = unhandled st.
Proof.
  intros st st2 Hw H. unfold release, Fastq.next in H.
  destruct (Fastq.waiting (q st)) as [|[id filePath] ws] eqn:Ew.
  - injection H as <-. rewrite Ew. cbn [length]. repeat split. lia.
  - destruct ws as [|w ws]; [|cbn [length] in Hw; lia].
    destruct (invoke_worker_count _ _ _ _ H) as (E1 & E2 & E3 & E4 & E5 & E6).
    cbn [q set_q pushed control uploadedS3Keys unhandled Fastq.waiting
         Fastq.running] in E1, E2, E3, E4, E5, E6.
    cbn [length]. repeat split; try assumption. lia.
Qed.

Lemma settle_paced : forall st i id result job,
  nth_error (Fastq.running (q st)) i = Some job ->
  paced total st ->
  paced total (settle contentType beyond run st i id result).
Proof.
  intros st i id result job Hn (P1 & P2 & P3 & P4 & P5). unfold settle.
  assert (Hnr : control st <> Returned).
  { intro E. rewrite (P3 E) in Hn. destruct i; discriminate Hn. }
  pose proof (length_remove_nth _ _ _ _ Hn) as Hlen.
  set (keys := match result with
               | inl _ => uploadedS3Keys st
               | inr key => (uploadedS3Keys st ++ [key])%list
               end).
  assert (Hkeys : length keys =
                  (length (uploadedS3Keys st) +
                   match result with inl _ => 0 | inr _ => 1 end)%nat).
  { unfold keys. destruct result; [lia|]. rewrite length_app. reflexivity. }
  clearbody keys.
  set (st1 := mkWalk _ (Fastq.finished (q st) i) _ keys _ _ _).
  destruct (release contentType beyond run st1) as [st2|] eqn:Hrel.
  - apply release_count in Hrel; [|exact P1].
    destruct Hrel as (E1 & E2 & E3 & E4 & E5 & E6).
    unfold st1 in E2, E3, E4, E5, E6.
    cbn [q pushed control uploadedS3Keys unhandled Fastq.running
         Fastq.waiting Fastq.finished] in E2, E3, E4, E5, E6.
    clear st1.
    assert (Hcount : given_up (control st) = false ->
              (length (uploadedS3Keys st2) + length (Fastq.running (q st2))
               + length (unhandled st2)
               + match result with inl _ => 1 | inr _ => 0 end)%nat
              = pushed st2 /\
              (pushed st2 + remaining (control st))%nat = total).
    { intro Hg. destruct (P5 Hg) as (C1 & C2). unfold upload_count in C1.
      rewrite E2, E3, E5, E6, Hkeys. destruct result; lia. }
    rewrite <- E3 in P4. rewrite <- E4 in P4, Hcount, Hnr.
    clear P1 P2 P3 P5 E2 E3 E5 E6 Hkeys Hlen Hn.
    destruct result as [e|key]; destruct (control st2) eqn:Hctl;
      try (destruct (Nat.eqb id id0));
      cbn [remaining given_up] in P4, Hcount;
      try (destruct (Hcount eq_refl) as (C1 & C2));
      try (exfalso; apply Hnr; reflexivity);
      first
        [ apply push_all_paced
        | apply wake_drained_paced
        | apply paced_of_quiet ];
      cbn [q control pushed uploadedS3Keys unhandled set_control];
      rewrite ?Hctl; cbn [remaining given_up];
      first
        [ exact E1 | congruence | lia | discriminate
        | intros _; unfold upload_count;
          cbn [q control pushed uploadedS3Keys unhandled set_control];
          rewrite ?length_app, ?E1; cbn [length]; lia
        | unfold upload_count; rewrite E1; cbn [length]; lia ].
  - unfold paced, st1.
    cbn [q control pushed set_control remaining given_up Fastq.waiting
         Fastq.finished].
    split; [exact P1|]. split; [exact I|]. split; [discriminate|].
    split; [lia | discriminate].
Qed.

Lemma step_paced : forall st ev st',
  step contentType beyond run st ev = Some st' ->
  paced total st -> paced total st'.
Proof.
  intros st ev st' H Hinv. destruct ev as [i response]. unfold step in H.
  destruct (nth_error (Fastq.running (q st)) i) as [job|] eqn:Hn;
    [|destruct (control st); discriminate H].
  assert (H' :
    match job with
    | Failing id e => Some (settle contentType beyond run st i id (inl e))
    | Putting id input retried =>
        match uploadToS3_answer (awsCredentials (options run)) input retried
                response with
        | Retry client =>
            Some (mkWalk (Some client)
                    (Fastq.replaced (q st) i (Putting id input true))
                    (pushed st) (uploadedS3Keys st) (control st)
                    (sent st ++ [(client, PutObjectCommand input)])%list
                    (unhandled st))
        | Finish result => Some (settle contentType beyond run st i id result)
        end
    end = Some st').
  { destruct (control st); try exact H. discriminate H. }
  clear H.
  destruct job as [id e|id input retried].
  - injection H' as <-. apply (settle_paced _ _ _ _ _ Hn Hinv).
  - destruct (uploadToS3_answer _ input retried response) as [client|result].
    + injection H' as <-. destruct Hinv as (P1 & P2 & P3 & P4 & P5).
      unfold paced, upload_count in *.
      cbn [q control pushed uploadedS3Keys unhandled Fastq.waiting
           Fastq.running Fastq.replaced].
      rewrite length_replace_nth.
      split; [exact P1|]. split; [exact P2|]. split.
      * intro E. rewrite (P3 E) in Hn. destruct i; discriminate Hn.
      * split; [exact P4 | exact P5].
    + injection H' as <-. apply (settle_paced _ _ _ _ _ Hn Hinv).
Qed.

Lemma steps_paced : forall evs st st',
  steps contentType beyond run st evs = Some st' ->
  paced total st -> paced total st'.
Proof.
  induction evs as [|ev more IH]; intros st st' H Hinv.
  - injection H as <-. exact Hinv.
  - cbn [steps] in H.
    destruct (step contentType beyond run st ev) as [st1|] eqn:Hstep;
      [|discriminate H].
    apply (IH st1 st' H). apply (step_paced st ev st1 Hstep Hinv).
Qed.

End Upload.

(** The state in which [s3SpaUpload] first suspends has both properties of
    the upload phase. *)
Lemma s3SpaUpload_sound : forall contentType beyond fs cwd d bucket opts,
  upload_sound (fst (s3SpaUpload contentType beyond fs cwd d bucket opts))
               (snd (s3SpaUpload contentType beyond fs cwd d bucket opts)).
Proof.
  intros contentType beyond fs cwd d bkt opts.
  unfold s3SpaUpload, walkDirectory. cbn [fst snd root dir options concurrency].
  set (run := mkRun _ _ _ _).
  set (st0 := mkWalk _ _ _ _ _ _ _).
  assert (H0 : forall q0 : Fastq.queue (nat * string) Job,
            Fastq.running q0 = [] -> Fastq.waiting q0 = [] ->
            upload_sound run (set_q st0 q0)).
  { intros q0 Hr Hw. unfold upload_sound.
    cbn [sent q uploadedS3Keys pushed set_q st0]. rewrite Hr, Hw.
    split; [constructor|]. split; [intros ? ? ? []|].
    split; [intros ? []|]. cbn. lia. }
  destruct (buildFileList fs (Path.resolve cwd d)) as [err|files].
  - apply upload_sound_control.
    exact (H0 (Fastq.mkQueue 0%Z [] []) eq_refl eq_refl).
  - unfold Fastq.promise. destruct (_ <? 1)%Z.
    + apply upload_sound_control.
      exact (H0 (Fastq.mkQueue 0%Z [] []) eq_refl eq_refl).
    + apply push_all_sound. apply H0; reflexivity.
Qed.

Lemma s3SpaUpload_paced : forall contentType beyond fs cwd d bucket opts files,
  buildFileList fs (Path.resolve cwd d) = inr files ->
  paced (length files)
        (snd (s3SpaUpload contentType beyond fs cwd d bucket opts)).
Proof.
  intros contentType beyond fs cwd d bkt opts files Hfiles.
  unfold s3SpaUpload, walkDirectory. cbn [fst snd root dir options concurrency].
  rewrite Hfiles. unfold Fastq.promise. destruct (_ <? 1)%Z.
  - apply paced_of_quiet; cbn;
        [reflexivity | discriminate | lia | discriminate].
  - apply push_all_paced; reflexivity.
Qed.

Lemma s3SpaUpload_paced_nothing :
  forall contentType beyond fs cwd d bucket opts err,
  buildFileList fs (Path.resolve cwd d) = inl err ->
  paced 0 (snd (s3SpaUpload contentType beyond fs cwd d bucket opts)).
Proof.
  intros contentType beyond fs cwd d bkt opts err Hfiles.
  unfold s3SpaUpload, walkDirectory. cbn [fst snd root dir options concurrency].
  rewrite Hfiles.
  apply paced_of_quiet; cbn; [reflexivity | discriminate | lia | discriminate].
Qed.

(** X5: back pressure.  Whatever the directory holds and in whatever order
    the puts are answered, at most one task waits in the queue of the upload
    phase, and only while the loop of [walkDirectory] is suspended on a
    push. *)
Theorem at_most_one_task_waits :
  forall contentType beyond fs cwd d bucket opts evs st,
    steps contentType beyond
      (fst (s3SpaUpload contentType beyond fs cwd d bucket opts))
      (snd (s3SpaUpload contentType beyond fs cwd d bucket opts)) evs =
    Some st ->
    (length (Fastq.waiting (q st)) <= 1)%nat /\
    ((forall id todo, control st <> AwaitPush id todo) ->
     control st <> Unmodelled ->
     Fastq.waiting (q st) = []).
Proof.
  intros contentType beyond fs cwd d bkt opts evs st Hsteps.
  assert (H : exists total, paced total st).
  { destruct (buildFileList fs (Path.resolve cwd d)) as [err|files] eqn:Hf.
    - exists 0%nat.
      apply (steps_paced contentType beyond _ _ evs _ st Hsteps).
      apply (s3SpaUpload_paced_nothing _ _ _ _ _ _ _ err Hf).
    - exists (length files).
      apply (steps_paced contentType beyond _ _ evs _ st Hsteps).
      apply (s3SpaUpload_paced _ _ _ _ _ _ _ files Hf). }
  destruct H as (total & P1 & P2 & _). split; [exact P1|].
  intros Hpush Hun. destruct (control st) eqn:Hctl; try exact P2.
  - exfalso. apply (Hpush id todo). reflexivity.
  - exfalso. apply Hun. reflexivity.
Qed.

Lemma at_most_one_task_waits_witness :
  exists st,
    steps Example.mime Example.beyond
      (fst (s3SpaUpload Example.mime Example.beyond Example.site "/srv" "site"
              "bucket" (Example.options_with None (Some 1%Z))))
      (snd (s3SpaUpload Example.mime Example.beyond Example.site "/srv" "site"
              "bucket" (Example.options_with None (Some 1%Z))))
      [] = Some st /\
    length (Fastq.waiting (q st)) = 1%nat /\
    (length (Fastq.waiting (q st)) <= 1)%nat.
Proof.
  eexists. split; [vm_compute; reflexivity|].
  split; [reflexivity|].
  apply (at_most_one_task_waits Example.mime Example.beyond Example.site
           "/srv" "site" "bucket" (Example.options_with None (Some 1%Z))
           []).
  vm_compute. reflexivity.
Defined.

(** X6: whatever the directory holds and in whatever order the puts are
    answered, every request of the upload phase is a put into the bucket
    given, with a key under the normalized prefix, and every key that is
    recorded as uploaded is the key of a put that was sent. *)
Theorem uploads_stay_under_prefix :
  forall contentType beyond fs cwd d bucket opts evs st,
    steps contentType beyond
      (fst (s3SpaUpload contentType beyond fs cwd d bucket opts))
      (snd (s3SpaUpload contentType beyond fs cwd d bucket opts)) evs =
    Some st ->
    Forall (upload_request bucket (normalized_prefix (prefix opts)))
           (sent st) /\
    (forall k, In k (uploadedS3Keys st) ->
       In k (put_keys (sent st)) /\
       JS.startsWith k (normalized_prefix (prefix opts)) = true).
Proof.
  intros contentType beyond fs cwd d bkt opts evs st Hsteps.
  pose proof (steps_sound contentType beyond _ evs _ st Hsteps
                (s3SpaUpload_sound contentType beyond fs cwd d bkt opts))
    as (Hs & _ & Hu & _).
  cbn [fst s3SpaUpload bucket options prefix JS.nullish] in Hs.
  split; [exact Hs|].
  intros k Hk. pose proof (Hu k Hk) as Hput. split; [exact Hput|].
  clear - Hs Hput. induction (sent st) as [|[c cmd] more IH]; [destruct Hput|].
  inversion Hs as [|r l Hr Hmore]; subst.
  destruct cmd as [input|b key|b p t]; cbn [put_keys] in Hput.
  - destruct Hput as [<-|Hput]; [exact (proj2 Hr) | exact (IH Hmore Hput)].
  - exact (IH Hmore Hput).
  - exact (IH Hmore Hput).
Qed.

Lemma uploads_stay_under_prefix_witness :
  exists st,
    steps Example.mime Example.beyond
      (fst (s3SpaUpload Example.mime Example.beyond Example.site "/srv" "site"
              "bucket" (Example.options_with (Some "v1") (Some 2%Z))))
      (snd (s3SpaUpload Example.mime Example.beyond Example.site "/srv" "site"
              "bucket" (Example.options_with (Some "v1") (Some 2%Z))))
      [Answer 1 None] = Some st /\
    put_keys (sent st) = ["v1/index.html"; "v1/app.js"; "v1/logo.png"] /\
    uploadedS3Keys st = ["v1/app.js"] /\
    Forall (upload_request "bucket" "v1/") (sent st).
Proof.
  eexists. split; [vm_compute; reflexivity|].
  split; [reflexivity|]. split; [reflexivity|].
  apply (uploads_stay_under_prefix Example.mime Example.beyond Example.site
           "/srv" "site" "bucket"
           (Example.options_with (Some "v1") (Some 2%Z)) [Answer 1 None]).
  vm_compute. reflexivity.
Defined.

(** X7: the upload phase pushes no file twice and sends at most two puts
    for a file, the second one after a redirect. *)
Theorem at_most_two_puts_per_file :
  forall contentType beyond fs cwd d bucket opts files evs st,
    buildFileList fs (Path.resolve cwd d) = inr files ->
    steps contentType beyond
      (fst (s3SpaUpload contentType beyond fs cwd d bucket opts))
      (snd (s3SpaUpload contentType beyond fs cwd d bucket opts)) evs =
    Some st ->
    (pushed st <= length files)%nat /\
    (length (sent st) <= 2 * pushed st)%nat.
Proof.
  intros contentType beyond fs cwd d bkt opts files evs st Hfiles Hsteps.
  pose proof (steps_sound contentType beyond _ evs _ st Hsteps
                (s3SpaUpload_sound contentType beyond fs cwd d bkt opts))
    as (_ & _ & _ & Hb).
  pose proof (steps_paced contentType beyond _ _ evs _ st Hsteps
                (s3SpaUpload_paced contentType beyond fs cwd d bkt opts files
                   Hfiles))
    as (_ & _ & _ & P4 & P5).
  split; lia.
Qed.

Lemma at_most_two_puts_per_file_witness :
  exists st,
    steps Example.mime Example.beyond
      (fst (s3SpaUpload Example.mime Example.beyond Example.site "/srv" "site"
              "bucket" (Example.options_with None (Some 2%Z))))
      (snd (s3SpaUpload Example.mime Example.beyond Example.site "/srv" "site"
              "bucket" (Example.options_with None (Some 2%Z))))
      [Answer 0 (Some {| Code := Some "PermanentRedirect";
                         Endpoint :=
                           Some "bucket.s3.eu-west-1.amazonaws.com" |})]
    = Some st /\
    length (sent st) = 3%nat /\
    (pushed st <= 3)%nat /\ (length (sent st) <= 2 * pushed st)%nat.
Proof.
  eexists. split; [vm_compute; reflexivity|].
  split; [reflexivity|].
  apply (at_most_two_puts_per_file Example.mime Example.beyond Example.site
           "/srv" "site" "bucket" (Example.options_with None (Some 2%Z))
           ["/srv/site/index.html"; "/srv/site/app.js"; "/srv/site/logo.png"]
           [Answer 0 (Some {| Code := Some "PermanentRedirect";
                              Endpoint :=
                                Some "bucket.s3.eu-west-1.amazonaws.com" |})]).
  - vm_compute. reflexivity.
  - vm_compute. reflexivity.
Defined.

(** ** The requests and the queue of the reconciliation *)

Section SweepShape.

Variable args : SweepArgs.

Lemma invoke_delete_shape : forall st key,
  Forall (sweep_request args) (sweep_sent st) ->
  Fastq.saturated (dq st) = false ->
  sweep_shape args (invoke_delete args st key).
Proof.
  intros st key Hs Hsat. unfold sweep_shape, invoke_delete, within_limit.
  cbn [sweep_sent dq Fastq.running Fastq.concurrency Fastq.started].
  split.
  - apply Forall_app. split; [exact Hs|].
    constructor; [|constructor]. split; reflexivity.
  - unfold Fastq.saturated in Hsat. rewrite Z.geb_leb in Hsat.
    apply Z.leb_gt in Hsat. rewrite length_app. cbn [length]. lia.
Qed.

Lemma push_delete_shape : forall st key,
  sweep_shape args st -> sweep_shape args (push_delete args st key).
Proof.
  intros st key (Hs & Hl). unfold push_delete.
  destruct (Fastq.saturated (dq st)) eqn:Hsat.
  - split; [exact Hs | exact Hl].
  - apply invoke_delete_shape; assumption.
Qed.

Lemma submit_shape : forall objects st,
  sweep_shape args st -> sweep_shape args (submit args st objects).
Proof.
  induction objects as [|obj more IH]; intros st H; [exact H|].
  cbn [submit]. destruct (is_old_file _ _ obj); [|apply IH; exact H].
  destruct (Listing.Key obj) as [key|]; [|apply IH; exact H].
  apply IH. apply push_delete_shape. exact H.
Qed.

Lemma sweep_drained_shape : forall st token,
  sweep_shape args st -> sweep_shape args (sweep_drained args st token).
Proof.
  intros st token (Hs & Hl). unfold sweep_drained, next_page.
  destruct (Fastq.idle (dq st)); [|split; [exact Hs | exact Hl]].
  destruct (JS.truthy token) eqn:Ht; [|split; [exact Hs | exact Hl]].
  split; [|exact Hl]. cbn [sweep_sent].
  apply Forall_app. split; [exact Hs|]. constructor; [|constructor].
  split; [reflexivity|]. cbn [snd].
  split; [reflexivity|]. split; [reflexivity|]. right. exact Ht.
Qed.

Lemma hand_over_answered_shape : forall st i key response,
  nth_error (Fastq.running (dq st)) i = Some key ->
  sweep_shape args st ->
  sweep_shape args (hand_over args (answered st i response)).
Proof.
  intros st i key response Hn (Hs & Hl).
  pose proof (length_remove_nth _ _ _ _ Hn) as Hlen.
  unfold within_limit in Hl. unfold hand_over, Fastq.next.
  cbn [answered dq Fastq.waiting Fastq.finished].
  destruct (Fastq.waiting (dq st)) as [|w ws].
  - split; [exact Hs|]. unfold within_limit.
    cbn [answered dq Fastq.running Fastq.concurrency Fastq.finished]. lia.
  - apply invoke_delete_shape; [exact Hs|].
    cbn [dq sweep_sent deleted sweep_control sweep_unhandled answered
         Fastq.finished Fastq.running Fastq.concurrency].
    unfold Fastq.saturated. cbn [Fastq.running Fastq.concurrency].
    rewrite Z.geb_leb. apply Z.leb_gt. lia.
Qed.

Lemma sweep_step_shape : forall st ev st',
  sweep_step args st ev = Some st' ->
  sweep_shape args st -> sweep_shape args st'.
Proof.
  intros st ev st' H Hinv. destruct ev as [page|e|i response];
    cbn [sweep_step] in H.
  - destruct (sweep_control st); try discriminate H. injection H as <-.
    apply sweep_drained_shape. apply submit_shape. exact Hinv.
  - destruct (sweep_control st); try discriminate H. injection H as <-.
    exact Hinv.
  - destruct (nth_error (Fastq.running (dq st)) i) as [key|] eqn:Hn;
      [|discriminate H].
    cbn zeta in H. injection H as <-.
    pose proof (hand_over_answered_shape st i key response Hn Hinv) as H2.
    destruct (sweep_control (hand_over args (answered st i response)));
      try exact H2.
    apply sweep_drained_shape. exact H2.
Qed.

Lemma sweep_steps_shape : forall evs st st',
  sweep_steps args st evs = Some st' ->
  sweep_shape args st -> sweep_shape args st'.
Proof.
  induction evs as [|ev more IH]; intros st st' H Hinv.
  - injection H as <-. exact Hinv.
  - cbn [sweep_steps] in H.
    destruct (sweep_step args st ev) as [st1|] eqn:Hstep; [|discriminate H].
    apply (IH st1 st' H). apply (sweep_step_shape st ev st1 Hstep Hinv).
Qed.

Lemma removeOldFiles_concurrency :
  (1 <= arg_concurrency args)%Z ->
  Fastq.concurrency (dq (removeOldFiles args)) = arg_concurrency args.
Proof.
  intro H. unfold removeOldFiles, Fastq.promise.
  apply Z.ltb_ge in H. rewrite H. reflexivity.
Qed.

Lemma sweep_steps_concurrency : forall evs st st',
  sweep_steps args st evs = Some st' ->
  Fastq.concurrency (dq st') = Fastq.concurrency (dq st).
Proof.
  induction evs as [|ev more IH]; intros st st' H.
  - injection H as <-. reflexivity.
  - cbn [sweep_steps] in H.
    destruct (sweep_step args st ev) as [st1|] eqn:Hstep; [|discriminate H].
    rewrite (IH st1 st' H). clear IH H.
    destruct ev as [page|e|i response]; cbn [sweep_step] in Hstep.
    + destruct (sweep_control st); try discriminate Hstep.
      injection Hstep as <-. rewrite sweep_drained_limit. apply submit_limit.
    + destruct (sweep_control st); try discriminate Hstep.
      injection Hstep as <-. reflexivity.
    + destruct (nth_error (Fastq.running (dq st)) i); [|discriminate Hstep].
      cbn zeta in Hstep. injection Hstep as <-.
      destruct (sweep_control (hand_over args (answered st i response)));
        rewrite ?sweep_drained_limit, hand_over_limit; reflexivity.
Qed.

Lemma removeOldFiles_shape : sweep_shape args (removeOldFiles args).
Proof.
  unfold removeOldFiles, Fastq.promise.
  destruct (arg_concurrency args <? 1)%Z eqn:H.
  - split; [constructor|]. unfold within_limit. cbn. lia.
  - split.
    + constructor; [|constructor]. split; [reflexivity|]. cbn [snd].
      split; [reflexivity|]. split; [reflexivity|]. left. reflexivity.
    + unfold within_limit. cbn. apply Z.ltb_ge in H. lia.
Qed.

End SweepShape.

(** X9: whatever pages arrive and however the deletes are answered, every
    request of [removeOldFiles] goes through the client it was given and is
    a delete in its bucket or a listing of that bucket under its prefix,
    whose continuation token is absent or not empty; it never puts. *)
Theorem reconciliation_requests :
  forall args evs st,
    sweep_steps args (removeOldFiles args) evs = Some st ->
    Forall (sweep_request args) (sweep_sent st) /\
    put_keys (sweep_sent st) = [].
Proof.
  intros args evs st H.
  destruct (sweep_steps_shape args evs _ st H (removeOldFiles_shape args))
    as (Hs & _).
  split; [exact Hs|].
  induction (sweep_sent st) as [|[c cmd] more IH]; [reflexivity|].
  inversion Hs as [|r l Hr Hmore]; subst.
  destruct cmd as [input|b k|b p t]; cbn [put_keys].
  - destruct Hr as (_ & []).
  - exact (IH Hmore).
  - exact (IH Hmore).
Qed.

Lemma reconciliation_requests_witness :
  exists st,
    sweep_steps Example.sweep_args (removeOldFiles Example.sweep_args)
      Example.sweep_events = Some st /\
    length (sweep_sent st) = 4%nat /\
    Forall (sweep_request Example.sweep_args) (sweep_sent st) /\
    put_keys (sweep_sent st) = [].
Proof.
  eexists. split; [vm_compute; reflexivity|].
  split; [reflexivity|].
  apply (reconciliation_requests Example.sweep_args Example.sweep_events).
  vm_compute. reflexivity.
Defined.

(** X10: with a limit of at least 1, the deletes of [removeOldFiles] that
    are outstanding never exceed the limit, whatever pages arrive and
    however the deletes are answered. *)
Theorem outstanding_deletes_bounded :
  forall args evs st,
    (1 <= arg_concurrency args)%Z ->
    sweep_steps args (removeOldFiles args) evs = Some st ->
    (Z.of_nat (length (Fastq.running (dq st))) <= arg_concurrency args)%Z.
Proof.
  intros args evs st Hle H.
  destruct (sweep_steps_shape args evs _ st H (removeOldFiles_shape args))
    as (_ & Hl).
  unfold within_limit in Hl.
  rewrite (sweep_steps_concurrency args evs _ st H) in Hl.
  rewrite (removeOldFiles_concurrency args Hle) in Hl. exact Hl.
Qed.

Lemma outstanding_deletes_bounded_witness :
  exists st,
    sweep_steps Example.sweep_args (removeOldFiles Example.sweep_args)
      [PageArrives Example.first_page] = Some st /\
    length (Fastq.running (dq st)) = 1%nat /\
    (Z.of_nat (length (Fastq.running (dq st))) <= 2)%Z.
Proof.
  eexists. split; [vm_compute; reflexivity|].
  split; [reflexivity|].
  apply (outstanding_deletes_bounded Example.sweep_args
           [PageArrives Example.first_page]).
  - vm_compute. discriminate.
  - vm_compute. reflexivity.
Defined.

(** X11: the two phases together, for any prefix.  When [s3SpaUpload]
    starts the reconciliation, [walkDirectory] has returned, the delete
    option is set, and [removeOldFiles] is called with the client of that
    moment, the keys recorded as uploaded and the normalized prefix; every
    delete it sends from then on is of a listed key under the normalized
    prefix that was not recorded as uploaded. *)
Theorem reconciliation_spares_uploads :
  forall contentType beyond fs cwd d bkt opts evs st sw0,
    steps contentType beyond
      (fst (s3SpaUpload contentType beyond fs cwd d bkt opts))
      (snd (s3SpaUpload contentType beyond fs cwd d bkt opts)) evs = Some st ->
    s3SpaUpload_reconcile
      (fst (s3SpaUpload contentType beyond fs cwd d bkt opts)) st = Some sw0 ->
    control st = Returned /\ delete opts = Some true /\
    exists client,
      _s3client st = Some client /\
      let args := mkSweepArgs client bkt (uploadedS3Keys st)
                    (normalized_prefix (prefix opts))
                    (effective_concurrency (concurrency opts)) in
      sw0 = removeOldFiles args /\
      forall sevs sw k,
        sweep_steps args sw0 sevs = Some sw ->
        In k (delete_keys (sweep_sent sw)) ->
        In k (listed_keys (listing sevs)) /\
        JS.startsWith k (normalized_prefix (prefix opts)) = true /\
        ~ In k (uploadedS3Keys st).
Proof.
  intros contentType beyond fs cwd d bkt opts evs st sw0 Hsteps Hrec.
  unfold s3SpaUpload_reconcile in Hrec.
  cbn [fst s3SpaUpload options delete prefix concurrency bucket JS.nullish]
    in Hrec.
  destruct (control st); try discriminate Hrec.
  destruct (delete opts) as [[|]|]; try discriminate Hrec.
  destruct (_s3client st) as [client|]; [|discriminate Hrec].
  split; [reflexivity|]. split; [reflexivity|].
  exists client. split; [reflexivity|]. cbn zeta.
  assert (Hc : effective_concurrency
                 (Some (effective_concurrency (concurrency opts))) =
               effective_concurrency (concurrency opts)) by reflexivity.
  rewrite Hc in Hrec. injection Hrec as <-.
  split; [reflexivity|].
  intros sevs sw k Hsw Hin.
  destruct (sweep_sends_stale_keys _ sevs sw Hsw) as (Hdel & _).
  exact (Hdel k Hin).
Qed.

Lemma reconciliation_spares_uploads_witness :
  exists st sw0,
    steps Example.mime Example.beyond
      (fst (s3SpaUpload Example.mime Example.beyond Example.site "/srv" "site"
              "bucket" (Example.options_with (Some "v1") (Some 2%Z))))
      (snd (s3SpaUpload Example.mime Example.beyond Example.site "/srv" "site"
              "bucket" (Example.options_with (Some "v1") (Some 2%Z))))
      [Answer 0 None; Answer 0 None; Answer 0 None] = Some st /\
    s3SpaUpload_reconcile
      (fst (s3SpaUpload Example.mime Example.beyond Example.site "/srv" "site"
              "bucket" (Example.options_with (Some "v1") (Some 2%Z))))
      st = Some sw0 /\
    uploadedS3Keys st = ["v1/index.html"; "v1/app.js"; "v1/logo.png"] /\
    sweep_sent sw0 =
      [({| region := None; credentials := None |},
        ListObjectsV2Command "bucket" "v1/" None)] /\
    control st = Returned /\
    delete (Example.options_with (Some "v1") (Some 2%Z)) = Some true.
Proof.
  eexists. eexists. split; [vm_compute; reflexivity|].
  split; [vm_compute; reflexivity|].
  split; [reflexivity|]. split; [reflexivity|].
  destruct (reconciliation_spares_uploads Example.mime Example.beyond
              Example.site "/srv" "site" "bucket"
              (Example.options_with (Some "v1") (Some 2%Z))
              [Answer 0 None; Answer 0 None; Answer 0 None] _ _
              ltac:(vm_compute; reflexivity) ltac:(vm_compute; reflexivity))
    as (H1 & H2 & _).
  split; [exact H1 | exact H2].
Defined.

(** ** The command line wrapper and the earlier revision *)

(** The loop of [walkDirectory] does not reject before its first
    suspension. *)
Lemma push_all_not_rejected : forall contentType beyond run todo st e,
  control (push_all contentType beyond run st todo) <> Rejected e.
Proof.
  intros contentType beyond run.
  induction todo as [|filePath more IH]; intros st e.
  - cbn [push_all]. unfold drained.
    destruct (Fastq.idle (q st)); discriminate.
  - cbn [push_all].
    destruct (push contentType beyond run st filePath) as [st'|];
      [|discriminate].
    destruct (0 <? Fastq.length (q st'))%nat; [discriminate | apply IH].
Qed.

(** The check of [main] on an integer is the check of the parser. *)
Lemma below_one_integer : forall z,
  below_one (Integer z) = negb (cli_check (Some z)).
Proof. intro z. cbn. rewrite negb_involutive. reflexivity. Qed.

(** X12: [main] refuses exactly the concurrencies that are numbers below 1.
    [NaN], which the parser delivers for text that is no number, is not
    below 1: the check lets it through and [s3SpaUpload] is called with it.
    A run that [main] starts with an integer concurrency, the one given or
    100, has a concurrency of at least 1 and no credentials of its own; its
    [walkDirectory] is rejected at the start only when the directory cannot
    be listed, never by the queue, which has that concurrency as limit. *)
Theorem main_starts_with_valid_concurrency :
  forall contentType beyond JSON_parse fs cwd argv,
    (main contentType beyond JSON_parse fs cwd argv = ArgumentsRefused <->
     exists n, argv_concurrency argv = Some n /\ below_one n = true) /\
    (argv_concurrency argv = Some NaN ->
     (exists e, main contentType beyond JSON_parse fs cwd argv = ReadFailed e)
     \/ main contentType beyond JSON_parse fs cwd argv = ParseFailed
     \/ main contentType beyond JSON_parse fs cwd argv = StartedOutside NaN) /\
    (forall run st,
       main contentType beyond JSON_parse fs cwd argv = Started run st ->
       exists c,
         JS.nullish (argv_concurrency argv) (Integer 100%Z) = Integer c /\
         (1 <= c)%Z /\
         concurrency (options run) = Some c /\
         awsCredentials (options run) = None /\
         root run = fs /\
         dir run = Path.resolve cwd (directory argv) /\
         bucket run = bucketname argv /\
         prefix (options run) = Some (normalized_prefix (argv_prefix argv)) /\
         match buildFileList fs (Path.resolve cwd (directory argv)) with
         | inl err => control st = Rejected err
         | inr _ =>
             Fastq.concurrency (q st) = c /\
             forall e, control st <> Rejected e
         end).
Proof.
  intros contentType beyond JSON_parse fs cwd argv.
  (* what [main] does once the check has passed *)
  assert (Hpassed :
    below_one (JS.nullish (argv_concurrency argv) (Integer 100%Z)) = false ->
    (exists e, main contentType beyond JSON_parse fs cwd argv = ReadFailed e)
    \/ main contentType beyond JSON_parse fs cwd argv = ParseFailed
    \/ exists mapping,
         main contentType beyond JSON_parse fs cwd argv =
         match JS.nullish (argv_concurrency argv) (Integer 100%Z) with
         | Integer z =>
             let rs :=
               s3SpaUpload contentType beyond fs cwd (directory argv)
                 (bucketname argv)
                 {| delete := argv_delete argv;
                    cacheControlMapping := mapping;
                    awsCredentials := None;
                    prefix := argv_prefix argv;
                    concurrency := Some z |} in
             Started (fst rs) (snd rs)
         | n => StartedOutside n
         end).
  { intro Hcheck. unfold main. rewrite Hcheck. cbv zeta.
    destruct (cache_control_mapping argv) as [path|];
      [|right; right; exists None;
        destruct (JS.nullish (argv_concurrency argv) (Integer 100%Z));
        reflexivity].
    destruct (JS.truthy (Some path));
      [|right; right; exists None;
        destruct (JS.nullish (argv_concurrency argv) (Integer 100%Z));
        reflexivity].
    destruct (readFileSync fs (Path.resolve cwd path)) as [err|text];
      [left; exists err; reflexivity|].
    destruct (JSON_parse text) as [mapping|]; [|right; left; reflexivity].
    right. right. exists (Some mapping).
    destruct (JS.nullish (argv_concurrency argv) (Integer 100%Z));
      reflexivity. }
  split; [|split].
  - split.
    + intro H.
      destruct (below_one (JS.nullish (argv_concurrency argv) (Integer 100%Z)))
        eqn:Hcheck.
      * destruct (argv_concurrency argv) as [n|]; [|discriminate Hcheck].
        exists n. split; [reflexivity | exact Hcheck].
      * destruct (Hpassed eq_refl) as [(e & E)|[E|(mapping & E)]];
          rewrite E in H; try discriminate H.
        destruct (JS.nullish (argv_concurrency argv) (Integer 100%Z));
          discriminate H.
    + intros (n & Hn & Hbelow). unfold main. rewrite Hn.
      cbn [JS.nullish]. rewrite Hbelow. reflexivity.
  - intro Hnan.
    assert (Hcheck : below_one (JS.nullish (argv_concurrency argv)
                                  (Integer 100%Z)) = false)
      by (rewrite Hnan; reflexivity).
    destruct (Hpassed Hcheck) as [H|[H|(mapping & H)]].
    + left. exact H.
    + right. left. exact H.
    + right. right. rewrite H, Hnan. reflexivity.
  - intros run st H.
    destruct (below_one (JS.nullish (argv_concurrency argv) (Integer 100%Z)))
      eqn:Hcheck.
    + unfold main in H. rewrite Hcheck in H. discriminate H.
    + destruct (Hpassed eq_refl) as [(e & E)|[E|(mapping & E)]];
        rewrite E in H; try discriminate H.
      destruct (JS.nullish (argv_concurrency argv) (Integer 100%Z))
        as [c|f|neg|]; try discriminate H.
      cbn [below_one] in Hcheck. apply Z.ltb_ge in Hcheck.
      cbv zeta in H. injection H as <- <-.
      exists c. split; [reflexivity|]. split; [exact Hcheck|].
      unfold s3SpaUpload, walkDirectory.
      cbn [fst snd root dir bucket options concurrency awsCredentials prefix].
      split; [reflexivity|]. split; [reflexivity|]. split; [reflexivity|].
      split; [reflexivity|]. split; [reflexivity|]. split; [reflexivity|].
      destruct (buildFileList fs (Path.resolve cwd (directory argv)))
        as [err|files]; [reflexivity|].
      unfold Fastq.promise.
      match goal with
      | |- context [(?x <? 1)%Z] => change x with c
      end.
      assert (Hlt : (c <? 1)%Z = false) by (apply Z.ltb_ge; exact Hcheck).
      rewrite Hlt. split.
      * match goal with
        | |- Fastq.concurrency (q (push_all _ _ ?r ?s ?t)) = _ =>
            destruct (push_all_within_limit contentType beyond r t s)
              as [_ E']
        end.
        -- unfold within_limit. cbn. lia.
        -- rewrite E'. reflexivity.
      * intro e. apply push_all_not_rejected.
Qed.

Lemma main_starts_with_valid_concurrency_witness :
  main Example.mime Example.beyond (fun _ => None) Example.site "/srv"
    (mkArgv "site" "bucket" (Some true) None (Some "v1") (Some NaN)) =
  StartedOutside NaN /\
  main Example.mime Example.beyond (fun _ => None) Example.site "/srv"
    (mkArgv "site" "bucket" (Some true) None (Some "v1")
       (Some (Integer 0%Z))) =
  ArgumentsRefused /\
  exists run st,
    main Example.mime Example.beyond (fun _ => None) Example.site "/srv"
      (mkArgv "site" "bucket" (Some true) None (Some "v1") None) =
    Started run st /\
    concurrency (options run) = Some 100%Z /\
    Fastq.concurrency (q st) = 100%Z /\
    control st = AwaitDrained.
Proof.
  split; [vm_compute; reflexivity|].
  split.
  - apply (proj1 (main_starts_with_valid_concurrency Example.mime
                    Example.beyond (fun _ => None) Example.site "/srv"
                    (mkArgv "site" "bucket" (Some true) None (Some "v1")
                       (Some (Integer 0%Z))))).
    exists (Integer 0%Z). split; reflexivity.
  - eexists. eexists. split; [vm_compute; reflexivity|].
    destruct (proj2 (proj2 (main_starts_with_valid_concurrency Example.mime
                              Example.beyond (fun _ => None) Example.site
                              "/srv"
                              (mkArgv "site" "bucket" (Some true) None
                                 (Some "v1") None)))
                _ _ ltac:(vm_compute; reflexivity))
      as (c & Hc & _ & H1 & _).
    injection Hc as <-.
    split; [exact H1|]. split; reflexivity.
Defined.

Lemma filter_twice : forall (A : Type) (f g : A -> bool) (l : list A),
  filter g (filter f l) = filter (fun x => f x && g x) l.
Proof.
  intros A f g. induction l as [|x t IH]; [reflexivity|].
  cbn [filter]. destruct (f x); cbn [andb filter]; [|exact IH].
  destruct (g x); rewrite IH; reflexivity.
Qed.

(** X13: the two revisions of [removeOldFiles] agree.  Once the current
    one has returned, the deletes it has sent are, in order, the keys that
    the earlier revision computes from the same listing: those that start
    with the prefix, without those that were uploaded. *)
Theorem revisions_delete_the_same_keys :
  forall args evs st n,
    sweep_steps args (removeOldFiles args) evs = Some st ->
    sweep_control st = Swept n ->
    (forall k, In k (listed_keys (listing evs)) -> k <> "") ->
    delete_keys (sweep_sent st) =
      filesToDelete (listed_keys (listing evs)) (arg_uploadedKeys args)
        (arg_prefix args).
Proof.
  intros args evs st n H Hn Hkeys.
  destruct (sweep_sends_stale_keys args evs st H) as (_ & Hswept).
  destruct (Hswept n Hn) as (_ & Hdel & _).
  rewrite (Hdel Hkeys). unfold filesToDelete. rewrite filter_twice.
  reflexivity.
Qed.

Lemma revisions_delete_the_same_keys_witness :
  exists st,
    sweep_steps Example.sweep_args (removeOldFiles Example.sweep_args)
      Example.sweep_events = Some st /\
    filesToDelete (listed_keys (listing Example.sweep_events)) ["app.js"] "" =
      ["old.txt"; "assets/gone.css"] /\
    delete_keys (sweep_sent st) =
      filesToDelete (listed_keys (listing Example.sweep_events))
        (arg_uploadedKeys Example.sweep_args) (arg_prefix Example.sweep_args).
Proof.
  eexists. split; [vm_compute; reflexivity|].
  split; [vm_compute; reflexivity|].
  apply (revisions_delete_the_same_keys Example.sweep_args
           Example.sweep_events _ 2%nat).
  - vm_compute. reflexivity.
  - reflexivity.
  - intros k Hin. vm_compute in Hin.
    destruct Hin as [<-|[<-|[<-|[]]]]; discriminate.
Defined.

(** ** What is uploaded *)

Section Faithful.

Variable contentType : string -> option string.
Variable beyond : string -> string -> bool.
Variable run : Run.
Variable files : list string.

Lemma listed_same : forall st st',
  sent st' = sent st -> Fastq.waiting (q st') = Fastq.waiting (q st) ->
  listed contentType beyond run files st ->
  listed contentType beyond run files st'.
Proof.
  intros st st' Hs Hw H. unfold listed in *. rewrite Hs, Hw. exact H.
Qed.

Lemma invoke_worker_listed : forall st id filePath st',
  invoke_worker contentType beyond run st id filePath = Some st' ->
  In filePath files ->
  listed contentType beyond run files st ->
  listed contentType beyond run files st'.
Proof.
  intros st id filePath st' H Hf (Hs & Hw).
  unfold invoke_worker, uploadToS3 in H.
  destruct (relative_key (dir run) filePath) as [key|] eqn:Hkey;
    [|discriminate H].
  injection H as <-.
  destruct (put_params _ _ _ _ _ _ _ _) as [err|input] eqn:Hp.
  - split; [exact Hs | exact Hw].
  - split; [|exact Hw]. cbn [sent].
    intros client cmd Hin. apply in_app_or in Hin.
    destruct Hin as [Hin|[Hin|[]]]; [exact (Hs _ _ Hin)|].
    injection Hin as _ <-. exists filePath, input.
    split; [exact Hf|]. split; [reflexivity|].
    unfold put_params in Hp.
    destruct (readFileSync (root run) filePath) as [err|body] eqn:Hread;
      [discriminate Hp|].
    injection Hp as <-. exists key, body.
    split; [exact Hkey|]. split; [exact Hread | reflexivity].
Qed.

Lemma push_listed : forall st filePath st',
  push contentType beyond run st filePath = Some st' ->
  In filePath files ->
  listed contentType beyond run files st ->
  listed contentType beyond run files st'.
Proof.
  intros st filePath st' H Hf Hl. unfold push in H.
  destruct (Fastq.saturated (q st)).
  - injection H as <-. destruct Hl as (Hs & Hw). split; [exact Hs|].
    cbn [q set_q Fastq.waiting Fastq.enqueue].
    intros id f Hin. apply in_app_or in Hin.
    destruct Hin as [Hin|[Hin|[]]]; [exact (Hw _ _ Hin)|].
    injection Hin as _ <-. exact Hf.
  - apply (invoke_worker_listed _ _ _ _ H Hf).
    apply (listed_same st); [reflexivity | reflexivity | exact Hl].
Qed.

Lemma push_all_from_files : forall todo st,
  incl todo files ->
  listed contentType beyond run files st ->
  from_files contentType beyond run files
    (push_all contentType beyond run st todo).
Proof.
  induction todo as [|filePath more IH]; intros st Hincl Hl.
  - cbn [push_all]. destruct (drained_same st) as (E1 & E2 & _).
    split.
    + apply (listed_same st); [exact E1 | rewrite E2; reflexivity | exact Hl].
    + intros id todo Hc. unfold drained in Hc.
      destruct (Fastq.idle (q st)); discriminate Hc.
  - cbn [push_all].
    assert (Hf : In filePath files) by (apply Hincl; left; reflexivity).
    assert (Hmore : incl more files)
      by (intros f Hin; apply Hincl; right; exact Hin).
    destruct (push contentType beyond run st filePath) as [st'|] eqn:Hp.
    + pose proof (push_listed _ _ _ Hp Hf Hl) as Hl'.
      destruct (0 <? Fastq.length (q st'))%nat; [|apply IH; assumption].
      split; [exact Hl'|]. cbn [control set_control].
      intros id todo E. injection E as _ <-. exact Hmore.
    + split; [exact Hl|]. cbn [control set_control]. discriminate.
Qed.

Lemma wake_drained_from_files : forall st,
  from_files contentType beyond run files st ->
  from_files contentType beyond run files (wake_drained st).
Proof.
  intros st (Hl & Ht). destruct (wake_drained_same st) as (E1 & E2 & _).
  split.
  - apply (listed_same st); [exact E1 | rewrite E2; reflexivity | exact Hl].
  - unfold wake_drained, drained.
    destruct (control st) eqn:Hc; try (rewrite Hc; exact Ht).
    destruct (Fastq.idle (q st)); discriminate.
Qed.

Lemma settle_from_files : forall st i id result,
  from_files contentType beyond run files st ->
  from_files contentType beyond run files
    (settle contentType beyond run st i id result).
Proof.
  intros st i id result (Hl & Ht). unfold settle.
  set (st1 := mkWalk _ (Fastq.finished (q st) i) _ _ _ _ _).
  assert (H1 : listed contentType beyond run files st1)
    by (apply (listed_same st); [reflexivity | reflexivity | exact Hl]).
  assert (Hc1 : control st1 = control st) by reflexivity.
  clearbody st1.
  destruct (release contentType beyond run st1) as [st2|] eqn:Hrel.
  - assert (H2 : listed contentType beyond run files st2 /\
                 control st2 = control st).
    { unfold release, Fastq.next in Hrel.
      destruct (Fastq.waiting (q st1)) as [|[id' filePath] ws] eqn:Hw.
      - injection Hrel as <-. split; [exact H1 | exact Hc1].
      - destruct (invoke_worker_count _ _ _ _ _ _ _ Hrel)
          as (_ & _ & _ & E4 & _).
        split; [|rewrite E4; exact Hc1].
        apply (invoke_worker_listed _ _ _ _ Hrel).
        + apply (proj2 H1 id'). rewrite Hw. left. reflexivity.
        + destruct H1 as (Hs1 & Hw1). split; [exact Hs1|].
          cbn [q set_q Fastq.waiting]. intros id0 f Hin.
          apply (Hw1 id0). rewrite Hw. right. exact Hin. }
    destruct H2 as (H2 & Hc2). rewrite <- Hc2 in Ht.
    assert (Hfrom : from_files contentType beyond run files st2)
      by (split; [exact H2 | exact Ht]).
    destruct result as [e|key]; destruct (control st2) eqn:Hctl;
      try (destruct (Nat.eqb id id0));
      first
        [ exact Hfrom
        | apply push_all_from_files; [exact (Ht _ _ eq_refl) | exact H2]
        | apply wake_drained_from_files; exact Hfrom
        | split;
          [ apply (listed_same st2); [reflexivity | reflexivity | exact H2]
          | cbn [control set_control]; rewrite ?Hctl;
              first [discriminate | exact Ht] ]
        | apply wake_drained_from_files; split;
          [ apply (listed_same st2); [reflexivity | reflexivity | exact H2]
          | cbn [control]; discriminate ] ].
  - split; [exact H1|]. cbn [control set_control]. discriminate.
Qed.

Lemma step_from_files : forall st ev st',
  step contentType beyond run st ev = Some st' ->
  upload_sound run st ->
  from_files contentType beyond run files st ->
  from_files contentType beyond run files st'.
Proof.
  intros st ev st' H Hsound Hinv. destruct ev as [i response].
  unfold step in H.
  destruct (nth_error (Fastq.running (q st)) i) as [job|] eqn:Hn;
    [|destruct (control st); discriminate H].
  assert (H' :
    match job with
    | Failing id e => Some (settle contentType beyond run st i id (inl e))
    | Putting id input retried =>
        match uploadToS3_answer (awsCredentials (options run)) input retried
                response with
        | Retry client =>
            Some (mkWalk (Some client)
                    (Fastq.replaced (q st) i (Putting id input true))
                    (pushed st) (uploadedS3Keys st) (control st)
                    (sent st ++ [(client, PutObjectCommand input)])%list
                    (unhandled st))
        | Finish result => Some (settle contentType beyond run st i id result)
        end
    end = Some st').
  { destruct (control st); try exact H. discriminate H. }
  clear H.
  destruct job as [id e|id input retried].
  - injection H' as <-. apply settle_from_files. exact Hinv.
  - destruct (uploadToS3_answer _ input retried response) as [client|result].
    + injection H' as <-.
      destruct Hsound as (_ & Hr & _).
      destruct (Hr _ _ _ (nth_error_In _ _ Hn)) as (c & Hc).
      destruct Hinv as ((Hs & Hw) & Ht).
      split; [split|].
      * cbn [sent]. intros client' cmd Hin. apply in_app_or in Hin.
        destruct Hin as [Hin|[Hin|[]]]; [exact (Hs _ _ Hin)|].
        injection Hin as _ <-. exact (Hs _ _ Hc).
      * exact Hw.
      * exact Ht.
    + injection H' as <-. apply settle_from_files. exact Hinv.
Qed.

Lemma steps_from_files : forall evs st st',
  steps contentType beyond run st evs = Some st' ->
  upload_sound run st ->
  from_files contentType beyond run files st ->
  from_files contentType beyond run files st'.
Proof.
  induction evs as [|ev more IH]; intros st st' H Hsound Hinv.
  - injection H as <-. exact Hinv.
  - cbn [steps] in H.
    destruct (step contentType beyond run st ev) as [st1|] eqn:Hstep;
      [|discriminate H].
    apply (IH st1 st' H).
    + apply (step_sound contentType beyond run st ev st1 Hstep Hsound).
    + apply (step_from_files st ev st1 Hstep Hsound Hinv).
Qed.

End Faithful.

Lemma s3SpaUpload_from_files :
  forall contentType beyond fs cwd d bucket opts files,
    buildFileList fs (Path.resolve cwd d) = inr files ->
    from_files contentType beyond
      (fst (s3SpaUpload contentType beyond fs cwd d bucket opts)) files
      (snd (s3SpaUpload contentType beyond fs cwd d bucket opts)).
Proof.
  intros contentType beyond fs cwd d bkt opts files Hfiles.
  unfold s3SpaUpload, walkDirectory. cbn [fst snd root dir options concurrency].
  rewrite Hfiles. unfold Fastq.promise. destruct (_ <? 1)%Z.
  - split; [split|].
    + intros client cmd [].
    + intros id f [].
    + cbn [control set_control]. discriminate.
  - apply push_all_from_files; [apply incl_refl|]. split.
    + intros client cmd [].
    + intros id f [].
Qed.

(** X14: what is uploaded.  Every request of the upload phase is the put
    of a file of the list that [buildFileList] has made: into the bucket
    given, at the normalized prefix followed by the path of the file
    relative to the directory, with the content of the file, the
    cache-control value that the mapping gives its path, and the content
    type of its extension. *)
Theorem uploads_are_the_listed_files :
  forall contentType beyond fs cwd d bkt opts files evs st client cmd,
    buildFileList fs (Path.resolve cwd d) = inr files ->
    steps contentType beyond
      (fst (s3SpaUpload contentType beyond fs cwd d bkt opts))
      (snd (s3SpaUpload contentType beyond fs cwd d bkt opts)) evs = Some st ->
    In (client, cmd) (sent st) ->
    exists filePath key body,
      In filePath files /\
      relative_key (Path.resolve cwd d) filePath = Some key /\
      readFileSync fs filePath = inr body /\
      cmd = PutObjectCommand
              {| PutObject.Bucket := bkt;
                 PutObject.Key := normalized_prefix (prefix opts) ++ key;
                 PutObject.Body := body;
                 PutObject.CacheControl :=
                   getCacheControl beyond filePath
                     (effective_mapping (cacheControlMapping opts));
                 PutObject.ContentType :=
                   contentType (Path.extname filePath) |}.
Proof.
  intros contentType beyond fs cwd d bkt opts files evs st client cmd
         Hfiles Hsteps Hin.
  destruct (steps_from_files contentType beyond _ files evs _ st Hsteps
              (s3SpaUpload_sound contentType beyond fs cwd d bkt opts)
              (s3SpaUpload_from_files contentType beyond fs cwd d bkt opts
                 files Hfiles))
    as ((Hs & _) & _).
  destruct (Hs client cmd Hin)
    as (filePath & input & Hf & -> & key & body & Hkey & Hread & ->).
  exists filePath, key, body.
  split; [exact Hf|]. split; [exact Hkey|]. split; [exact Hread|].
  reflexivity.
Qed.

Lemma uploads_are_the_listed_files_witness :
  exists st,
    steps Example.mime Example.beyond
      (fst (s3SpaUpload Example.mime Example.beyond Example.site "/srv" "site"
              "bucket" (Example.options_with (Some "v1") (Some 2%Z))))
      (snd (s3SpaUpload Example.mime Example.beyond Example.site "/srv" "site"
              "bucket" (Example.options_with (Some "v1") (Some 2%Z))))
      [Answer 1 None] = Some st /\
    nth_error (sent st) 2 =
      Some ({| region := None; credentials := None |},
            PutObjectCommand
              {| PutObject.Bucket := "bucket";
                 PutObject.Key := "v1/logo.png";
                 PutObject.Body := "PNG";
                 PutObject.CacheControl :=
                   Some "public,max-age=86400,stale-while-revalidate=2592000";
                 PutObject.ContentType := Some "image/png" |}) /\
    exists filePath key body,
      In filePath
        ["/srv/site/index.html"; "/srv/site/app.js"; "/srv/site/logo.png"] /\
      relative_key (Path.resolve "/srv" "site") filePath = Some key /\
      readFileSync Example.site filePath = inr body /\
      PutObjectCommand
        {| PutObject.Bucket := "bucket";
           PutObject.Key := "v1/logo.png";
           PutObject.Body := "PNG";
           PutObject.CacheControl :=
             Some "public,max-age=86400,stale-while-revalidate=2592000";
           PutObject.ContentType := Some "image/png" |} =
      PutObjectCommand
        {| PutObject.Bucket := "bucket";
           PutObject.Key :=
             normalized_prefix
               (prefix (Example.options_with (Some "v1") (Some 2%Z))) ++ key;
           PutObject.Body := body;
           PutObject.CacheControl :=
             getCacheControl Example.beyond filePath
               (effective_mapping
                  (cacheControlMapping
                     (Example.options_with (Some "v1") (Some 2%Z))));
           PutObject.ContentType := Example.mime (Path.extname filePath) |}.
Proof.
  eexists. split; [vm_compute; reflexivity|].
  split; [reflexivity|].
  eapply (uploads_are_the_listed_files Example.mime Example.beyond Example.site
            "/srv" "site" "bucket"
            (Example.options_with (Some "v1") (Some 2%Z))
            ["/srv/site/index.html"; "/srv/site/app.js"; "/srv/site/logo.png"]
            [Answer 1 None]).
  - vm_compute. reflexivity.
  - vm_compute. reflexivity.
  - right. right. left. reflexivity.
Defined.

(** ** The region of a redirect *)





Section Pieces.

Variable r : RegExp.regex.
Variable k : RegExp.Continuation.
Variable x z : RegExp.MatchState.






End Pieces.






(** ** The upload comes to an end *)

Section Progress.

Variable contentType : string -> option string.
Variable beyond : string -> string -> bool.
Variable run : Run.
Variable total : nat.

Hypothesis relative_key_defined :
  forall filePath, relative_key (dir run) filePath <> None.










End Progress.



(** ** The credentials of the clients *)

Section Credentials.

Variable contentType : string -> option string.
Variable beyond : string -> string -> bool.
Variable run : Run.

Lemma invoke_worker_credentialed : forall st id filePath st',
  invoke_worker contentType beyond run st id filePath = Some st' ->
  credentialed (awsCredentials (options run)) st ->
  credentialed (awsCredentials (options run)) st'.
Proof.
  intros st id filePath st' H (Hc & Hs). unfold invoke_worker, uploadToS3 in H.
  destruct (relative_key (dir run) filePath); [|discriminate H].
  injection H as <-.
  assert (Hclient :
    credentials
      (JS.nullish (_s3client st)
         {| region := None; credentials := awsCredentials (options run) |}) =
    awsCredentials (options run)).
  { destruct (_s3client st) as [c|] eqn:E; [exact (Hc c eq_refl) | reflexivity]. }
  destruct (put_params _ _ _ _ _ _ _ _) as [err|input].
  - split; [|exact Hs]. cbn [_s3client]. intros c E. injection E as <-.
    exact Hclient.
  - split.
    + cbn [_s3client]. intros c E. injection E as <-. exact Hclient.
    + cbn [sent]. apply Forall_app. split; [exact Hs|].
      constructor; [exact Hclient | constructor].
Qed.

Lemma push_credentialed : forall st filePath st',
  push contentType beyond run st filePath = Some st' ->
  credentialed (awsCredentials (options run)) st ->
  credentialed (awsCredentials (options run)) st'.
Proof.
  intros st filePath st' H Hc. unfold push in H.
  destruct (Fastq.saturated (q st)).
  - injection H as <-. exact Hc.
  - apply (invoke_worker_credentialed _ _ _ _ H). exact Hc.
Qed.

Lemma wake_drained_credentialed : forall st,
  credentialed (awsCredentials (options run)) st ->
  credentialed (awsCredentials (options run)) (wake_drained st).
Proof.
  intros st Hc. unfold wake_drained, drained.
  destruct (control st); try exact Hc.
  destruct (Fastq.idle (q st)); exact Hc.
Qed.

Lemma push_all_credentialed : forall todo st,
  credentialed (awsCredentials (options run)) st ->
  credentialed (awsCredentials (options run))
    (push_all contentType beyond run st todo).
Proof.
  induction todo as [|filePath more IH]; intros st Hc.
  - cbn [push_all]. unfold drained. destruct (Fastq.idle (q st)); exact Hc.
  - cbn [push_all].
    destruct (push contentType beyond run st filePath) as [st'|] eqn:Hp;
      [|exact Hc].
    apply push_credentialed in Hp; [|exact Hc].
    destruct (0 <? Fastq.length (q st'))%nat; [exact Hp | apply IH; exact Hp].
Qed.

Lemma settle_credentialed : forall st i id result,
  credentialed (awsCredentials (options run)) st ->
  credentialed (awsCredentials (options run))
    (settle contentType beyond run st i id result).
Proof.
  intros st i id result Hc. unfold settle.
  set (st1 := mkWalk _ (Fastq.finished (q st) i) _ _ _ _ _).
  assert (H1 : credentialed (awsCredentials (options run)) st1) by exact Hc.
  clearbody st1.
  assert (H2 : forall st2, release contentType beyond run st1 = Some st2 ->
                           credentialed (awsCredentials (options run)) st2).
  { intros st2 Hr. unfold release in Hr.
    destruct (Fastq.next (q st1)) as [[[id' filePath] q']|].
    - apply (invoke_worker_credentialed _ _ _ _ Hr). exact H1.
    - injection Hr as <-. exact H1. }
  destruct (release contentType beyond run st1) as [st2|]; [|exact H1].
  specialize (H2 st2 eq_refl).
  destruct result as [e|key]; destruct (control st2);
    try (destruct (Nat.eqb id id0));
    first [ exact H2
          | apply push_all_credentialed; exact H2
          | apply wake_drained_credentialed; exact H2 ].
Qed.

Lemma step_credentialed : forall st ev st',
  step contentType beyond run st ev = Some st' ->
  credentialed (awsCredentials (options run)) st ->
  credentialed (awsCredentials (options run)) st'.
Proof.
  intros st ev st' H Hinv. destruct ev as [i response]. unfold step in H.
  destruct (nth_error (Fastq.running (q st)) i) as [job|];
    [|destruct (control st); discriminate H].
  assert (H' :
    match job with
    | Failing id e => Some (settle contentType beyond run st i id (inl e))
    | Putting id input retried =>
        match uploadToS3_answer (awsCredentials (options run)) input retried
                response with
        | Retry client =>
            Some (mkWalk (Some client)
                    (Fastq.replaced (q st) i (Putting id input true))
                    (pushed st) (uploadedS3Keys st) (control st)
                    (sent st ++ [(client, PutObjectCommand input)])%list
                    (unhandled st))
        | Finish result => Some (settle contentType beyond run st i id result)
        end
    end = Some st').
  { destruct (control st); try exact H. discriminate H. }
  clear H.
  destruct job as [id e|id input retried].
  - injection H' as <-. apply settle_credentialed. exact Hinv.
  - destruct (uploadToS3_answer _ input retried response) as [client|result]
      eqn:Ha.
    + injection H' as <-.
      assert (Hclient : credentials client = awsCredentials (options run)).
      { pose proof (uploadToS3_answer_cases (awsCredentials (options run))
                      input retried response) as Hcases.
        rewrite Ha in Hcases.
        destruct Hcases as (_ & err & endpoint & _ & _ & _ & Hnew).
        unfold redirected_client, new_S3Client in Hnew.
        destruct (String.eqb _ ""); [discriminate Hnew|].
        injection Hnew as <-. reflexivity. }
      destruct Hinv as (_ & Hs). split.
      * cbn [_s3client]. intros c E. injection E as <-. exact Hclient.
      * cbn [sent]. apply Forall_app. split; [exact Hs|].
        constructor; [exact Hclient | constructor].
    + injection H' as <-. apply settle_credentialed. exact Hinv.
Qed.

Lemma steps_credentialed : forall evs st st',
  steps contentType beyond run st evs = Some st' ->
  credentialed (awsCredentials (options run)) st ->
  credentialed (awsCredentials (options run)) st'.
Proof.
  induction evs as [|ev more IH]; intros st st' H Hinv.
  - injection H as <-. exact Hinv.
  - cbn [steps] in H.
    destruct (step contentType beyond run st ev) as [st1|] eqn:Hstep;
      [|discriminate H].
    apply (IH st1 st' H). apply (step_credentialed st ev st1 Hstep Hinv).
Qed.

End Credentials.

(** X17: the credentials of the options are never dropped.  In every state
    of the upload phase, the client of the module and the client of every
    request that was sent, also after any number of redirects, carry the
    credentials that were given to [s3SpaUpload]. *)
Theorem credentials_are_kept :
  forall contentType beyond fs cwd d bkt opts evs st,
    steps contentType beyond
      (fst (s3SpaUpload contentType beyond fs cwd d bkt opts))
      (snd (s3SpaUpload contentType beyond fs cwd d bkt opts)) evs = Some st ->
    (forall client,
       _s3client st = Some client ->
       credentials client = awsCredentials opts) /\
    Forall (fun r : Request => credentials (fst r) = awsCredentials opts)
           (sent st).
Proof.
  intros contentType beyond fs cwd d bkt opts evs st Hsteps.
  apply (steps_credentialed contentType beyond _ evs _ st Hsteps
           : credentialed (awsCredentials opts) _ ->
             credentialed (awsCredentials opts) st).
  unfold s3SpaUpload, walkDirectory.
  cbn [fst snd root dir options concurrency awsCredentials].
  set (st0 := mkWalk _ _ _ _ _ _ _).
  assert (H0 : forall q0, credentialed (awsCredentials opts) (set_q st0 q0)).
  { intro q0. split.
    - cbn [_s3client set_q st0]. intros c E. injection E as <-. reflexivity.
    - constructor. }
  destruct (buildFileList fs (Path.resolve cwd d)) as [err|files].
  - exact (H0 (q st0)).
  - destruct (Fastq.promise _) as [err|q0]; [exact (H0 (q st0))|].
    match goal with
    | |- credentialed _ (push_all _ _ ?r ?s ?t) =>
        exact (push_all_credentialed contentType beyond r t s (H0 q0))
    end.
Qed.

Lemma credentials_are_kept_witness :
  exists st,
    steps Example.mime Example.beyond
      (fst (s3SpaUpload Example.mime Example.beyond Example.site "/srv" "site"
              "bucket"
              {| delete := None; cacheControlMapping := None;
                 awsCredentials :=
                   Some {| accessKeyId := "id"; secretAccessKey := "key";
                           sessionToken := None |};
                 prefix := None; concurrency := Some 2%Z |}))
      (snd (s3SpaUpload Example.mime Example.beyond Example.site "/srv" "site"
              "bucket"
              {| delete := None; cacheControlMapping := None;
                 awsCredentials :=
                   Some {| accessKeyId := "id"; secretAccessKey := "key";
                           sessionToken := None |};
                 prefix := None; concurrency := Some 2%Z |}))
      [Answer 0 (Some {| Code := Some "PermanentRedirect";
                         Endpoint :=
                           Some "bucket.s3.eu-west-1.amazonaws.com" |})]
    = Some st /\
    map (fun r : Request => region (fst r)) (sent st) =
      [None; None; Some "eu-west-1"] /\
    Forall (fun r : Request =>
              credentials (fst r) =
              Some {| accessKeyId := "id"; secretAccessKey := "key";
                      sessionToken := None |})
           (sent st).
Proof.
  eexists. split; [vm_compute; reflexivity|].
  split; [reflexivity|].
  apply (credentials_are_kept Example.mime Example.beyond Example.site
           "/srv" "site" "bucket"
           {| delete := None; cacheControlMapping := None;
              awsCredentials :=
                Some {| accessKeyId := "id"; secretAccessKey := "key";
                        sessionToken := None |};
              prefix := None; concurrency := Some 2%Z |}
           [Answer 0 (Some {| Code := Some "PermanentRedirect";
                              Endpoint :=
                                Some "bucket.s3.eu-west-1.amazonaws.com" |})]).
  vm_compute. reflexivity.
Defined.

(** ** Which files are uploaded *)

Lemma map_remove_nth : forall (A B : Type) (f : A -> B) l i,
  map f (Fastq.remove_nth i l) = Fastq.remove_nth i (map f l).
Proof.
  intros A B f. induction l as [|x t IH]; intro i; destruct i as [|i'];
    try reflexivity.
  cbn [Fastq.remove_nth map]. rewrite IH. reflexivity.
Qed.

Lemma Permutation_remove_nth : forall (A : Type) (l : list A) i x,
  nth_error l i = Some x -> Permutation l (x :: Fastq.remove_nth i l).
Proof.
  induction l as [|y t IH]; intros i x H.
  - destruct i; discriminate H.
  - destruct i as [|i']; cbn [Fastq.remove_nth].
    + injection H as ->. apply Permutation_refl.
    + apply (perm_trans (l' := y :: x :: Fastq.remove_nth i' t)).
      * apply perm_skip. apply IH. exact H.
      * apply perm_swap.
Qed.

Lemma map_replace_nth : forall (A B : Type) (f : A -> B) l i x y,
  nth_error l i = Some x -> f y = f x ->
  map f (Fastq.replace_nth i y l) = map f l.
Proof.
  intros A B f. induction l as [|z t IH]; intros i x y H Hf.
  - destruct i; discriminate H.
  - destruct i as [|i']; cbn [Fastq.replace_nth map].
    + injection H as ->. rewrite Hf. reflexivity.
    + rewrite (IH i' x y H Hf). reflexivity.
Qed.

Section Tracking.

Variable contentType : string -> option string.
Variable beyond : string -> string -> bool.
Variable run : Run.
Variable files : list string.
Variable total : nat.

#[local] Abbreviation key_of :=
  (key_of_file (root run) (dir run) (JS.nullish (prefix (options run)) "")).

Lemma invoke_worker_job : forall st id filePath st',
  invoke_worker contentType beyond run st id filePath = Some st' ->
  exists job,
    q st' = Fastq.started (q st) job /\
    job_key job = key_of filePath /\
    uploadedS3Keys st' = uploadedS3Keys st /\
    unhandled st' = unhandled st /\ control st' = control st.
Proof.
  intros st id filePath st' H.
  unfold invoke_worker, uploadToS3, put_params in H. unfold key_of_file.
  destruct (relative_key (dir run) filePath) as [key|]; [|discriminate H].
  injection H as <-.
  destruct (readFileSync (root run) filePath) as [err|body].
  - exists (Failing id err). repeat split.
  - eexists. repeat split.
Qed.

Lemma push_job : forall st filePath st',
  push contentType beyond run st filePath = Some st' ->
  Fastq.waiting (q st) = [] ->
  uploadedS3Keys st' = uploadedS3Keys st /\
  unhandled st' = unhandled st /\ control st' = control st /\
  ((Fastq.waiting (q st') = [(pushed st, filePath)] /\
    Fastq.running (q st') = Fastq.running (q st)) \/
   (Fastq.waiting (q st') = [] /\
    exists job,
      Fastq.running (q st') = (Fastq.running (q st) ++ [job])%list /\
      job_key job = key_of filePath)).
Proof.
  intros st filePath st' H Hw. unfold push in H.
  destruct (Fastq.saturated (q st)).
  - injection H as <-.
    cbn [q set_q uploadedS3Keys unhandled control Fastq.waiting Fastq.running
         Fastq.enqueue].
    rewrite Hw. repeat split. left. split; reflexivity.
  - destruct (invoke_worker_job _ _ _ _ H) as (job & Hq & Hk & Hu & Hh & Hc).
    cbn [q uploadedS3Keys unhandled control] in Hq, Hu, Hh, Hc.
    rewrite Hq, Hu, Hh, Hc. cbn [Fastq.started Fastq.waiting Fastq.running].
    repeat split. right. split; [exact Hw|].
    exists job. split; [reflexivity | exact Hk].
Qed.

Lemma push_all_unhandled : forall todo st,
  unhandled (push_all contentType beyond run st todo) = unhandled st.
Proof.
  induction todo as [|filePath more IH]; intro st.
  - cbn [push_all]. apply drained_same.
  - cbn [push_all].
    destruct (push contentType beyond run st filePath) as [st'|] eqn:Hp;
      [|reflexivity].
    assert (Hu : unhandled st' = unhandled st).
    { unfold push in Hp. destruct (Fastq.saturated (q st)).
      - injection Hp as <-. reflexivity.
      - apply invoke_worker_job in Hp.
        destruct Hp as (_ & _ & _ & _ & Hh & _). exact Hh. }
    destruct (0 <? Fastq.length (q st'))%nat; [exact Hu|].
    rewrite IH. exact Hu.
Qed.

Lemma push_all_tracked : forall todo st started,
  Fastq.waiting (q st) = [] ->
  files = (started ++ todo)%list ->
  Permutation (map key_of started)
    (map Some (uploadedS3Keys st) ++ map job_key (Fastq.running (q st))) ->
  tracked run files (push_all contentType beyond run st todo).
Proof.
  induction todo as [|filePath more IH]; intros st started Hw Hfiles Hperm.
  - cbn [push_all]. intros _ _. exists started.
    destruct (drained_same st) as (_ & Hq & Hu & _). rewrite Hq, Hu, Hw.
    split; [|exact Hperm].
    unfold drained. destruct (Fastq.idle (q st)); exact Hfiles.
  - cbn [push_all].
    destruct (push contentType beyond run st filePath) as [st'|] eqn:Hp;
      [|intro Hg; discriminate Hg].
    destruct (push_job _ _ _ Hp Hw) as (Hu & _ & _ & Hcase).
    unfold Fastq.length.
    destruct Hcase as [(Hw' & Hr') | (Hw' & job & Hr' & Hk)]; rewrite Hw'.
    + cbn [length Nat.ltb Nat.leb]. intros _ _. exists started.
      cbn [q control set_control uploadedS3Keys todo_of].
      rewrite Hw', Hr', Hu. split; [exact Hfiles | exact Hperm].
    + cbn [length Nat.ltb Nat.leb].
      apply (IH st' (started ++ [filePath])%list); [exact Hw'| |].
      * rewrite <- app_assoc. exact Hfiles.
      * rewrite Hu, Hr', !map_app, app_assoc. cbn [map]. rewrite <- Hk.
        apply Permutation_app_tail. exact Hperm.
Qed.

Lemma settle_tracked : forall st i job result,
  nth_error (Fastq.running (q st)) i = Some job ->
  (forall key, result = inr key -> job_key job = Some key) ->
  paced total st ->
  tracked run files st ->
  tracked run files
    (settle contentType beyond run st i (job_id job) result).
Proof.
  intros st i job result Hn Hkey (P1 & _) Htracked. unfold settle.
  set (keys := match result with
               | inl _ => uploadedS3Keys st
               | inr key => (uploadedS3Keys st ++ [key])%list
               end).
  set (st1 := mkWalk _ (Fastq.finished (q st) i) _ keys _ _ _).
  destruct (release contentType beyond run st1) as [st2|] eqn:Hrel;
    [|intro Hg; discriminate Hg].
  (* what the release leaves *)
  assert (H2 : Fastq.waiting (q st2) = [] /\
               uploadedS3Keys st2 = keys /\
               unhandled st2 = unhandled st /\ control st2 = control st /\
               exists new,
                 Fastq.running (q st2) =
                   (Fastq.remove_nth i (Fastq.running (q st)) ++ new)%list /\
                 map job_key new =
                   map key_of (map snd (Fastq.waiting (q st)))).
  { unfold release, Fastq.next in Hrel.
    change (Fastq.waiting (q st1)) with (Fastq.waiting (q st)) in Hrel.
    destruct (Fastq.waiting (q st)) as [|[id' filePath] ws] eqn:Ew.
    - injection Hrel as <-. unfold st1.
      cbn [q uploadedS3Keys unhandled control Fastq.waiting Fastq.running
           Fastq.finished].
      rewrite Ew. repeat split. exists []. rewrite app_nil_r.
      split; reflexivity.
    - destruct ws as [|w ws]; [|cbn [length] in P1; lia].
      destruct (invoke_worker_job _ _ _ _ Hrel)
        as (job' & Hq & Hk & Hu & Hh & Hc).
      rewrite Hq, Hu, Hh, Hc. unfold st1.
      cbn [q set_q uploadedS3Keys unhandled control Fastq.waiting
           Fastq.running Fastq.finished Fastq.started].
      repeat split. exists [job']. split; [reflexivity|].
      cbn [map snd]. rewrite Hk. reflexivity. }
  destruct H2 as (Hw2 & Hu2 & Hh2 & Hc2 & new & Hr2 & Hnew).
  clear Hrel. clearbody st1.
  destruct result as [e|key].
  - (* a failure ends the tracking: it rejects the walk or stays without a
       handler *)
    destruct (control st2) eqn:E2; try (destruct (Nat.eqb (job_id job) id));
      intros Hg Hh; try discriminate Hg.
    + cbn [unhandled] in Hh. destruct (unhandled st2); discriminate Hh.
    + destruct (wake_drained_same
                  (mkWalk (_s3client st2) (q st2) (pushed st2)
                     (uploadedS3Keys st2) AwaitDrained (sent st2)
                     (unhandled st2 ++ [e])%list)) as (_ & _ & _ & _ & Hx).
      rewrite Hx in Hh. cbn [unhandled] in Hh.
      destruct (unhandled st2); discriminate Hh.
    + cbn [wake_drained control unhandled] in Hh.
      destruct (unhandled st2); discriminate Hh.
  - (* an acknowledgement records the key of the invocation *)
    assert (Hstep : given_up (control st) = false -> unhandled st = [] ->
              exists started,
                files = (started ++ todo_of (control st2))%list /\
                Permutation (map key_of started)
                  (map Some (uploadedS3Keys st2)
                   ++ map job_key (Fastq.running (q st2)))).
    { intros Hg Hh. destruct (Htracked Hg Hh) as (started & Hfiles & Hperm).
      exists (started ++ map snd (Fastq.waiting (q st)))%list.
      split; [rewrite Hc2, <- app_assoc; exact Hfiles|].
      rewrite Hu2, Hr2. unfold keys. rewrite !map_app, Hnew. cbn [map].
      rewrite <- !app_assoc.
      apply (perm_trans
               (l' := ((map Some (uploadedS3Keys st)
                        ++ map job_key (Fastq.running (q st)))
                       ++ map key_of (map snd (Fastq.waiting (q st))))%list)).
      - apply Permutation_app_tail. exact Hperm.
      - rewrite <- app_assoc. apply Permutation_app_head.
        rewrite app_assoc. apply Permutation_app_tail.
        rewrite map_remove_nth.
        apply (perm_trans
                 (l' := Some key
                        :: Fastq.remove_nth i
                             (map job_key (Fastq.running (q st))))).
        + apply Permutation_remove_nth.
          rewrite nth_error_map, Hn. cbn [option_map].
          rewrite (Hkey key eq_refl). reflexivity.
        + apply Permutation_refl. }
    destruct (control st2) eqn:E2;
      try (destruct (Nat.eqb (job_id job) id)).
    + rewrite <- Hc2 in Hstep. intros Hg Hh.
      rewrite push_all_unhandled in Hh. rewrite Hh2 in Hh.
      destruct (Hstep eq_refl Hh) as (started & Hfiles & Hperm).
      cbn [todo_of] in Hfiles.
      exact (push_all_tracked todo st2 started Hw2 Hfiles Hperm Hg
               ltac:(rewrite push_all_unhandled, Hh2; exact Hh)).
    + rewrite <- Hc2 in Hstep. intros Hg Hh. rewrite Hh2 in Hh.
      destruct (Hstep eq_refl Hh) as (started & Hfiles & Hperm).
      exists started. rewrite Hw2, E2. cbn [map app]. split; assumption.
    + rewrite <- Hc2 in Hstep. intros Hg Hh.
      destruct (wake_drained_same st2) as (_ & Hq & Hu & _ & Hx).
      rewrite Hx, Hh2 in Hh.
      destruct (Hstep eq_refl Hh) as (started & Hfiles & Hperm).
      exists started. rewrite Hq, Hu, Hw2. cbn [map app].
      split; [|exact Hperm].
      unfold wake_drained, drained. rewrite E2.
      destruct (Fastq.idle (q st2)); exact Hfiles.
    + assert (Ew : wake_drained st2 = st2)
        by (unfold wake_drained; rewrite E2; reflexivity).
      rewrite Ew. rewrite <- Hc2 in Hstep. intros Hg Hh. rewrite Hh2 in Hh.
      destruct (Hstep eq_refl Hh) as (started & Hfiles & Hperm).
      exists started. rewrite Hw2, E2. cbn [map app]. split; assumption.
    + assert (Ew : wake_drained st2 = st2)
        by (unfold wake_drained; rewrite E2; reflexivity).
      rewrite Ew. intros Hg Hh. rewrite E2 in Hg. discriminate Hg.
    + assert (Ew : wake_drained st2 = st2)
        by (unfold wake_drained; rewrite E2; reflexivity).
      rewrite Ew. intros Hg Hh. rewrite E2 in Hg. discriminate Hg.
Qed.

Lemma step_tracked : forall st ev st',
  step contentType beyond run st ev = Some st' ->
  paced total st ->
  tracked run files st -> tracked run files st'.
Proof.
  intros st ev st' H Hpaced Hinv. destruct ev as [i response].
  unfold step in H.
  destruct (nth_error (Fastq.running (q st)) i) as [job|] eqn:Hn;
    [|destruct (control st); discriminate H].
  assert (H' :
    match job with
    | Failing id e => Some (settle contentType beyond run st i id (inl e))
    | Putting id input retried =>
        match uploadToS3_answer (awsCredentials (options run)) input retried
                response with
        | Retry client =>
            Some (mkWalk (Some client)
                    (Fastq.replaced (q st) i (Putting id input true))
                    (pushed st) (uploadedS3Keys st) (control st)
                    (sent st ++ [(client, PutObjectCommand input)])%list
                    (unhandled st))
        | Finish result => Some (settle contentType beyond run st i id result)
        end
    end = Some st').
  { destruct (control st); try exact H. discriminate H. }
  clear H.
  destruct job as [id e|id input retried].
  - injection H' as <-.
    apply (settle_tracked st i (Failing id e) (inl e) Hn); try assumption.
    discriminate.
  - pose proof (uploadToS3_answer_cases (awsCredentials (options run))
                  input retried response) as Hcases.
    destruct (uploadToS3_answer _ input retried response) as [client|result].
    + injection H' as <-. destruct Hcases as (-> & _).
      intros Hg Hh. destruct (Hinv Hg Hh) as (started & Hfiles & Hperm).
      exists started.
      cbn [q control uploadedS3Keys Fastq.waiting Fastq.running
           Fastq.replaced].
      split; [exact Hfiles|].
      rewrite (map_replace_nth _ _ job_key _ i _ (Putting id input true) Hn
                 eq_refl).
      exact Hperm.
    + injection H' as <-.
      apply (settle_tracked st i (Putting id input retried) result Hn);
        try assumption.
      intros key ->. destruct Hcases as (_ & ->). reflexivity.
Qed.

Lemma steps_tracked : forall evs st st',
  steps contentType beyond run st evs = Some st' ->
  paced total st ->
  tracked run files st -> tracked run files st'.
Proof.
  induction evs as [|ev more IH]; intros st st' H Hpaced Hinv.
  - injection H as <-. exact Hinv.
  - cbn [steps] in H.
    destruct (step contentType beyond run st ev) as [st1|] eqn:Hstep;
      [|discriminate H].
    apply (IH st1 st' H).
    + apply (step_paced contentType beyond run total st ev st1 Hstep Hpaced).
    + apply (step_tracked st ev st1 Hstep Hpaced Hinv).
Qed.

End Tracking.

Lemma s3SpaUpload_tracked :
  forall contentType beyond fs cwd d bucket opts files,
    buildFileList fs (Path.resolve cwd d) = inr files ->
    tracked (fst (s3SpaUpload contentType beyond fs cwd d bucket opts)) files
            (snd (s3SpaUpload contentType beyond fs cwd d bucket opts)).
Proof.
  intros contentType beyond fs cwd d bkt opts files Hfiles.
  unfold s3SpaUpload, walkDirectory. cbn [fst snd root dir options concurrency].
  rewrite Hfiles. unfold Fastq.promise. destruct (_ <? 1)%Z.
  - intro Hg. discriminate Hg.
  - apply (push_all_tracked contentType beyond _ files files _ []).
    + reflexivity.
    + reflexivity.
    + apply Permutation_refl.
Qed.

(** X8: when [walkDirectory] has returned and no failure has gone without a
    handler (a rejection that nothing handles ends a Node process), no
    invocation is outstanding and no task waits, every file of the list
    could be read, and the keys that are recorded as uploaded are, one for
    one, the keys of the files of the list: each file has its key among
    them, and there are as many keys as files. *)
Theorem returned_walk_accounts_for_every_file :
  forall contentType beyond fs cwd d bkt opts files evs st,
    buildFileList fs (Path.resolve cwd d) = inr files ->
    steps contentType beyond
      (fst (s3SpaUpload contentType beyond fs cwd d bkt opts))
      (snd (s3SpaUpload contentType beyond fs cwd d bkt opts)) evs = Some st ->
    control st = Returned ->
    unhandled st = [] ->
    Fastq.running (q st) = [] /\ Fastq.waiting (q st) = [] /\
    Permutation
      (map (key_of_file fs (Path.resolve cwd d)
              (normalized_prefix (prefix opts))) files)
      (map Some (uploadedS3Keys st)) /\
    (forall filePath,
       In filePath files ->
       exists key body,
         relative_key (Path.resolve cwd d) filePath = Some key /\
         readFileSync fs filePath = inr body /\
         In (normalized_prefix (prefix opts) ++ key) (uploadedS3Keys st)) /\
    length (uploadedS3Keys st) = length files.
Proof.
  intros contentType beyond fs cwd d bkt opts files evs st Hfiles Hsteps
         Hret Hnone.
  pose proof (s3SpaUpload_paced contentType beyond fs cwd d bkt opts files
                Hfiles) as Hpaced0.
  pose proof (steps_paced contentType beyond _ _ evs _ st Hsteps Hpaced0)
    as (_ & P2 & P3 & _ & _).
  pose proof (steps_tracked contentType beyond _ files (length files) evs _ st
                Hsteps Hpaced0
                (s3SpaUpload_tracked contentType beyond fs cwd d bkt opts
                   files Hfiles)) as Htracked.
  rewrite Hret in P2.
  unfold tracked in Htracked. rewrite Hret in Htracked.
  destruct (Htracked eq_refl Hnone) as (started & Hsplit & Hperm).
  rewrite P2, (P3 Hret) in *. cbn [map app todo_of] in Hsplit, Hperm.
  rewrite !app_nil_r in *. subst started.
  cbn [fst s3SpaUpload root dir options prefix JS.nullish] in Hperm.
  split; [reflexivity|]. split; [reflexivity|]. split; [exact Hperm|].
  split.
  - intros filePath Hin.
    assert (Hk : In (key_of_file fs (Path.resolve cwd d)
                       (normalized_prefix (prefix opts)) filePath)
                    (map Some (uploadedS3Keys st))).
    { apply (Permutation_in _ Hperm). apply in_map. exact Hin. }
    apply in_map_iff in Hk. destruct Hk as (k & Hk & Hin').
    unfold key_of_file in Hk.
    destruct (relative_key (Path.resolve cwd d) filePath) as [key|];
      [|discriminate Hk].
    destruct (readFileSync fs filePath) as [err|body]; [discriminate Hk|].
    injection Hk as ->. exists key, body. repeat split. exact Hin'.
  - apply Permutation_length in Hperm. rewrite !length_map in Hperm.
    symmetry. exact Hperm.
Qed.

Lemma returned_walk_accounts_for_every_file_witness :
  exists st,
    steps Example.mime Example.beyond
      (fst (s3SpaUpload Example.mime Example.beyond Example.site "/srv" "site"
              "bucket" (Example.options_with (Some "v1") (Some 2%Z))))
      (snd (s3SpaUpload Example.mime Example.beyond Example.site "/srv" "site"
              "bucket" (Example.options_with (Some "v1") (Some 2%Z))))
      [Answer 1 None; Answer 0 None; Answer 0 None] = Some st /\
    uploadedS3Keys st = ["v1/app.js"; "v1/index.html"; "v1/logo.png"] /\
    Permutation
      (map (key_of_file Example.site (Path.resolve "/srv" "site")
              (normalized_prefix
                 (prefix (Example.options_with (Some "v1") (Some 2%Z)))))
         ["/srv/site/index.html"; "/srv/site/app.js"; "/srv/site/logo.png"])
      (map Some (uploadedS3Keys st)) /\
    length (uploadedS3Keys st) = 3%nat.
Proof.
  eexists. split; [vm_compute; reflexivity|].
  split; [reflexivity|].
  destruct (returned_walk_accounts_for_every_file Example.mime Example.beyond
              Example.site "/srv" "site" "bucket"
              (Example.options_with (Some "v1") (Some 2%Z))
              ["/srv/site/index.html"; "/srv/site/app.js";
               "/srv/site/logo.png"]
              [Answer 1 None; Answer 0 None; Answer 0 None] _
              ltac:(vm_compute; reflexivity) ltac:(vm_compute; reflexivity)
              ltac:(vm_compute; reflexivity) ltac:(vm_compute; reflexivity))
    as (_ & _ & Hperm & _ & Hlen).
  split; [exact Hperm | exact Hlen].
Defined.
